(** * Clio relation service: the relations model and the log rotation manager

    A shallow embedding of
    - [relation-service/src/models/relations.js] (class [RelationsModel]) and
    - [lib/logRotation.js] (class [LogRotationManager]),
    together with the properties of the two modules that the specification
    of the repository states, and further properties read off the code.

    Conventions.
    - JavaScript code that reads the clock, talks to the database, touches the
      process-wide cache or may throw is written in a state-and-exception
      monad [M]: a computation maps a world to an outcome and a new world;
      the world survives a [Throw], as it does in JavaScript.
    - Times are integers (milliseconds since the epoch).
    - [console.log], [console.warn] and [console.error] leave no trace in the
      world and are left out.
    - Of [RelationsModel] the embedding has every method but
      [getUserCommands], whose rows share the cache with the arrays of
      [getRelations] under another shape.  Of [LogRotationManager] it has
      [checkLogFile], [resetLogFile], the selection loop of [checkAndRotate]
      and the export status table; [initialize], [stop],
      [ensureDirectoryExists], [rotateLogs], [createArchive] and
      [forceRotation] work through timers, directories and the archiver and
      are left out. *)

From Stdlib Require Import ZArith NArith String Ascii List Lia Bool Sorted.
From stdpp Require Import base option list gmap strings fin_maps pretty.

Local Open Scope string_scope.
Local Open Scope list_scope.
Local Open Scope Z_scope.

(** ** Effects: state that survives exceptions *)

Module Effects.

Section Monad.
Context {W E : Type}.

Inductive Outcome (A : Type) : Type :=
| Ok (a : A)
| Throw (e : E).
Global Arguments Ok {A} a.
Global Arguments Throw {A} e.

Definition M (A : Type) : Type := W -> Outcome A * W.

Definition ret {A} (a : A) : M A := fun w => (Ok a, w).

Definition bind {A B} (m : M A) (k : A -> M B) : M B := fun w =>
  match m w with
  | (Ok a, w') => k a w'
  | (Throw e, w') => (Throw e, w')
  end.

Definition throw {A} (e : E) : M A := fun w => (Throw e, w).

(** [try { m } catch (e) { h e }] *)
Definition try_catch {A} (m : M A) (h : E -> M A) : M A := fun w =>
  match m w with
  | (Ok a, w') => (Ok a, w')
  | (Throw e, w') => h e w'
  end.

(** [try { m } finally { f }]: [f] runs on both exits; when [f] itself does
    not throw, the outcome of [m] stands. *)
Definition try_finally {A} (m : M A) (f : M unit) : M A := fun w =>
  match m w with
  | (r, w') =>
      match f w' with
      | (Ok _, w'') => (r, w'')
      | (Throw e, w'') => (Throw e, w'')
      end
  end.

Definition gets {A} (f : W -> A) : M A := fun w => (Ok (f w), w).
Definition modify (f : W -> W) : M unit := fun w => (Ok tt, f w).

(** [for (const x of xs) { body x }] with an accumulator. *)
Fixpoint for_of {A S} (xs : list A) (body : S -> A -> M S) (s : S) : M S :=
  match xs with
  | [] => ret s
  | x :: xs' => bind (body s x) (for_of xs' body)
  end.
End Monad.

Arguments Outcome : clear implicits.
Arguments M : clear implicits.

Declare Scope js_scope.
Delimit Scope js_scope with js.
Notation "x <- m ;; k" := (bind m (fun x => k))
  (at level 100, m at next level, right associativity) : js_scope.
Notation "m ;;; k" := (bind m (fun _ => k))
  (at level 100, right associativity) : js_scope.

End Effects.

Import Effects.
Local Open Scope js_scope.

(** ** The relations model *)

Module RelationsModel.

(** The attribute bag passed along with an observation.  The code reads two
    of its fields, [firstSeen] and [timestamp]; [None] stands for a field
    that is absent (or otherwise falsy), which is what [||] tests.  The rest
    of the bag is opaque to the model. *)
Record Metadata := {
  firstSeen : option Z;
  timestamp : option Z;
  attrs : list (string * string)
}.

(** A row of table [relations].  The composite key is unique; the serial
    [id] column plays no part in the model. *)
Record Relation := {
  source_type : string;
  source_value : string;
  target_type : string;
  target_value : string;
  metadata : Metadata;
  first_seen : Z;
  last_seen : Z;
  strength : Z;
  connection_count : Z
}.

Definition Key : Type := string * string * string * string.

Definition key_of (r : Relation) : Key :=
  (source_type r, source_value r, target_type r, target_value r).

Global Instance Metadata_eq_dec : EqDecision Metadata.
Proof. solve_decision. Defined.
Global Instance Relation_eq_dec : EqDecision Relation.
Proof. solve_decision. Defined.

(** The row stored under a key, if any. *)
Fixpoint find_row (k : Key) (t : list Relation) : option Relation :=
  match t with
  | [] => None
  | r :: t' => if decide (key_of r = k) then Some r else find_row k t'
  end.

(** *** SQL statements of the model

    [INSERT ... ON CONFLICT (key) DO UPDATE SET ...]: the row with the key of
    the proposed row [excluded] is replaced by [merge existing excluded];
    without such a row, [excluded] is appended.  The second component is the
    row that [RETURNING *] yields. *)
Fixpoint insert_on_conflict (merge : Relation -> Relation -> Relation)
    (excluded : Relation) (t : list Relation) : list Relation * Relation :=
  match t with
  | [] => ([excluded], excluded)
  | r :: t' =>
      if decide (key_of r = key_of excluded)
      then (merge r excluded :: t', merge r excluded)
      else let '(t'', out) := insert_on_conflict merge excluded t' in
           (r :: t'', out)
  end.

(** The [DO UPDATE SET] clause of [upsertRelation] and
    [batchUpsertRelations]. *)
Definition upsert_merge (existing excluded : Relation) : Relation :=
  {| source_type := source_type existing;
     source_value := source_value existing;
     target_type := target_type existing;
     target_value := target_value existing;
     metadata := metadata excluded;
     first_seen := first_seen existing;
     last_seen := if decide (last_seen excluded > last_seen existing)
                  then last_seen excluded else last_seen existing;
     strength := strength existing + 1;
     connection_count := connection_count existing + 1 |}.

(** The [DO UPDATE SET] clause of the re-insertions of [updateFieldValue]. *)
Definition rename_merge (existing excluded : Relation) : Relation :=
  {| source_type := source_type existing;
     source_value := source_value existing;
     target_type := target_type existing;
     target_value := target_value existing;
     metadata := metadata excluded;
     first_seen := first_seen existing;
     last_seen := last_seen excluded;
     strength := Z.max (strength existing) (strength excluded);
     connection_count := connection_count existing + 1 |}.


(** *** Rows selected, deleted and counted by the statements *)

Record QueryResult := {
  rows : list Relation;
  rowCount : nat
}.

Definition no_rows : QueryResult := {| rows := []; rowCount := 0 |}.

Definition from_source (ft v : string) (r : Relation) : bool :=
  bool_decide (source_type r = ft) && bool_decide (source_value r = v).

Definition from_target (ft v : string) (r : Relation) : bool :=
  bool_decide (target_type r = ft) && bool_decide (target_value r = v).

(** [WHERE source_type = $1 OR target_type = $1] *)
Definition touches (ty : string) (r : Relation) : bool :=
  bool_decide (source_type r = ty) || bool_decide (target_type r = ty).

(** [CASE WHEN source_type = $1 THEN source_value ELSE target_value END] *)
Definition partition_value (ty : string) (r : Relation) : string :=
  if decide (source_type r = ty) then source_value r else target_value r.

(** [ORDER BY last_seen DESC]; rows with equal [last_seen] keep their
    relative order (SQL leaves the order of ties open, the model fixes it). *)
Fixpoint insert_desc (r : Relation) (l : list Relation) : list Relation :=
  match l with
  | [] => [r]
  | x :: l' =>
      if decide (last_seen x <= last_seen r) then r :: x :: l'
      else x :: insert_desc r l'
  end.

Definition order_by_last_seen_desc (l : list Relation) : list Relation :=
  foldr insert_desc [] l.

(** [ROW_NUMBER() OVER (PARTITION BY ... ORDER BY last_seen DESC)] over rows
    already in window order; [seen] holds the partition values of the rows
    numbered so far. *)
Fixpoint row_numbers (ty : string) (seen : list string) (l : list Relation)
    : list (Relation * Z) :=
  match l with
  | [] => []
  | r :: l' =>
      let p := partition_value ty r in
      (r, 1 + Z.of_nat (length (filter (fun q => q = p) seen)))
        :: row_numbers ty (p :: seen) l'
  end.

Definition ranked_relations (ty : string) (t : list Relation) : list (Relation * Z) :=
  row_numbers ty [] (order_by_last_seen_desc (filter (fun r => touches ty r = true) t)).

(** The query of [getRelations]. *)
Definition select_ranked (ty : string) (limit : Z) (t : list Relation) : list Relation :=
  order_by_last_seen_desc
    (fst <$> filter (fun rn => snd rn <= limit) (ranked_relations ty t)).

(** One day of a PostgreSQL interval, in milliseconds; the services run with
    [TZ=UTC] and [PGTZ=UTC] (docker-compose), so a day is 24 hours. *)
Definition DAY_MS : Z := 86400000.

(** [WHERE last_seen < NOW() - INTERVAL '1 day' * $1] *)
Definition older_than (now days : Z) (r : Relation) : bool :=
  bool_decide (last_seen r < now - DAY_MS * days).

Inductive Stmt :=
| SqlBegin
| SqlCommit
| SqlRollback
| SqlUpsert (sty sval tty tval : string) (md : Metadata) (first last : Z)
| SqlSelectRanked (ty : string) (limit : Z)
| SqlSelectSource (ft v : string)
| SqlSelectTarget (ft v : string)
| SqlDeleteSource (ft v : string)
| SqlDeleteTarget (ft v : string)
| SqlReinsert (sty sval tty tval : string) (str cnt first last : Z) (md : Metadata)
| SqlDeleteOld (days : Z).

(** What a data statement does to a table; [now] is the value of [NOW()]. *)
Definition run_sql (s : Stmt) (now : Z) (t : list Relation)
    : list Relation * QueryResult :=
  match s with
  | SqlBegin | SqlCommit | SqlRollback => (t, no_rows)
  | SqlUpsert sty sval tty tval md first last =>
      let excluded :=
        {| source_type := sty; source_value := sval;
           target_type := tty; target_value := tval;
           metadata := md; first_seen := first; last_seen := last;
           strength := 1; connection_count := 1 |} in
      let '(t', out) := insert_on_conflict upsert_merge excluded t in
      (t', {| rows := [out]; rowCount := 1 |})
  | SqlSelectRanked ty limit =>
      let rs := select_ranked ty limit t in
      (t, {| rows := rs; rowCount := length rs |})
  | SqlSelectSource ft v =>
      let rs := filter (fun r => from_source ft v r = true) t in
      (t, {| rows := rs; rowCount := length rs |})
  | SqlSelectTarget ft v =>
      let rs := filter (fun r => from_target ft v r = true) t in
      (t, {| rows := rs; rowCount := length rs |})
  | SqlDeleteSource ft v =>
      (filter (fun r => from_source ft v r = false) t,
       {| rows := [];
          rowCount := length (filter (fun r => from_source ft v r = true) t) |})
  | SqlDeleteTarget ft v =>
      (filter (fun r => from_target ft v r = false) t,
       {| rows := [];
          rowCount := length (filter (fun r => from_target ft v r = true) t) |})
  | SqlReinsert sty sval tty tval str cnt first last md =>
      let excluded :=
        {| source_type := sty; source_value := sval;
           target_type := tty; target_value := tval;
           metadata := md; first_seen := first; last_seen := last;
           strength := str; connection_count := cnt |} in
      let '(t', _) := insert_on_conflict rename_merge excluded t in
      (t', {| rows := []; rowCount := 1 |})
  | SqlDeleteOld days =>
      let gone := filter (fun r => older_than now days r = true) t in
      (filter (fun r => older_than now days r = false) t,
       {| rows := gone; rowCount := length gone |})
  end.

(** *** Values returned to callers *)

(** An array object: [ref] is its identity, fixed when it is allocated. *)
Record JsArray (A : Type) := {
  ref : nat;
  elems : list A
}.
Arguments ref {A} _.
Arguments elems {A} _.

Record Related := {
  rel_target : string;
  rel_type : string;
  rel_strength : Z;
  rel_connectionCount : Z;
  rel_firstSeen : Z;
  rel_lastSeen : Z;
  rel_metadata : Metadata
}.

Record Group := {
  grp_source : string;
  grp_type : string;
  grp_related : list Related
}.

Record CacheEntry := {
  ce_data : JsArray Group;
  ce_timestamp : Z
}.

(** *** The world: database, cache, clock *)

Inductive Error :=
| DbError (call : nat).

Record World := {
  table : list Relation;           (* committed rows: what every reader sees *)
  txn : option (list Relation);    (* working copy of the open transaction *)
  relationsCache : gmap string CacheEntry;
  next_ref : nat;                  (* identity of the next allocated array *)
  ticks : nat;                     (* clock readings taken so far *)
  clock : nat -> Z;                (* the n-th clock reading *)
  db_calls : nat;                  (* database round trips made so far *)
  db_fault : nat -> bool           (* does the n-th round trip fail? *)
}.

Definition set_table (t : list Relation) (w : World) : World :=
  {| table := t; txn := txn w; relationsCache := relationsCache w;
     next_ref := next_ref w; ticks := ticks w; clock := clock w;
     db_calls := db_calls w; db_fault := db_fault w |}.

Definition set_txn (x : option (list Relation)) (w : World) : World :=
  {| table := table w; txn := x; relationsCache := relationsCache w;
     next_ref := next_ref w; ticks := ticks w; clock := clock w;
     db_calls := db_calls w; db_fault := db_fault w |}.

Definition set_cache (c : gmap string CacheEntry) (w : World) : World :=
  {| table := table w; txn := txn w; relationsCache := c;
     next_ref := next_ref w; ticks := ticks w; clock := clock w;
     db_calls := db_calls w; db_fault := db_fault w |}.

Definition set_next_ref (n : nat) (w : World) : World :=
  {| table := table w; txn := txn w; relationsCache := relationsCache w;
     next_ref := n; ticks := ticks w; clock := clock w;
     db_calls := db_calls w; db_fault := db_fault w |}.

Definition set_ticks (n : nat) (w : World) : World :=
  {| table := table w; txn := txn w; relationsCache := relationsCache w;
     next_ref := next_ref w; ticks := n; clock := clock w;
     db_calls := db_calls w; db_fault := db_fault w |}.

Definition set_db_calls (n : nat) (w : World) : World :=
  {| table := table w; txn := txn w; relationsCache := relationsCache w;
     next_ref := next_ref w; ticks := ticks w; clock := clock w;
     db_calls := n; db_fault := db_fault w |}.

Abbreviation JS := (M World Error).

(** [Date.now()] and [new Date()]: the next clock reading. *)
Definition Date_now : JS Z := fun w =>
  (Ok (clock w (ticks w)), set_ticks (S (ticks w)) w).

(** [v || new Date()] *)
Definition or_now (v : option Z) : JS Z :=
  match v with
  | Some t => ret t
  | None => Date_now
  end.

(** Modelled from the spec: the store behind module [../db], which is not
    among the sources.  The specification gives it a contract (sections 5
    and 6): a relation table with insert-or-update on the composite unique
    key and transactions with begin, commit and rollback, whose statements
    other readers see all together at commit and not at all after a
    rollback.  A round trip to it may fail, when the fault oracle says
    so. *)
Definition round_trip : JS unit := fun w =>
  let w' := set_db_calls (S (db_calls w)) w in
  if db_fault w (db_calls w) then (Throw (DbError (db_calls w)), w')
  else (Ok tt, w').

(** [NOW()] is read only by the statement that mentions it. *)
Definition statement_time (s : Stmt) : JS Z :=
  match s with
  | SqlDeleteOld _ => Date_now
  | _ => ret 0
  end.

(** Modelled from the spec: [db.query(sql, params)] of module [../db]: one
    statement in its own transaction.  What the statement does to the table
    is read off its SQL text ([run_sql]). *)
Definition db_query (s : Stmt) : JS QueryResult :=
  round_trip ;;;
  now <- statement_time s ;;
  fun w => let '(t', res) := run_sql s now (table w) in (Ok res, set_table t' w).

(** Modelled from the spec: [db.pool.connect()] of module [../db], a round
    trip that yields a client, and [client.release()]. *)
Definition pool_connect : JS unit := round_trip.
Definition client_release : JS unit := ret tt.

(** Modelled from the spec: [client.query(sql, params)] on a client of the
    pool.  Between [BEGIN] and [COMMIT] statements work on the transaction's
    copy, which [COMMIT] publishes and [ROLLBACK] discards; a failed
    statement changes nothing. *)
Definition client_query (s : Stmt) : JS QueryResult :=
  round_trip ;;;
  match s with
  | SqlBegin => modify (fun w => set_txn (Some (table w)) w) ;;; ret no_rows
  | SqlCommit =>
      modify (fun w => match txn w with
                       | Some t => set_txn None (set_table t w)
                       | None => w
                       end) ;;; ret no_rows
  | SqlRollback => modify (set_txn None) ;;; ret no_rows
  | _ =>
      now <- statement_time s ;;
      fun w => match txn w with
               | Some t => let '(t', res) := run_sql s now t in
                           (Ok res, set_txn (Some t') w)
               | None => let '(t', res) := run_sql s now (table w) in
                         (Ok res, set_table t' w)
               end
  end.

(** *** Cache management methods *)

Definition RELATIONS_CACHE_TTL : Z := 30000.

Definition _getCachedData (key : string) : JS (option (JsArray Group)) :=
  cachedItem <- gets (fun w => relationsCache w !! key) ;;
  match cachedItem with
  | Some item =>
      t <- Date_now ;;
      if decide (t - ce_timestamp item < RELATIONS_CACHE_TTL)
      then ret (Some (ce_data item))
      else ret None
  | None => ret None
  end.

Definition _cacheData (key : string) (data : JsArray Group) : JS unit :=
  t <- Date_now ;;
  modify (fun w => set_cache
    (<[key := {| ce_data := data; ce_timestamp := t |}]> (relationsCache w)) w).

(** The loop of [_invalidateCache] over a snapshot of the keys. *)
Definition drop_prefixed (relationType : string) (keys : list string)
    (c : gmap string CacheEntry) : gmap string CacheEntry :=
  foldr (fun key c' => if String.prefix relationType key then delete key c' else c')
        c keys.

Definition _invalidateCache (relationType : string) : JS unit :=
  modify (fun w => set_cache
    (drop_prefixed relationType (fst <$> map_to_list (relationsCache w))
                   (relationsCache w)) w).

Definition _clearAllCaches : JS unit :=
  modify (set_cache ∅).


(** *** The operations of [RelationsModel] *)

(** The default [metadata = {}]. *)
Definition empty_metadata : Metadata :=
  {| firstSeen := None; timestamp := None; attrs := [] |}.

(** [upsertRelation(sourceType, sourceValue, targetType, targetValue,
    metadata = {})]; the result is [result.rows[0]]. *)
Definition upsertRelation (sourceType sourceValue targetType targetValue : string)
    (metadata : option Metadata) : JS (option Relation) :=
  let metadata := default empty_metadata metadata in
  try_catch
    (_invalidateCache sourceType ;;;
     _invalidateCache targetType ;;;
     first <- or_now (firstSeen metadata) ;;
     last <- or_now (timestamp metadata) ;;
     result <- db_query (SqlUpsert sourceType sourceValue targetType targetValue
                                   metadata first last) ;;
     ret (head (rows result)))
    (fun error => throw error).

(** An element of the array given to [batchUpsertRelations]. *)
Record RelationInput := {
  in_sourceType : string;
  in_sourceValue : string;
  in_targetType : string;
  in_targetValue : string;
  in_metadata : option Metadata
}.

(** [typesToInvalidate.add(type)] on a [Set] kept in insertion order. *)
Definition set_add (ty : string) (s : list string) : list string :=
  if decide (ty ∈ s) then s else s ++ [ty].

(** The body of the loop of [batchUpsertRelations]; the accumulator is the
    pair of [typesToInvalidate] and [results]. *)
Definition batch_step (acc : list string * list Relation) (relation : RelationInput)
    : JS (list string * list Relation) :=
  let '(typesToInvalidate, results) := acc in
  let metadata := default empty_metadata (in_metadata relation) in
  let typesToInvalidate :=
    set_add (in_targetType relation) (set_add (in_sourceType relation) typesToInvalidate) in
  first <- or_now (firstSeen metadata) ;;
  last <- or_now (timestamp metadata) ;;
  result <- client_query (SqlUpsert (in_sourceType relation) (in_sourceValue relation)
                                    (in_targetType relation) (in_targetValue relation)
                                    metadata first last) ;;
  match rows result with
  | row :: _ => ret (typesToInvalidate, results ++ [row])
  | [] => ret (typesToInvalidate, results)
  end.

(** [batchUpsertRelations(relations)]; [None] is a missing array. *)
Definition batchUpsertRelations (relations : option (list RelationInput))
    : JS (list Relation) :=
  match relations with
  | None | Some [] => ret []
  | Some relations =>
      try_catch
        (pool_connect ;;;
         acc <- try_finally
                  (try_catch
                     (client_query SqlBegin ;;;
                      acc <- for_of relations batch_step ([], []) ;;
                      client_query SqlCommit ;;;
                      ret acc)
                     (fun error => client_query SqlRollback ;;; throw error))
                  client_release ;;
         for_of (fst acc) (fun _ type => _invalidateCache type) tt ;;;
         ret (snd acc))
        (fun error => throw error)
  end.

(** The [Map] of [formatRelations], in insertion order: [related.push] on
    the group of [source], created on first sight with the type of that
    row. *)
Fixpoint push_related (source type : string) (x : Related) (m : list Group)
    : list Group :=
  match m with
  | [] => [{| grp_source := source; grp_type := type; grp_related := [x] |}]
  | g :: m' =>
      if decide (grp_source g = source)
      then {| grp_source := grp_source g; grp_type := grp_type g;
              grp_related := grp_related g ++ [x] |} :: m'
      else g :: push_related source type x m'
  end.

Definition related_of (row : Relation) : Related :=
  {| rel_target := target_value row;
     rel_type := target_type row;
     rel_strength := strength row;
     rel_connectionCount := connection_count row;
     rel_firstSeen := first_seen row;
     rel_lastSeen := last_seen row;
     rel_metadata := metadata row |}.

Definition groups_of (rows : list Relation) : list Group :=
  fold_left (fun m row => push_related (source_value row) (source_type row)
                                       (related_of row) m)
            rows [].

(** [formatRelations(rows)] returns a new array. *)
Definition formatRelations (rows : list Relation) : JS (JsArray Group) := fun w =>
  (Ok {| ref := next_ref w; elems := groups_of rows |},
   set_next_ref (S (next_ref w)) w).

(** The template literal [`${type}_${limit}`]. *)
Definition cache_key (type : string) (limit : Z) : string :=
  type +:+ "_" +:+ pretty limit.

(** [getRelations(type, limit = 100)] *)
Definition getRelations (type : string) (limit : option Z) : JS (JsArray Group) :=
  let limit := default 100 limit in
  try_catch
    (let cacheKey := cache_key type limit in
     cachedData <- _getCachedData cacheKey ;;
     match cachedData with
     | Some data => ret data
     | None =>
         result <- db_query (SqlSelectRanked type limit) ;;
         formattedRelations <- formatRelations (rows result) ;;
         _cacheData cacheKey formattedRelations ;;;
         ret formattedRelations
     end)
    (fun error => throw error).

(** The values [updateFieldValue] is called with: a string, or nothing. *)
Inductive JsValue :=
| JsUndefined
| JsNull
| JsString (s : string).

Global Instance JsValue_eq_dec : EqDecision JsValue.
Proof. solve_decision. Defined.

(** [!v] is [negb (truthy v)]. *)
Definition truthy (v : JsValue) : bool :=
  match v with
  | JsString s => negb (bool_decide (s = ""))
  | _ => false
  end.

(** [a === b] *)
Definition strict_eq (a b : JsValue) : bool := bool_decide (a = b).

(** The text bound to a statement parameter; the database is only reached
    with strings. *)
Definition sql_text (v : JsValue) : string :=
  match v with
  | JsString s => s
  | _ => ""
  end.

(** The two re-insertion loops of [updateFieldValue]. *)
Definition reinsert_source (newValue : string) (_ : unit) (relation : Relation)
    : JS unit :=
  now <- Date_now ;;
  client_query (SqlReinsert (source_type relation) newValue
                            (target_type relation) (target_value relation)
                            (strength relation) (connection_count relation)
                            (first_seen relation) now (metadata relation)) ;;;
  ret tt.

Definition reinsert_target (newValue : string) (_ : unit) (relation : Relation)
    : JS unit :=
  now <- Date_now ;;
  client_query (SqlReinsert (source_type relation) (source_value relation)
                            (target_type relation) newValue
                            (strength relation) (connection_count relation)
                            (first_seen relation) now (metadata relation)) ;;;
  ret tt.

(** [updateFieldValue(fieldType, oldValue, newValue)] *)
Definition updateFieldValue (fieldType : string) (oldValue newValue : JsValue)
    : JS nat :=
  try_catch
    (if negb (truthy oldValue) || negb (truthy newValue) || strict_eq oldValue newValue
     then ret 0%nat
     else
       _invalidateCache fieldType ;;;
       pool_connect ;;;
       try_finally
         (try_catch
            (client_query SqlBegin ;;;
             sourceResult <- client_query (SqlSelectSource fieldType (sql_text oldValue)) ;;
             targetResult <- client_query (SqlSelectTarget fieldType (sql_text oldValue)) ;;
             client_query (SqlDeleteSource fieldType (sql_text oldValue)) ;;;
             client_query (SqlDeleteTarget fieldType (sql_text oldValue)) ;;;
             for_of (rows sourceResult) (reinsert_source (sql_text newValue)) tt ;;;
             for_of (rows targetResult) (reinsert_target (sql_text newValue)) tt ;;;
             client_query SqlCommit ;;;
             let totalUpdated := (rowCount sourceResult + rowCount targetResult)%nat in
             ret totalUpdated)
            (fun error => client_query SqlRollback ;;; throw error))
         client_release)
    (fun error => throw error).

(** [deleteOldRelations(days = 30)] *)
Definition deleteOldRelations (days : option Z) : JS nat :=
  let days := default 30 days in
  try_catch
    (result <- db_query (SqlDeleteOld days) ;;
     _clearAllCaches ;;;
     ret (rowCount result))
    (fun error => throw error).

End RelationsModel.

(** ** The log rotation manager *)

(** *** Text files

    A JavaScript string is represented by its UTF-8 encoding, a file by its
    bytes.  [fs.readFile(path, 'utf8')] decodes the bytes of the file: every
    ill-formed byte sequence becomes U+FFFD (the replacement follows the
    WHATWG decoder: one U+FFFD per maximal ill-formed prefix). *)

Module Utf8.

Definition byte_in (lo hi : N) (c : ascii) : bool :=
  (lo <=? N_of_ascii c)%N && (N_of_ascii c <=? hi)%N.

(** U+FFFD REPLACEMENT CHARACTER, as UTF-8: EF BF BD. *)
Definition REPLACEMENT : string :=
  String (ascii_of_N 239) (String (ascii_of_N 191) (String (ascii_of_N 189) "")).

(** The decoder is between characters, or inside one: the bytes read so far,
    the number of continuation bytes still due, and the range the next one
    must fall in. *)
Inductive DecoderState :=
| Idle
| Pending (seen : string) (needed : nat) (lo hi : N).

(** A byte met between characters. *)
Definition first_byte (c : ascii) : string * DecoderState :=
  if byte_in 0 127 c then (String c "", Idle)
  else if byte_in 194 223 c then ("", Pending (String c "") 1 128 191)
  else if byte_in 224 224 c then ("", Pending (String c "") 2 160 191)
  else if byte_in 237 237 c then ("", Pending (String c "") 2 128 159)
  else if byte_in 225 239 c then ("", Pending (String c "") 2 128 191)
  else if byte_in 240 240 c then ("", Pending (String c "") 3 144 191)
  else if byte_in 241 243 c then ("", Pending (String c "") 3 128 191)
  else if byte_in 244 244 c then ("", Pending (String c "") 3 128 143)
  else (REPLACEMENT, Idle).

Fixpoint decode_from (st : DecoderState) (bytes : string) : string :=
  match bytes with
  | "" => match st with
          | Idle => ""
          | Pending _ _ _ _ => REPLACEMENT
          end
  | String c rest =>
      match st with
      | Idle => let '(out, st') := first_byte c in out +:+ decode_from st' rest
      | Pending seen needed lo hi =>
          if byte_in lo hi c then
            match needed with
            | S (S n) => decode_from (Pending (seen +:+ String c "") (S n) 128 191) rest
            | _ => seen +:+ String c (decode_from Idle rest)
            end
          else
            let '(out, st') := first_byte c in
            REPLACEMENT +:+ out +:+ decode_from st' rest
      end
  end.

Definition utf8_text (bytes : string) : string := decode_from Idle bytes.

End Utf8.

(** *** JSON texts

    [JSON.parse] is a function of the platform; [checkLogFile] below is
    stated for any function of its type.  [Json.parse] is the grammar of
    ECMA-404, used where an example needs a parser to run. *)

Module Json.
Import Utf8.

(** A parsed JSON text.  Numbers and strings keep their lexemes: the code
    looks at the shape of the value only. *)
#[warnings="-register-all"]
Inductive Json :=
| JNull
| JBool (b : bool)
| JNumber (lexeme : string)
| JString (chars : string)
| JArray (items : list Json)
| JObject (members : list (string * Json)).

Definition is_ws (c : ascii) : bool :=
  Ascii.eqb c " "%char || byte_in 9 10 c || byte_in 13 13 c.

Fixpoint skip_ws (s : string) : string :=
  match s with
  | String c r => if is_ws c then skip_ws r else s
  | "" => ""
  end.

Definition is_digit (c : ascii) : bool := byte_in 48 57 c.

Definition is_hex (c : ascii) : bool :=
  is_digit c || byte_in 65 70 c || byte_in 97 102 c.

(** [strip p s]: what follows [p] when [s] starts with [p]. *)
Fixpoint strip (p s : string) : option string :=
  match p, s with
  | "", _ => Some s
  | String a p', String c s' => if Ascii.eqb a c then strip p' s' else None
  | _, "" => None
  end.

Fixpoint take_digits (s : string) : string * string :=
  match s with
  | String c r =>
      if is_digit c then let '(d, r') := take_digits r in (String c d, r')
      else ("", s)
  | "" => ("", "")
  end.

(** A number: an optional minus sign; a zero, or a digit from 1 to 9 and
    more digits; an optional fraction; an optional exponent. *)
Definition lex_number (s : string) : option (string * string) :=
  let '(sign, s1) := match strip "-" s with
                     | Some r => ("-", r)
                     | None => ("", s)
                     end in
  let '(int, s2) := match strip "0" s1 with
                    | Some r => ("0", r)
                    | None => take_digits s1
                    end in
  if bool_decide (int = "") then None else
  let frac := match strip "." s2 with
              | Some r => let '(d, r') := take_digits r in
                          if bool_decide (d = "") then None else Some ("." +:+ d, r')
              | None => Some ("", s2)
              end in
  match frac with
  | None => None
  | Some (f, s3) =>
      match s3 with
      | String e r =>
          if Ascii.eqb e "e"%char || Ascii.eqb e "E"%char then
            let '(esign, r1) := match r with
                                | String g r' =>
                                    if Ascii.eqb g "+"%char || Ascii.eqb g "-"%char
                                    then (String g "", r') else ("", r)
                                | "" => ("", r)
                                end in
            let '(d, r2) := take_digits r1 in
            if bool_decide (d = "") then None
            else Some (sign +:+ int +:+ f +:+ String e esign +:+ d, r2)
          else Some (sign +:+ int +:+ f, s3)
      | "" => Some (sign +:+ int +:+ f, s3)
      end
  end.

(** The double quote. *)
Definition QUOTE : ascii := "034"%char.

Definition is_escape (c : ascii) : bool :=
  Ascii.eqb c QUOTE || existsb (Ascii.eqb c) (list_ascii_of_string "\/bfnrt").

(** After the opening quote: the characters up to the closing quote, escapes
    kept as written, and the rest of the text. *)
Fixpoint lex_string (s : string) : option (string * string) :=
  match s with
  | "" => None
  | String c r =>
      if Ascii.eqb c QUOTE then Some ("", r)
      else if Ascii.eqb c "\"%char then
        match r with
        | String e r' =>
            if is_escape e then
              match lex_string r' with
              | Some (cs, rest) => Some (String c (String e cs), rest)
              | None => None
              end
            else if Ascii.eqb e "u"%char then
              match r' with
              | String h1 (String h2 (String h3 (String h4 r''))) =>
                  if is_hex h1 && is_hex h2 && is_hex h3 && is_hex h4 then
                    match lex_string r'' with
                    | Some (cs, rest) =>
                        Some (String c (String e (String h1 (String h2
                                (String h3 (String h4 cs))))), rest)
                    | None => None
                    end
                  else None
              | _ => None
              end
            else None
        | "" => None
        end
      else if byte_in 0 31 c then None
      else match lex_string r with
           | Some (cs, rest) => Some (String c cs, rest)
           | None => None
           end
  end.

Fixpoint parse_value (fuel : nat) (s : string) : option (Json * string) :=
  match fuel with
  | O => None
  | S fuel' =>
      let s := skip_ws s in
      match s with
      | "" => None
      | String c r =>
          if Ascii.eqb c "["%char then
            match strip "]" (skip_ws r) with
            | Some r' => Some (JArray [], r')
            | None =>
                match parse_elements fuel' r with
                | Some (items, r') => Some (JArray items, r')
                | None => None
                end
            end
          else if Ascii.eqb c "{"%char then
            match strip "}" (skip_ws r) with
            | Some r' => Some (JObject [], r')
            | None =>
                match parse_members fuel' r with
                | Some (members, r') => Some (JObject members, r')
                | None => None
                end
            end
          else if Ascii.eqb c QUOTE then
            match lex_string r with
            | Some (cs, r') => Some (JString cs, r')
            | None => None
            end
          else
            match strip "null" s, strip "true" s, strip "false" s with
            | Some r', _, _ => Some (JNull, r')
            | _, Some r', _ => Some (JBool true, r')
            | _, _, Some r' => Some (JBool false, r')
            | _, _, _ =>
                match lex_number s with
                | Some (lexeme, r') => Some (JNumber lexeme, r')
                | None => None
                end
            end
      end
  end
with parse_elements (fuel : nat) (s : string) : option (list Json * string) :=
  match fuel with
  | O => None
  | S fuel' =>
      match parse_value fuel' s with
      | Some (v, r) =>
          match skip_ws r with
          | String c r' =>
              if Ascii.eqb c "]"%char then Some ([v], r')
              else if Ascii.eqb c ","%char then
                match parse_elements fuel' r' with
                | Some (vs, r'') => Some (v :: vs, r'')
                | None => None
                end
              else None
          | "" => None
          end
      | None => None
      end
  end
with parse_members (fuel : nat) (s : string)
    : option (list (string * Json) * string) :=
  match fuel with
  | O => None
  | S fuel' =>
      match strip (String QUOTE "") (skip_ws s) with
      | Some r0 =>
          match lex_string r0 with
          | Some (name, r1) =>
              match strip ":" (skip_ws r1) with
              | Some r2 =>
                  match parse_value fuel' r2 with
                  | Some (v, r3) =>
                      match skip_ws r3 with
                      | String c r4 =>
                          if Ascii.eqb c "}"%char then Some ([(name, v)], r4)
                          else if Ascii.eqb c ","%char then
                            match parse_members fuel' r4 with
                            | Some (ms, r5) => Some ((name, v) :: ms, r5)
                            | None => None
                            end
                          else None
                      | "" => None
                      end
                  | None => None
                  end
              | None => None
              end
          | None => None
          end
      | None => None
      end
  end.

(** [JSON.parse(text)]: the value, or the message of the [SyntaxError] (the
    two messages are the model's own; an engine words them in more
    detail). *)
Definition parse (text : string) : string + Json :=
  match parse_value (2 * String.length text + 2) text with
  | Some (v, r) =>
      if bool_decide (skip_ws r = "") then inr v
      else inl "Unexpected non-whitespace character after JSON"
  | None => inl "Unexpected token or end of JSON input"
  end.

End Json.

Module LogRotationManager.
Import Utf8 Json.

(** The fields of the manager that [checkLogFile] reads. *)
Record Manager := {
  dataDir : string;
  logFiles : list string;
  maxLogsPerFile : Z
}.

(** An event given to [eventLogger.logSystemEvent]: its name and payload
    [{file, backupPath, error, timestamp}]. *)
Record SystemEvent := {
  ev_name : string;
  ev_file : string;
  ev_backupPath : string;
  ev_error : string;
  ev_timestamp : Z
}.

Inductive FsError :=
| ENOENT (path : string)
| EACCES (path : string).

(** The file system, the event log and the clock.  The three oracles say
    which paths the file system refuses to test, to read and to write. *)
Record FsWorld := {
  files : gmap string string;       (* path to bytes *)
  events : list SystemEvent;        (* what the event logger received *)
  fs_ticks : nat;
  fs_clock : nat -> Z;
  access_fault : string -> bool;
  read_fault : string -> bool;
  write_fault : string -> bool
}.

Definition set_files (f : gmap string string) (w : FsWorld) : FsWorld :=
  {| files := f; events := events w; fs_ticks := fs_ticks w;
     fs_clock := fs_clock w; access_fault := access_fault w;
     read_fault := read_fault w; write_fault := write_fault w |}.

Definition set_events (e : list SystemEvent) (w : FsWorld) : FsWorld :=
  {| files := files w; events := e; fs_ticks := fs_ticks w;
     fs_clock := fs_clock w; access_fault := access_fault w;
     read_fault := read_fault w; write_fault := write_fault w |}.

Definition set_fs_ticks (n : nat) (w : FsWorld) : FsWorld :=
  {| files := files w; events := events w; fs_ticks := n;
     fs_clock := fs_clock w; access_fault := access_fault w;
     read_fault := read_fault w; write_fault := write_fault w |}.

Abbreviation FS := (M FsWorld FsError).

(** [Date.now()] and [new Date()] *)
Definition Date_now : FS Z := fun w =>
  (Ok (fs_clock w (fs_ticks w)), set_fs_ticks (S (fs_ticks w)) w).

(** [fs.access(path)] *)
Definition fs_access (path : string) : FS unit := fun w =>
  match files w !! path with
  | None => (Throw (ENOENT path), w)
  | Some _ => if access_fault w path then (Throw (EACCES path), w) else (Ok tt, w)
  end.

(** [fs.readFile(path, 'utf8')] *)
Definition fs_readFile (path : string) : FS string := fun w =>
  match files w !! path with
  | None => (Throw (ENOENT path), w)
  | Some bytes =>
      if read_fault w path then (Throw (EACCES path), w)
      else (Ok (utf8_text bytes), w)
  end.

(** [fs.writeFile(path, data)] with a string: its UTF-8 encoding becomes the
    content of the file. *)
Definition fs_writeFile (path data : string) : FS unit := fun w =>
  if write_fault w path then (Throw (EACCES path), w)
  else (Ok tt, set_files (<[path := data]> (files w)) w).

(** Modelled from the spec: [eventLogger.logSystemEvent], whose module
    [lib/eventLogger.js] is not among the sources.  The specification makes
    it a fire-and-forget consumer of structured events whose own failures
    are not propagated: the event is recorded and the call returns. *)
Definition logSystemEvent (e : SystemEvent) : FS unit :=
  modify (fun w => set_events (events w ++ [e]) w).

Section CheckLogFile.
(** [JSON.parse]: the parsed value, or the message of the [SyntaxError]. *)
Variable JSON_parse : string -> string + Json.
(** [path.join] *)
Variable path_join : string -> string -> string.

(** The template literal [`${filePath}.corrupted.${Date.now()}`]. *)
Definition backup_path (filePath : string) (now : Z) : string :=
  filePath +:+ ".corrupted." +:+ pretty now.

(** [checkLogFile(fileName)].  The inner [try] holds [JSON.parse] alone;
    its [catch] block returns from the function, and what it throws goes
    to the outer [catch]. *)
Definition checkLogFile (this : Manager) (fileName : string) : FS bool :=
  let filePath := path_join (dataDir this) fileName in
  try_catch
    (fs_access filePath ;;;
     data <- fs_readFile filePath ;;
     match JSON_parse data with
     | inl message =>
         now <- Date_now ;;
         let backupPath := backup_path filePath now in
         fs_writeFile backupPath data ;;;
         stamp <- Date_now ;;
         logSystemEvent {| ev_name := "log_file_corrupted";
                           ev_file := fileName;
                           ev_backupPath := backupPath;
                           ev_error := message;
                           ev_timestamp := stamp |} ;;;
         ret true
     | inr logs =>
         match logs with
         | JArray items =>
             if decide (maxLogsPerFile this <= Z.of_nat (length items))
             then ret true
             else ret false
         | _ => ret true
         end
     end)
    (fun error => ret false).
End CheckLogFile.

End LogRotationManager.

(** ** Vocabulary of the statements *)

Module Statements.
Import RelationsModel Utf8 Json LogRotationManager.

(** From this world on, no database round trip fails. *)
Definition reliable (w : World) : Prop :=
  forall i, (db_calls w <= i)%nat -> db_fault w i = false.

(** Calls of [upsertRelation] in a row on one composite key, one call per
    attribute bag. *)
Definition upsert_each (k : Key) (mds : list (option Metadata)) : JS unit :=
  let '(sty, sval, tty, tval) := k in
  for_of mds (fun _ md => upsertRelation sty sval tty tval md ;;; ret tt) tt.

(** The largest of a first time and the times of a list. *)
Definition max_time (t : Z) (ts : list Z) : Z := fold_left Z.max ts t.

(** The observation time of a call made between worlds [w] and [w']:
    [metadata.timestamp] when the caller supplied it, otherwise a reading of
    the clock taken by the call ([metadata.timestamp || new Date()]). *)
Definition observation (w w' : World) (md : option Metadata) (t : Z) : Prop :=
  timestamp (default empty_metadata md) = Some t \/
  (timestamp (default empty_metadata md) = None /\
   exists i, (ticks w <= i < ticks w')%nat /\ t = clock w i).

(** The row [VALUES ($1, ..., $7, 1, 1)] proposes. *)
Definition proposed (k : Key) (md : option Metadata) (first last : Z) : Relation :=
  {| source_type := k.1.1.1; source_value := k.1.1.2;
     target_type := k.1.2; target_value := k.2;
     metadata := default empty_metadata md;
     first_seen := first; last_seen := last;
     strength := 1; connection_count := 1 |}.

(** The composite key an element of a batch names. *)
Definition input_key (relation : RelationInput) : Key :=
  (in_sourceType relation, in_sourceValue relation,
   in_targetType relation, in_targetValue relation).

(** The row a re-insertion of [updateFieldValue] proposes for a source-side
    match, and for a target-side match. *)
Definition renamed_source (newValue : string) (now : Z) (r : Relation) : Relation :=
  {| source_type := source_type r; source_value := newValue;
     target_type := target_type r; target_value := target_value r;
     metadata := metadata r; first_seen := first_seen r; last_seen := now;
     strength := strength r; connection_count := connection_count r |}.

Definition renamed_target (newValue : string) (now : Z) (r : Relation) : Relation :=
  {| source_type := source_type r; source_value := source_value r;
     target_type := target_type r; target_value := newValue;
     metadata := metadata r; first_seen := first_seen r; last_seen := now;
     strength := strength r; connection_count := connection_count r |}.

(** Row [m] is what the [DO UPDATE] clause of a re-insertion makes of the
    stored row [s] and the re-inserted copy of [r], at time [now]. *)
Definition merged_into (s r m : Relation) (now : Z) : Prop :=
  key_of m = key_of s /\
  strength m = Z.max (strength s) (strength r) /\
  connection_count m = connection_count s + 1 /\
  last_seen m = now /\
  metadata m = metadata r /\
  first_seen m = first_seen s.

(** What a step inside a transaction leaves alone. *)
Record same_outside (w w' : World) : Prop := {
  so_table : table w' = table w;
  so_cache : relationsCache w' = relationsCache w;
  so_ref : next_ref w' = next_ref w;
  so_clock : clock w' = clock w;
  so_fault : db_fault w' = db_fault w
}.

(** What the text of a readable file must be like for [checkLogFile] to ask
    for a rotation: it does not parse, or it is not a list, or the list has
    reached the configured length. *)
Definition asks_rotation (JSON_parse : string -> string + Json) (max : Z)
    (text : string) : Prop :=
  match JSON_parse text with
  | inl _ => True
  | inr (JArray items) => max <= Z.of_nat (length items)
  | inr _ => True
  end.

(** *** Worlds of the examples *)

(** An empty store behind a database that never fails. *)
Definition quiet_world : World :=
  {| table := []; txn := None; relationsCache := ∅; next_ref := 0;
     ticks := 0; clock := fun n => Z.of_nat n + 1000;
     db_calls := 0; db_fault := fun _ => false |}.

(** A store holding [rows] behind a database whose round trips fail where
    [fault] says. *)
Definition world_of (rows : list Relation) (fault : nat -> bool) : World :=
  {| table := rows; txn := None; relationsCache := ∅; next_ref := 0;
     ticks := 0; clock := fun n => Z.of_nat n + 1000;
     db_calls := 0; db_fault := fault |}.

(** An attribute bag that carries an observation time. *)
Definition seen_at (t : Z) : option Metadata :=
  Some {| firstSeen := None; timestamp := Some t; attrs := [] |}.

Definition edge (sty sval tty tval : string) (seen str cnt : Z) : Relation :=
  {| source_type := sty; source_value := sval;
     target_type := tty; target_value := tval;
     metadata := empty_metadata; first_seen := seen; last_seen := seen;
     strength := str; connection_count := cnt |}.

Definition input (sty sval tty tval : string) : RelationInput :=
  {| in_sourceType := sty; in_sourceValue := sval;
     in_targetType := tty; in_targetValue := tval; in_metadata := None |}.

(** A store with one edge behind a database whose fourth round trip fails. *)
Definition flaky_world : World :=
  world_of [edge "ip" "1.2.3.4" "command" "ls" 5 1 1] (fun i => Nat.eqb i 3).

Definition two_rows : list RelationInput :=
  [input "username" "alice" "command" "ls";
   input "username" "bob" "command" "whoami"].

(** An edge from alice to alice and an edge from alice to a command. *)
Definition self_edge_world : World :=
  world_of [edge "username" "alice" "username" "alice" 5 1 1;
            edge "username" "alice" "command" "ls" 6 1 1]
           (fun _ => false).

(** alice and bob have run the same command. *)
Definition alice_ls : Relation := edge "username" "alice" "command" "ls" 5 4 4.
Definition bob_ls : Relation := edge "username" "bob" "command" "ls" 6 2 7.
Definition rename_world : World := world_of [alice_ls; bob_ls] (fun _ => false).

Definition cached (t : Z) : CacheEntry :=
  {| ce_data := {| ref := 0; elems := [] |}; ce_timestamp := t |}.

(** Three cached answers and a database that is down. *)
Definition down_world : World :=
  {| table := [alice_ls]; txn := None;
     relationsCache := {[ "username_10" := cached 990; "command_100" := cached 995;
                          "ip_10" := cached 999 ]};
     next_ref := 1; ticks := 0; clock := fun n => Z.of_nat n + 1000;
     db_calls := 0; db_fault := fun _ => true |}.

(** Edges last seen 31 and 29 days before the clock's first reading. *)
Definition aged_world : World :=
  world_of [edge "ip" "1.2.3.4" "command" "ls" (1000 - 31 * DAY_MS) 1 1;
            edge "ip" "1.2.3.4" "command" "whoami" (1000 - 29 * DAY_MS) 1 1]
           (fun _ => false).

(** [path.join] for a directory and a plain file name. *)
Definition posix_join (dir file : string) : string := dir +:+ "/" +:+ file.

(** The manager with its defaults. *)
Definition manager : Manager :=
  {| dataDir := "data";
     logFiles := ["security_logs.json"; "data_logs.json";
                  "system_logs.json"; "audit_logs.json"];
     maxLogsPerFile := 10000 |}.

(** A log cut in the middle of a two-byte character: an opening bracket and
    the byte C3. *)
Definition truncated : string := String "["%char (String (ascii_of_N 195) "").

(** A file system with one file. *)
Definition world_with (path bytes : string) (unwritable : bool) : FsWorld :=
  {| files := {[ path := bytes ]}; events := []; fs_ticks := 0;
     fs_clock := fun n => Z.of_nat n + 1700000000000;
     access_fault := fun _ => false; read_fault := fun _ => false;
     write_fault := fun _ => unwritable |}.

(** The audit log cut in the middle of a character; the audit log cut in
    the middle of a list; the same in a directory that refuses new files. *)
Definition cut_world : FsWorld := world_with "data/audit_logs.json" truncated false.
Definition broken_world : FsWorld := world_with "data/audit_logs.json" "[1,2" false.
Definition readonly_world : FsWorld := world_with "data/audit_logs.json" "[1,2" true.

End Statements.

(** ** More of the relations model *)

Module RelationsMore.
Import RelationsModel.

(** The query of [getRelationsByValue]:
    [WHERE (source_type = $1 AND source_value = $2)
        OR (target_type = $1 AND target_value = $2)
     ORDER BY last_seen DESC]. *)
Definition select_by_value (ty v : string) (t : list Relation) : list Relation :=
  order_by_last_seen_desc
    (filter (fun r => from_source ty v r || from_target ty v r = true) t).

(** Modelled from the spec: [db.query(sql, params)] of module [../db] for a
    statement that only reads: one round trip, the rows the query selects
    from the table. *)
Definition db_read (q : list Relation -> list Relation) : JS QueryResult :=
  round_trip ;;;
  fun w => let rs := q (table w) in (Ok {| rows := rs; rowCount := length rs |}, w).

(** [getRelationsByValue(type, value)] *)
Definition getRelationsByValue (type value : string) : JS (JsArray Group) :=
  try_catch
    (result <- db_read (select_by_value type value) ;;
     formatRelations (rows result))
    (fun error => throw error).

(** [SET source_value = $1 WHERE source_type = 'username' AND
    source_value = $2] on one row. *)
Definition set_username (newUsername oldUsername : string) (r : Relation) : Relation :=
  if from_source "username" oldUsername r
  then {| source_type := source_type r; source_value := newUsername;
          target_type := target_type r; target_value := target_value r;
          metadata := metadata r; first_seen := first_seen r;
          last_seen := last_seen r; strength := strength r;
          connection_count := connection_count r |}
  else r.

(** The unique index on the composite key (the one [ON CONFLICT] names in
    the upserts) refuses an [UPDATE] that would give a row the key of a row
    the statement leaves alone. *)
Definition username_taken (newUsername oldUsername : string) (t : list Relation) : bool :=
  existsb (fun r =>
    from_source "username" oldUsername r &&
    existsb (fun s => negb (from_source "username" oldUsername s) &&
                      bool_decide (key_of s = key_of (set_username newUsername oldUsername r)))
            t)
    t.

(** Modelled from the spec: [db.query] of module [../db] for the [UPDATE] of
    [updateUserCommands]: one round trip.  The specification makes the
    composite key unique, so the statement fails on a unique-key violation,
    and then it changes nothing.  The [id]s it returns are not part of the
    model. *)
Definition db_update_usernames (newUsername oldUsername : string) : JS QueryResult :=
  fun w =>
    let w' := set_db_calls (S (db_calls w)) w in
    if db_fault w (db_calls w) || username_taken newUsername oldUsername (table w)
    then (Throw (DbError (db_calls w)), w')
    else (Ok {| rows := [];
                rowCount := length (filter (fun r => from_source "username" oldUsername r = true)
                                           (table w)) |},
          set_table (set_username newUsername oldUsername <$> table w) w').

(** [updateUserCommands(oldUsername, newUsername)] *)
Definition updateUserCommands (oldUsername newUsername : string) : JS nat :=
  try_catch
    (_invalidateCache "username" ;;;
     _invalidateCache "user_commands" ;;;
     result <- db_update_usernames newUsername oldUsername ;;
     ret (rowCount result))
    (fun error => throw error).

End RelationsMore.

(** ** More of the log rotation manager *)

Module LogRotationMore.
Import Utf8 Json LogRotationManager.

Section Rotation.
(** [JSON.parse] and [path.join], as for [checkLogFile]. *)
Variable JSON_parse : string -> string + Json.
Variable path_join : string -> string -> string.

(** [resetLogFile(fileName)]; [JSON.stringify([], null, 2)] is the text of
    the empty list. *)
Definition resetLogFile (this : Manager) (fileName : string) : FS unit :=
  let filePath := path_join (dataDir this) fileName in
  fs_writeFile filePath "[]".

(** The first loop of [checkAndRotate]: the managed files that
    [checkLogFile] wants rotated, in the order of [logFiles]. *)
Definition rotation_candidates (this : Manager) : FS (list string) :=
  for_of (logFiles this)
    (fun rotations logFile =>
       needsRotation <- checkLogFile JSON_parse path_join this logFile ;;
       if (needsRotation : bool) then ret (rotations ++ [logFile]) else ret rotations)
    [].
End Rotation.

End LogRotationMore.

(** ** The export status table *)

Module S3Uploads.

(** A property value of a status record: a text, or a time. *)
Inductive Value :=
| VText (s : string)
| VTime (t : Z).

Global Instance Value_eq_dec : EqDecision Value.
Proof. solve_decision. Defined.

(** [this.s3Uploads], a [Map] from archive file name to status record, in
    insertion order, and the clock. *)
Record Tracker := {
  s3Uploads : list (string * gmap string Value);
  s3_ticks : nat;
  s3_clock : nat -> Z
}.

Abbreviation S3 := (M Tracker Empty_set).

(** [map.set(key, value)]: a known key keeps its place. *)
Fixpoint map_set (key : string) (value : gmap string Value)
    (m : list (string * gmap string Value)) : list (string * gmap string Value) :=
  match m with
  | [] => [(key, value)]
  | (k, v) :: m' =>
      if decide (k = key) then (k, value) :: m' else (k, v) :: map_set key value m'
  end.

(** [map.get(key)] *)
Fixpoint map_get (key : string) (m : list (string * gmap string Value))
    : option (gmap string Value) :=
  match m with
  | [] => None
  | (k, v) :: m' => if decide (k = key) then Some v else map_get key m'
  end.

(** [new Date().toISOString()] *)
Definition now_iso : S3 Value := fun w =>
  (Ok (VTime (s3_clock w (s3_ticks w))),
   {| s3Uploads := s3Uploads w; s3_ticks := S (s3_ticks w); s3_clock := s3_clock w |}).

(** [updateS3UploadStatus(archiveFileName, status, details = {})]: the record
    is [{status, ...details, updatedAt}], later properties winning. *)
Definition updateS3UploadStatus (archiveFileName status : string)
    (details : option (gmap string Value)) : S3 unit :=
  let details := default ∅ details in
  updatedAt <- now_iso ;;
  modify (fun w =>
    {| s3Uploads :=
         map_set archiveFileName
                 (<["updatedAt" := updatedAt]> (details ∪ {[ "status" := VText status ]}))
                 (s3Uploads w);
       s3_ticks := s3_ticks w; s3_clock := s3_clock w |}).

(** [getS3UploadStatus(archiveFileName)]: the record, or [null]. *)
Definition getS3UploadStatus (archiveFileName : string) : S3 (option (gmap string Value)) :=
  gets (fun w => map_get archiveFileName (s3Uploads w)).

(** [getAllS3UploadStatuses()]: [{archiveFileName, ...status}] for every
    entry. *)
Definition getAllS3UploadStatuses : S3 (list (gmap string Value)) :=
  gets (fun w =>
    (fun entry => snd entry ∪ {[ "archiveFileName" := VText (fst entry) ]})
      <$> s3Uploads w).

End S3Uploads.

(** ** Vocabulary of the further properties *)

Module MoreStatements.
Import RelationsModel RelationsMore LogRotationManager Statements.

(** A triple for computations that may throw: from a world where [P] holds,
    [m] ends with a value and a world that satisfy [Q], or with an error and
    a world that satisfy [R]. *)
Definition hoare {W E A} (P : W -> Prop) (m : M W E A)
    (Q : A -> W -> Prop) (R : E -> W -> Prop) : Prop :=
  forall w, P w ->
    match m w with
    | (Ok a, w') => Q a w'
    | (Throw e, w') => R e w'
    end.

(** A computation keeps [I] when [I] holds on both exits. *)
Definition keeps {W E A} (I : W -> Prop) (m : M W E A) : Prop :=
  hoare I m (fun _ => I) (fun _ => I).

(** The composite key is unique among the committed rows and among the rows
    of the open transaction. *)
Definition consistent (w : World) : Prop :=
  NoDup (key_of <$> table w) /\
  forall t, txn w = Some t -> NoDup (key_of <$> t).

(** What readers see: the committed table is [T] and the cache is [C]. *)
Definition visible (T : list Relation) (C : gmap string CacheEntry) (w : World) : Prop :=
  table w = T /\ relationsCache w = C.

(** The same, with a transaction open. *)
Definition in_transaction (T : list Relation) (C : gmap string CacheEntry)
    (w : World) : Prop :=
  visible T C w /\ is_Some (txn w).

(** The table after the re-insertions of a loop of [updateFieldValue]: one
    [INSERT ... ON CONFLICT] per row, each with its own clock reading. *)
Fixpoint reinsert_all (ren : Z -> Relation -> Relation) (clock : nat -> Z)
    (tick : nat) (rows : list Relation) (t : list Relation) : list Relation :=
  match rows with
  | [] => t
  | r :: rows' =>
      reinsert_all ren clock (S tick) rows'
        (insert_on_conflict rename_merge (ren (clock tick) r) t).1
  end.

(** The composite key after a rename of [o] to [n] under field type [ft]:
    the value is replaced at each end that carries it. *)
Definition rename_key (ft o n : string) (k : Key) : Key :=
  let '(sty, sval, tty, tval) := k in
  (sty, if decide (sty = ft /\ sval = o) then n else sval,
   tty, if decide (tty = ft /\ tval = o) then n else tval).

(** The two times an upsert binds to its statement, and the clock readings
    taken for them: [metadata.firstSeen || new Date()] and then
    [metadata.timestamp || new Date()]. *)
Definition upsert_times (md : option Metadata) (clock : nat -> Z) (tick : nat)
    : Z * Z * nat :=
  let m := default empty_metadata md in
  match firstSeen m, timestamp m with
  | Some f, Some t => (f, t, tick)
  | Some f, None => (f, clock tick, S tick)
  | None, Some t => (clock tick, t, S tick)
  | None, None => (clock tick, clock (S tick), S (S tick))
  end.

(** The rows that carry a value at both ends. *)
Definition self_edge (ft v : string) (r : Relation) : Prop :=
  from_source ft v r = true /\ from_target ft v r = true.

(** [upsertRelation] called for the elements of a batch one after the other,
    collecting the rows returned. *)
Definition upsert_one_by_one (relations : list RelationInput) : JS (list Relation) :=
  for_of relations
    (fun results relation =>
       row <- upsertRelation (in_sourceType relation) (in_sourceValue relation)
                             (in_targetType relation) (in_targetValue relation)
                             (in_metadata relation) ;;
       ret (results ++ option_list row))
    [].

(** The types named by the elements of a batch. *)
Definition types_of (relations : list RelationInput) : list string :=
  flat_map (fun relation => [in_sourceType relation; in_targetType relation]) relations.

(** Some text of [types] is a prefix of [key]. *)
Definition prefixed_by (types : list string) (key : string) : bool :=
  existsb (fun type => String.prefix type key) types.

(** *** Worlds of the examples *)

(** alice and bob behind a database whose fourth round trip fails, with two
    cached answers. *)
Definition flaky_rename_world : World :=
  {| table := [alice_ls; bob_ls]; txn := None;
     relationsCache := {[ "username_10" := cached 990; "command_100" := cached 995 ]};
     next_ref := 1; ticks := 0; clock := fun n => Z.of_nat n + 1000;
     db_calls := 0; db_fault := fun i => Nat.eqb i 3 |}.

(** alice and bob with a cached answer that is past its time. *)
Definition stale_world : World :=
  {| table := [alice_ls; bob_ls]; txn := None;
     relationsCache := {[ "username_10" := cached (-30000) ]};
     next_ref := 1; ticks := 0; clock := fun n => Z.of_nat n + 1000;
     db_calls := 0; db_fault := fun _ => false |}.

(** An audit log of two entries. *)
Definition sound_world : FsWorld := world_with "data/audit_logs.json" "[1,2]" false.

(** A manager that rotates at two entries. *)
Definition small_manager : Manager :=
  {| dataDir := "data"; logFiles := ["audit_logs.json"; "system_logs.json"];
     maxLogsPerFile := 2 |}.

End MoreStatements.

(** ** Properties of the relations model *)

Module RelationsFacts.
Import RelationsModel Statements.

Ltac js_unfold :=
  repeat (unfold try_catch, try_finally, bind, throw, gets, modify, ret,
            _invalidateCache, _clearAllCaches, db_query, round_trip, or_now,
            statement_time, Date_now,
            set_cache, set_ticks, set_db_calls, set_table, set_txn, set_next_ref;
          cbn).

Ltac js_run :=
  repeat (unfold getRelations, formatRelations, _getCachedData, _cacheData; js_unfold).

Section InsertOnConflict.
Variable merge : Relation -> Relation -> Relation.
Hypothesis merge_key : forall r e, key_of (merge r e) = key_of r.

Lemma insert_on_conflict_fresh e t :
  find_row (key_of e) t = None ->
  find_row (key_of e) (insert_on_conflict merge e t).1 = Some e /\
  (insert_on_conflict merge e t).2 = e.
Proof.
  induction t as [|r t IH]; simpl.
  - intros _. rewrite decide_True by done. done.
  - destruct (decide (key_of r = key_of e)) as [E|NE]; [done|].
    intros H. destruct (IH H) as [IH1 IH2].
    destruct (insert_on_conflict merge e t) as [t' out]. simpl in *.
    rewrite decide_False by done. done.
Qed.

Lemma insert_on_conflict_hit e r t :
  find_row (key_of e) t = Some r ->
  find_row (key_of e) (insert_on_conflict merge e t).1 = Some (merge r e) /\
  (insert_on_conflict merge e t).2 = merge r e.
Proof.
  induction t as [|x t IH]; simpl; [done|].
  destruct (decide (key_of x = key_of e)) as [E|NE].
  - intros [= ->]. simpl. rewrite decide_True; [done|].
    by rewrite merge_key.
  - intros H. destruct (IH H) as [IH1 IH2].
    destruct (insert_on_conflict merge e t) as [t' out]. simpl in *.
    rewrite decide_False by done. done.
Qed.

Lemma insert_on_conflict_other e k t :
  key_of e <> k ->
  find_row k (insert_on_conflict merge e t).1 = find_row k t.
Proof.
  intros NE. induction t as [|x t IH]; simpl.
  - rewrite decide_False by done. done.
  - destruct (decide (key_of x = key_of e)) as [E|NE'].
    + simpl. rewrite merge_key.
      destruct (decide (key_of x = k)) as [E'|]; [congruence|done].
    + destruct (insert_on_conflict merge e t) as [t' out]. simpl in *.
      by rewrite IH.
  Qed.
End InsertOnConflict.

Lemma upsert_merge_key r e : key_of (upsert_merge r e) = key_of r.
Proof. reflexivity. Qed.

Lemma rename_merge_key r e : key_of (rename_merge r e) = key_of r.
Proof. reflexivity. Qed.

Lemma find_row_None K t : K ∉ (key_of <$> t) -> find_row K t = None.
Proof.
  induction t as [|x t IH]; [done|]. rewrite fmap_cons, not_elem_of_cons.
  intros [NE Hnot]. cbn. rewrite decide_False by done. by apply IH.
Qed.

Lemma find_row_elem t s :
  NoDup (key_of <$> t) -> s ∈ t -> find_row (key_of s) t = Some s.
Proof.
  induction t as [|x t IH]; intros Hnd Hin; [by apply elem_of_nil in Hin|].
  rewrite fmap_cons in Hnd. apply NoDup_cons in Hnd as [Hnot Hnd].
  apply elem_of_cons in Hin as [-> | Hin]; cbn.
  - by rewrite decide_True.
  - rewrite decide_False; [by apply IH|].
    intros E. apply Hnot. rewrite E. by apply list_elem_of_fmap_2.
Qed.

Lemma find_row_filter (P : Relation -> Prop) `{!forall r, Decision (P r)} K t :
  NoDup (key_of <$> t) ->
  find_row K (filter P t) =
    match find_row K t with
    | Some s => if decide (P s) then Some s else None
    | None => None
    end.
Proof.
  induction t as [|x t IH]; intros Hnd; [done|].
  rewrite fmap_cons in Hnd. apply NoDup_cons in Hnd as [Hnot Hnd].
  rewrite filter_cons. cbn [find_row].
  destruct (decide (key_of x = K)) as [E|NE].
  - destruct (decide (P x)).
    + cbn. by rewrite decide_True.
    + rewrite IH by done. rewrite find_row_None; [done|by rewrite <- E].
  - destruct (decide (P x)).
    + cbn. rewrite decide_False by done. by apply IH.
    + by apply IH.
Qed.

Lemma key_of_inj_on t x y :
  NoDup (key_of <$> t) -> x ∈ t -> y ∈ t -> key_of x = key_of y -> x = y.
Proof.
  intros Hnd Hx Hy E. pose proof (find_row_elem t x Hnd Hx) as H1.
  rewrite E, (find_row_elem t y Hnd Hy) in H1. congruence.
Qed.



(** *** Upserts *)

Lemma upsert_step sty sval tty tval md w :
  db_fault w (db_calls w) = false ->
  exists first last w',
    upsertRelation sty sval tty tval md w =
      (Ok (Some (insert_on_conflict upsert_merge
                   (proposed (sty, sval, tty, tval) md first last) (table w)).2), w') /\
    table w' = (insert_on_conflict upsert_merge
                   (proposed (sty, sval, tty, tval) md first last) (table w)).1 /\
    observation w w' md last /\
    db_calls w' = S (db_calls w) /\ db_fault w' = db_fault w /\
    clock w' = clock w /\ (ticks w <= ticks w')%nat.
Proof.
  intros Hf. unfold upsertRelation, proposed, observation.
  destruct (default empty_metadata md) as [[f|] [t|] a] eqn:Emd;
    js_unfold; rewrite Hf; cbn;
    match goal with |- context [insert_on_conflict upsert_merge ?e ?t] =>
      destruct (insert_on_conflict upsert_merge e t) as [t' out] eqn:Eioc end.
  all: do 3 eexists; rewrite ?Eioc; cbn; repeat split; try reflexivity; try lia.
  all: cbn; first [ lia | left; reflexivity
             | right; split; [reflexivity|]; eexists; split; [|reflexivity]; cbn; lia ].
Qed.

Lemma reliable_now w : reliable w -> db_fault w (db_calls w) = false.
Proof. intros H. apply H. lia. Qed.

Lemma reliable_later w w' :
  reliable w -> db_fault w' = db_fault w -> (db_calls w <= db_calls w')%nat -> reliable w'.
Proof. intros H E L i Hi. rewrite E. apply H. lia. Qed.

Lemma observation_widen w0 w1 w2 w3 md t :
  clock w1 = clock w0 -> (ticks w0 <= ticks w1)%nat -> (ticks w2 <= ticks w3)%nat ->
  observation w1 w2 md t -> observation w0 w3 md t.
Proof.
  intros Ec L1 L2 [H|[H (i & Hi & ->)]]; [by left|right].
  split; [done|]. exists i. rewrite Ec. split; [lia|done].
Qed.

(** Upserting a key that is present: counters grow by the number of calls and
    [last_seen] becomes the largest of its old value and the observations. *)
Lemma upsert_each_present sty sval tty tval mds : forall w r,
  reliable w -> find_row (sty, sval, tty, tval) (table w) = Some r ->
  exists w' r' ts,
    upsert_each (sty, sval, tty, tval) mds w = (Ok tt, w') /\
    find_row (sty, sval, tty, tval) (table w') = Some r' /\
    strength r' = strength r + Z.of_nat (length mds) /\
    connection_count r' = connection_count r + Z.of_nat (length mds) /\
    Forall2 (observation w w') mds ts /\
    last_seen r' = max_time (last_seen r) ts /\
    clock w' = clock w /\ (ticks w <= ticks w')%nat.
Proof.
  induction mds as [|md mds IH]; intros w r Hrel Hfind.
  - exists w, r, []. cbn. repeat split; try done; try lia.
  - destruct (upsert_step sty sval tty tval md w (reliable_now _ Hrel))
      as (first & last & w1 & Hrun & Htab & Hobs & Hcalls & Hfault & Hclock & Hticks).
    set (e := proposed (sty, sval, tty, tval) md first last) in *.
    destruct (insert_on_conflict_hit upsert_merge upsert_merge_key e r (table w))
      as [Hhit _]; [exact Hfind|].
    rewrite <- Htab in Hhit. change (key_of e) with (sty, sval, tty, tval) in Hhit.
    destruct (IH w1 (upsert_merge r e)) as (w' & r' & ts & Hrest & Hf' & Hs & Hc & Hall & Hl & Hck & Htk).
    { eapply reliable_later; [exact Hrel|done|lia]. }
    { exact Hhit. }
    exists w', r', (last :: ts).
    split.
    { unfold upsert_each in *. cbn [for_of]. unfold bind at 1. unfold bind at 1.
      rewrite Hrun. cbn. exact Hrest. }
    split; [exact Hf'|].
    split. { rewrite Hs. cbn [length upsert_merge strength]. lia. }
    split. { rewrite Hc. cbn [length upsert_merge connection_count]. lia. }
    split.
    { constructor.
      - apply (observation_widen w w w1 w'); [reflexivity|lia|exact Htk|exact Hobs].
      - eapply Forall2_impl; [exact Hall|]. intros md' t' Ho.
        apply (observation_widen w w1 w' w'); [exact Hclock|exact Hticks|lia|exact Ho]. }
    split.
    { rewrite Hl. unfold max_time. cbn [fold_left]. f_equal.
      cbn [upsert_merge last_seen e proposed]. case_decide; lia. }
    split; [congruence|lia].
Qed.

Lemma upsert_each_fresh sty sval tty tval md0 mds w :
  reliable w -> find_row (sty, sval, tty, tval) (table w) = None ->
  exists w' r t0 ts,
    upsert_each (sty, sval, tty, tval) (md0 :: mds) w = (Ok tt, w') /\
    find_row (sty, sval, tty, tval) (table w') = Some r /\
    strength r = Z.of_nat (length (md0 :: mds)) /\
    connection_count r = Z.of_nat (length (md0 :: mds)) /\
    Forall2 (observation w w') (md0 :: mds) (t0 :: ts) /\
    last_seen r = max_time t0 ts.
Proof.
  intros Hrel Hfind.
  destruct (upsert_step sty sval tty tval md0 w (reliable_now _ Hrel))
    as (first & last & w1 & Hrun & Htab & Hobs & Hcalls & Hfault & Hclock & Hticks).
  set (e := proposed (sty, sval, tty, tval) md0 first last) in *.
  destruct (insert_on_conflict_fresh upsert_merge e (table w)) as [Hnew _];
    [exact Hfind|].
  rewrite <- Htab in Hnew. change (key_of e) with (sty, sval, tty, tval) in Hnew.
  destruct (upsert_each_present sty sval tty tval mds w1 e)
    as (w' & r' & ts & Hrest & Hf' & Hs & Hc & Hall & Hl & Hck & Htk).
  { eapply reliable_later; [exact Hrel|done|lia]. }
  { exact Hnew. }
  exists w', r', last, ts.
  split.
  { unfold upsert_each in *. cbn [for_of]. unfold bind at 1. unfold bind at 1.
    rewrite Hrun. cbn. exact Hrest. }
  split; [exact Hf'|].
  split. { rewrite Hs. cbn [length e proposed strength]. lia. }
  split. { rewrite Hc. cbn [length e proposed connection_count]. lia. }
  split; [|exact Hl].
  constructor.
  - apply (observation_widen w w w1 w'); [reflexivity|lia|exact Htk|exact Hobs].
  - eapply Forall2_impl; [exact Hall|]. intros md' t' Ho.
    apply (observation_widen w w1 w' w'); [exact Hclock|exact Hticks|lia|exact Ho].
Qed.

Lemma upsert_last_seen_monotone sty sval tty tval md w r :
  db_fault w (db_calls w) = false ->
  find_row (sty, sval, tty, tval) (table w) = Some r ->
  exists w' r',
    upsertRelation sty sval tty tval md w = (Ok (Some r'), w') /\
    find_row (sty, sval, tty, tval) (table w') = Some r' /\
    last_seen r <= last_seen r'.
Proof.
  intros Hf Hfind.
  destruct (upsert_step sty sval tty tval md w Hf)
    as (first & last & w1 & Hrun & Htab & _).
  set (e := proposed (sty, sval, tty, tval) md first last) in *.
  destruct (insert_on_conflict_hit upsert_merge upsert_merge_key e r (table w))
    as [Hhit Hout]; [exact Hfind|].
  exists w1, (upsert_merge r e). rewrite Hrun, Hout, Htab.
  repeat split; [exact Hhit|].
  cbn. case_decide; lia.
Qed.

(** C1.  Upserting one composite key N times, starting without a row for it
    and with a database that does not fail, leaves a row whose [strength] and
    [connection_count] are both N and whose [last_seen] is the largest of the
    observation times of the calls (the supplied [metadata.timestamp], or the
    clock reading the call takes when none is supplied).  And an upsert of a
    key that has a row never lowers its [last_seen]. *)
Theorem upsert_same_key_counts_and_last_seen sty sval tty tval :
  (forall md0 mds w,
     reliable w -> find_row (sty, sval, tty, tval) (table w) = None ->
     exists w' r t0 ts,
       upsert_each (sty, sval, tty, tval) (md0 :: mds) w = (Ok tt, w') /\
       find_row (sty, sval, tty, tval) (table w') = Some r /\
       strength r = Z.of_nat (length (md0 :: mds)) /\
       connection_count r = Z.of_nat (length (md0 :: mds)) /\
       Forall2 (observation w w') (md0 :: mds) (t0 :: ts) /\
       last_seen r = max_time t0 ts) /\
  (forall md w r,
     db_fault w (db_calls w) = false ->
     find_row (sty, sval, tty, tval) (table w) = Some r ->
     exists w' r',
       upsertRelation sty sval tty tval md w = (Ok (Some r'), w') /\
       find_row (sty, sval, tty, tval) (table w') = Some r' /\
       last_seen r <= last_seen r').
Proof.
  split.
  - intros. by apply upsert_each_fresh.
  - intros. by apply upsert_last_seen_monotone.
Qed.

(** *** The cache *)

Lemma lookup_drop_prefixed_list ty (keys : list string) (c : gmap string CacheEntry) key :
  drop_prefixed ty keys c !! key =
    if String.prefix ty key && bool_decide (key ∈ keys) then None else c !! key.
Proof.
  unfold drop_prefixed. induction keys as [|k keys IH]; cbn.
  - rewrite andb_false_r. done.
  - destruct (String.prefix ty k) eqn:Ek.
    + destruct (decide (k = key)) as [->|NE].
      * rewrite lookup_delete_eq, Ek. cbn.
        rewrite bool_decide_eq_true_2; [done|constructor].
      * rewrite lookup_delete_ne by done. rewrite IH.
        destruct (String.prefix ty key); [|done]. cbn.
        destruct (decide (key ∈ keys)) as [I|NI].
        -- rewrite !bool_decide_eq_true_2; [done| by right|done].
        -- rewrite !bool_decide_eq_false_2; [done| |done].
           intros [E|I]%elem_of_cons; congruence.
    + rewrite IH. destruct (String.prefix ty key) eqn:Ekey; [|done]. cbn.
      destruct (decide (key ∈ keys)) as [I|NI].
      * rewrite !bool_decide_eq_true_2; [done|by right|done].
      * rewrite !bool_decide_eq_false_2; [done| |done].
        intros [E|I]%elem_of_cons; congruence.
Qed.

(** What [_invalidateCache] leaves of the cache. *)
Lemma lookup_invalidated ty (c : gmap string CacheEntry) key :
  drop_prefixed ty (map_to_list c).*1 c !! key =
    if String.prefix ty key then None else c !! key.
Proof.
  rewrite lookup_drop_prefixed_list.
  destruct (String.prefix ty key); [|done]. cbn.
  case_bool_decide as H; [done|].
  destruct (c !! key) as [e|] eqn:E; [|done].
  exfalso. apply H. apply list_elem_of_fmap. exists (key, e).
  split; [done|]. by apply elem_of_map_to_list.
Qed.

Lemma prefix_append ty rest : String.prefix ty (ty +:+ rest) = true.
Proof.
  induction ty as [|a ty IH].
  - by destruct rest.
  - change (String.prefix (String a ty) (String a (ty +:+ rest)) = true).
    unfold String.prefix; fold String.prefix.
    destruct (Ascii.ascii_dec a a); [exact IH|done].
Qed.

Lemma prefix_cache_key ty limit : String.prefix ty (cache_key ty limit) = true.
Proof. apply prefix_append. Qed.

(** C9.  When the statement of [upsertRelation] fails, the error reaches
    the caller, the table and any open transaction are untouched, and the
    cache has lost exactly the entries whose key starts with the source type
    or with the target type: the invalidation precedes the statement and is
    not undone. *)
Theorem upsert_failure_keeps_invalidation sty sval tty tval md w :
  db_fault w (db_calls w) = true ->
  exists e w',
    upsertRelation sty sval tty tval md w = (Throw e, w') /\
    table w' = table w /\ txn w' = txn w /\
    forall key,
      relationsCache w' !! key =
        if String.prefix sty key || String.prefix tty key then None
        else relationsCache w !! key.
Proof.
  intros Hf. unfold upsertRelation.
  destruct (default empty_metadata md) as [[f|] [t|] a];
    js_unfold; rewrite Hf; cbn; do 2 eexists; (split; [reflexivity|]);
    cbn; (split; [reflexivity|]); (split; [reflexivity|]);
    intros key; rewrite !lookup_invalidated;
    destruct (String.prefix sty key), (String.prefix tty key); reflexivity.
Qed.

(** A live cache entry answers [getRelations]; nothing but the clock moves. *)
Lemma getRelations_hit type limit item w :
  relationsCache w !! cache_key type limit = Some item ->
  clock w (ticks w) - ce_timestamp item < RELATIONS_CACHE_TTL ->
  getRelations type (Some limit) w = (Ok (ce_data item), set_ticks (S (ticks w)) w).
Proof.
  intros Hc Ht. js_run. rewrite Hc. cbn. rewrite decide_True by done. reflexivity.
Qed.

(** The value a successful [getRelations] returns is the one the cache holds
    afterwards. *)
Lemma getRelations_cached type limit w a w1 :
  getRelations type (Some limit) w = (Ok a, w1) ->
  exists item, relationsCache w1 !! cache_key type limit = Some item /\ ce_data item = a.
Proof.
  js_run. destruct (relationsCache w !! cache_key type limit) as [item|] eqn:Hc; cbn.
  - case_decide; cbn.
    + intros [= <- <-]. cbn. eauto.
    + destruct (db_fault w (db_calls w)); cbn; [done|].
      intros [= <- <-]. cbn. rewrite lookup_insert_eq. eauto.
  - destruct (db_fault w (db_calls w)); cbn; [done|].
    intros [= <- <-]. cbn. rewrite lookup_insert_eq. eauto.
Qed.

(** Without a cache entry the database is asked and a new array is built. *)
Lemma getRelations_miss type limit w :
  relationsCache w !! cache_key type limit = None ->
  db_fault w (db_calls w) = false ->
  exists w',
    getRelations type (Some limit) w =
      (Ok {| ref := next_ref w;
             elems := groups_of (select_ranked type limit (table w)) |}, w') /\
    db_calls w' = S (db_calls w) /\ table w' = table w /\
    next_ref w' = S (next_ref w).
Proof.
  intros Hc Hf. js_run. rewrite Hc. cbn. rewrite Hf. cbn.
  eexists. split; [reflexivity|]. cbn. done.
Qed.

(** The cache that [upsertRelation] leaves, whatever its outcome. *)
Lemma upsertRelation_cache sty sval tty tval md w key :
  relationsCache (upsertRelation sty sval tty tval md w).2 !! key =
    if String.prefix sty key || String.prefix tty key then None
    else relationsCache w !! key.
Proof.
  unfold upsertRelation.
  destruct (default empty_metadata md) as [[f|] [t|] a];
    js_unfold; destruct (db_fault w (db_calls w)); cbn;
    try match goal with |- context [insert_on_conflict upsert_merge ?e ?t] =>
      destruct (insert_on_conflict upsert_merge e t) as [t' out] end; cbn;
    rewrite !lookup_invalidated;
    destruct (String.prefix sty key), (String.prefix tty key); reflexivity.
Qed.

(** C5 (amended).  The time to live of a cache entry is 30 seconds.  When
    [getRelations(type, limit)] has returned an array, a later call that
    finds the cache entry of its key as that call left it, within the time to
    live of the entry, returns the same array (same identity) and does
    nothing but read the clock: no round trip, no new array.  The entry is
    as the call left it after an [upsertRelation] neither of whose types is
    a prefix of the key (whatever the outcome of its statement); a type that
    is a prefix of the key removes the entry, also when it is another type
    than [type].  And right after an [upsertRelation] with [type] at either
    end (whether its statement succeeded or not) [getRelations(type, limit)]
    asks the database and returns a new array computed from the table as it
    is then. *)
Theorem getRelations_cache_window type limit :
  let cacheKey := cache_key type (default 100 limit) in
  RELATIONS_CACHE_TTL = 30 * 1000 /\
  (forall w0 a w1 w2,
     getRelations type limit w0 = (Ok a, w1) ->
     relationsCache w2 !! cacheKey = relationsCache w1 !! cacheKey ->
     (forall item, relationsCache w1 !! cacheKey = Some item ->
                   clock w2 (ticks w2) - ce_timestamp item < RELATIONS_CACHE_TTL) ->
     getRelations type limit w2 = (Ok a, set_ticks (S (ticks w2)) w2)) /\
  (forall w0 a w1 sty sval tty tval md,
     getRelations type limit w0 = (Ok a, w1) ->
     String.prefix sty cacheKey = false -> String.prefix tty cacheKey = false ->
     let w2 := (upsertRelation sty sval tty tval md w1).2 in
     (forall item, relationsCache w1 !! cacheKey = Some item ->
                   clock w2 (ticks w2) - ce_timestamp item < RELATIONS_CACHE_TTL) ->
     getRelations type limit w2 = (Ok a, set_ticks (S (ticks w2)) w2)) /\
  (forall sty sval tty tval md w0,
     String.prefix sty cacheKey = true \/ String.prefix tty cacheKey = true ->
     relationsCache (upsertRelation sty sval tty tval md w0).2 !! cacheKey = None) /\
  (forall sty sval tty tval md w0,
     sty = type \/ tty = type ->
     let w1 := (upsertRelation sty sval tty tval md w0).2 in
     db_fault w1 (db_calls w1) = false ->
     exists w2,
       getRelations type limit w1 =
         (Ok {| ref := next_ref w1;
                elems := groups_of (select_ranked type (default 100 limit) (table w1)) |},
          w2) /\
       db_calls w2 = S (db_calls w1)).
Proof.
  intros cacheKey. subst cacheKey.
  assert (Hdef : getRelations type limit = getRelations type (Some (default 100 limit)))
    by (by destruct limit).
  rewrite Hdef. generalize (default 100 limit). clear limit Hdef. intros limit.
  assert (Hhit : forall w0 a w1 w2,
     getRelations type (Some limit) w0 = (Ok a, w1) ->
     relationsCache w2 !! cache_key type limit = relationsCache w1 !! cache_key type limit ->
     (forall item, relationsCache w1 !! cache_key type limit = Some item ->
                   clock w2 (ticks w2) - ce_timestamp item < RELATIONS_CACHE_TTL) ->
     getRelations type (Some limit) w2 = (Ok a, set_ticks (S (ticks w2)) w2)).
  { intros w0 a w1 w2 Hfirst Hsame Hlive.
    destruct (getRelations_cached _ _ _ _ _ Hfirst) as (item & Hitem & <-).
    apply getRelations_hit; [congruence|by apply Hlive]. }
  split; [reflexivity|]. split; [exact Hhit|]. split; [|split].
  - intros w0 a w1 sty sval tty tval md Hfirst Hs Ht w2 Hlive.
    apply (Hhit w0 a w1 w2 Hfirst); [|exact Hlive].
    unfold w2. by rewrite upsertRelation_cache, Hs, Ht.
  - intros sty sval tty tval md w0 Hp. rewrite upsertRelation_cache.
    destruct Hp as [-> | ->]; [done|by rewrite orb_true_r].
  - intros sty sval tty tval md w0 Htouch w1 Hf.
    destruct (getRelations_miss type limit w1) as (w2 & Hrun & Hcalls & _); [|done|by eauto].
    unfold w1. rewrite upsertRelation_cache.
    destruct Htouch as [-> | ->]; rewrite prefix_cache_key; [done|by rewrite orb_true_r].
Qed.

(** *** Pruning *)

Lemma length_filter_split {A} (P : A -> Prop) `{!forall x, Decision (P x)} (l : list A) :
  length l = (length (filter P l) + length (filter (fun x => ~ P x) l))%nat.
Proof.
  induction l as [|x l IH]; [done|].
  rewrite !filter_cons. destruct (decide (P x)).
  - rewrite decide_False by tauto. cbn. lia.
  - rewrite decide_True by done. cbn. lia.
Qed.

(** C6.  When its statement succeeds, [deleteOldRelations(days)] keeps
    exactly the rows whose [last_seen] is not before [NOW()] minus [days]
    days, returns the number of rows it removed, and leaves the cache empty,
    whatever the keys it held. *)
Theorem deleteOldRelations_exact days w :
  db_fault w (db_calls w) = false ->
  let now := clock w (ticks w) in
  let maxAgeDays := default 30 days in
  exists w',
    deleteOldRelations days w =
      (Ok (length (filter (fun r => last_seen r < now - DAY_MS * maxAgeDays) (table w))), w') /\
    (forall r, r ∈ table w' <->
               r ∈ table w /\ ~ last_seen r < now - DAY_MS * maxAgeDays) /\
    (length (table w) =
       length (filter (fun r => (last_seen r < now - DAY_MS * maxAgeDays)%Z) (table w))
       + length (table w'))%nat /\
    relationsCache w' = ∅.
Proof.
  intros Hf now maxAgeDays. unfold deleteOldRelations. js_unfold. rewrite Hf. cbn.
  fold now. fold maxAgeDays.
  assert (Hold : forall l : list Relation,
            filter (fun r => older_than now maxAgeDays r = true) l =
            filter (fun r => last_seen r < now - DAY_MS * maxAgeDays) l).
  { intros l. apply list_filter_iff. intros r. unfold older_than.
    by rewrite bool_decide_eq_true. }
  assert (Hnew : forall l : list Relation,
            filter (fun r => older_than now maxAgeDays r = false) l =
            filter (fun r => ~ last_seen r < now - DAY_MS * maxAgeDays) l).
  { intros l. apply list_filter_iff. intros r. unfold older_than.
    by rewrite bool_decide_eq_false. }
  eexists. split; [rewrite Hold; reflexivity|]. cbn. rewrite Hnew.
  split; [|split; [|reflexivity]].
  - intros r. rewrite list_elem_of_filter. tauto.
  - apply length_filter_split.
Qed.

(** *** Statements inside a transaction *)

Lemma same_outside_refl w : same_outside w w.
Proof. by split. Qed.

Lemma same_outside_trans w1 w2 w3 :
  same_outside w1 w2 -> same_outside w2 w3 -> same_outside w1 w3.
Proof. intros [] []. split; congruence. Qed.

Section ClientQuery.
Variables (w : World).


Hypothesis Hok : db_fault w (db_calls w) = false.

Lemma client_query_begin :
  client_query SqlBegin w =
    (Ok no_rows, set_txn (Some (table w)) (set_db_calls (S (db_calls w)) w)).
Proof. unfold client_query. js_unfold. rewrite Hok. reflexivity. Qed.

Lemma client_query_commit t :
  txn w = Some t ->
  client_query SqlCommit w =
    (Ok no_rows, set_txn None (set_table t (set_db_calls (S (db_calls w)) w))).
Proof. intros Ht. unfold client_query. js_unfold. rewrite Hok. cbn. rewrite Ht. reflexivity. Qed.


Lemma client_query_select_source t ft v :
  txn w = Some t ->
  client_query (SqlSelectSource ft v) w =
    (Ok {| rows := filter (fun r => from_source ft v r = true) t;
           rowCount := length (filter (fun r => from_source ft v r = true) t) |},
     set_txn (Some t) (set_db_calls (S (db_calls w)) w)).
Proof. intros Ht. unfold client_query. js_unfold. rewrite Hok. cbn. rewrite Ht. reflexivity. Qed.

Lemma client_query_select_target t ft v :
  txn w = Some t ->
  client_query (SqlSelectTarget ft v) w =
    (Ok {| rows := filter (fun r => from_target ft v r = true) t;
           rowCount := length (filter (fun r => from_target ft v r = true) t) |},
     set_txn (Some t) (set_db_calls (S (db_calls w)) w)).
Proof. intros Ht. unfold client_query. js_unfold. rewrite Hok. cbn. rewrite Ht. reflexivity. Qed.

Lemma client_query_delete_source t ft v :
  txn w = Some t ->
  client_query (SqlDeleteSource ft v) w =
    (Ok {| rows := [];
           rowCount := length (filter (fun r => from_source ft v r = true) t) |},
     set_txn (Some (filter (fun r => from_source ft v r = false) t))
             (set_db_calls (S (db_calls w)) w)).
Proof. intros Ht. unfold client_query. js_unfold. rewrite Hok. cbn. rewrite Ht. reflexivity. Qed.

Lemma client_query_delete_target t ft v :
  txn w = Some t ->
  client_query (SqlDeleteTarget ft v) w =
    (Ok {| rows := [];
           rowCount := length (filter (fun r => from_target ft v r = true) t) |},
     set_txn (Some (filter (fun r => from_target ft v r = false) t))
             (set_db_calls (S (db_calls w)) w)).
Proof. intros Ht. unfold client_query. js_unfold. rewrite Hok. cbn. rewrite Ht. reflexivity. Qed.

Lemma reinsert_source_run t newValue r :
  txn w = Some t ->
  reinsert_source newValue tt r w =
    (Ok tt,
     set_txn (Some (insert_on_conflict rename_merge
                      (renamed_source newValue (clock w (ticks w)) r) t).1)
             (set_db_calls (S (db_calls w)) (set_ticks (S (ticks w)) w))).
Proof.
  intros Ht. unfold reinsert_source, client_query, renamed_source. js_unfold.
  rewrite Hok. cbn. rewrite Ht.
  match goal with |- context [insert_on_conflict rename_merge ?e ?t] =>
    destruct (insert_on_conflict rename_merge e t) as [t' out] end.
  reflexivity.
Qed.

Lemma reinsert_target_run t newValue r :
  txn w = Some t ->
  reinsert_target newValue tt r w =
    (Ok tt,
     set_txn (Some (insert_on_conflict rename_merge
                      (renamed_target newValue (clock w (ticks w)) r) t).1)
             (set_db_calls (S (db_calls w)) (set_ticks (S (ticks w)) w))).
Proof.
  intros Ht. unfold reinsert_target, client_query, renamed_target. js_unfold.
  rewrite Hok. cbn. rewrite Ht.
  match goal with |- context [insert_on_conflict rename_merge ?e ?t] =>
    destruct (insert_on_conflict rename_merge e t) as [t' out] end.
  reflexivity.
Qed.
End ClientQuery.

(** *** Renaming a value *)

(** C7.  With a falsy [oldValue], a falsy [newValue], or equal values,
    [updateFieldValue] returns 0 and the world is the one before the call:
    no round trip, no change to the table or to the cache. *)
Theorem updateFieldValue_noop fieldType oldValue newValue w :
  truthy oldValue = false \/ truthy newValue = false \/ oldValue = newValue ->
  updateFieldValue fieldType oldValue newValue w = (Ok 0%nat, w).
Proof.
  intros H. unfold updateFieldValue, try_catch.
  assert (negb (truthy oldValue) || negb (truthy newValue)
          || strict_eq oldValue newValue = true) as ->; [|reflexivity].
  destruct H as [->|[->| ->]]; cbn.
  - reflexivity.
  - by rewrite orb_true_r.
  - unfold strict_eq. rewrite bool_decide_eq_true_2 by done. by rewrite orb_true_r.
Qed.

Section RenameLoop.
Variable body : unit -> Relation -> JS unit.
Variable ren : Z -> Relation -> Relation.
Hypothesis body_run : forall w t r,
  db_fault w (db_calls w) = false -> txn w = Some t ->
  body tt r w =
    (Ok tt,
     set_txn (Some (insert_on_conflict rename_merge (ren (clock w (ticks w)) r) t).1)
             (set_db_calls (S (db_calls w)) (set_ticks (S (ticks w)) w))).
Hypothesis ren_key : forall now now' r, key_of (ren now r) = key_of (ren now' r).

Lemma rename_loop_run rows : forall w t,
  reliable w -> txn w = Some t ->
  exists w' t',
    for_of rows body tt w = (Ok tt, w') /\ txn w' = Some t' /\
    same_outside w w' /\
    db_calls w' = (db_calls w + length rows)%nat /\
    ticks w' = (ticks w + length rows)%nat /\
    (forall K, K ∉ (key_of ∘ ren 0 <$> rows) -> find_row K t' = find_row K t) /\
    (forall K r s,
       NoDup (key_of ∘ ren 0 <$> rows) -> r ∈ rows -> key_of (ren 0 r) = K ->
       find_row K t = Some s ->
       exists i, (ticks w <= i < ticks w')%nat /\
                 find_row K t' = Some (rename_merge s (ren (clock w i) r))).
Proof.
  induction rows as [|r0 rows IH]; intros w t Hrel Ht.
  - exists w, t. cbn. repeat split; try done; try lia.
    intros K r s _ Hin. by apply elem_of_nil in Hin.
  - pose proof (body_run w t r0 (reliable_now _ Hrel) Ht) as Hstep.
    set (now := clock w (ticks w)) in *.
    set (t1 := (insert_on_conflict rename_merge (ren now r0) t).1) in *.
    set (w1 := set_txn (Some t1) (set_db_calls (S (db_calls w)) (set_ticks (S (ticks w)) w))) in *.
    destruct (IH w1 t1) as (w' & t' & Hrun & Ht' & Hso & Hcalls & Hticks & Hframe & Hhit).
    { eapply reliable_later; [exact Hrel|reflexivity|cbn; lia]. }
    { reflexivity. }
    exists w', t'. split.
    { cbn [for_of]. unfold bind. rewrite Hstep. exact Hrun. }
    split; [exact Ht'|].
    split. { destruct Hso. split; try congruence; done. }
    split. { rewrite Hcalls. cbn. lia. }
    split. { rewrite Hticks. cbn. lia. }
    split.
    + intros K HK. rewrite Hframe.
      * subst t1. apply insert_on_conflict_other; [apply rename_merge_key|].
        intros E. apply HK. rewrite fmap_cons. apply elem_of_cons. left.
        cbn. rewrite <- E. apply ren_key.
      * intros Hin. apply HK. rewrite fmap_cons. apply elem_of_cons. by right.
    + intros K r s Hnd Hin HrK Hs.
      rewrite fmap_cons in Hnd. apply NoDup_cons in Hnd as [Hnotin Hnd].
      apply elem_of_cons in Hin as [-> | Hin].
      * (* the first row lands on K; the others do not *)
        exists (ticks w). split; [rewrite Hticks; cbn; lia|].
        rewrite Hframe.
        -- subst t1. fold now.
           assert (HK : key_of (ren now r0) = K) by (rewrite <- HrK; apply ren_key).
           rewrite <- HK.
           apply (insert_on_conflict_hit rename_merge rename_merge_key).
           by rewrite HK.
        -- rewrite <- HrK. exact Hnotin.
      * destruct (Hhit K r s Hnd Hin HrK) as (i & Hi & Hfound).
        { subst t1. rewrite insert_on_conflict_other; [exact Hs|apply rename_merge_key|].
          intros E. apply Hnotin. cbn.
          replace (key_of (ren 0 r0)) with K by (rewrite <- E; apply ren_key).
          rewrite <- HrK. apply (list_elem_of_fmap_2 (key_of ∘ ren 0)). exact Hin. }
        exists i. split; [cbn in Hi; lia|exact Hfound].
Qed.
End RenameLoop.

Lemma renamed_source_key n now now' r :
  key_of (renamed_source n now r) = key_of (renamed_source n now' r).
Proof. reflexivity. Qed.

Lemma renamed_target_key n now now' r :
  key_of (renamed_target n now r) = key_of (renamed_target n now' r).
Proof. reflexivity. Qed.

Lemma pool_connect_ok w :
  db_fault w (db_calls w) = false ->
  pool_connect w = (Ok tt, set_db_calls (S (db_calls w)) w).
Proof. intros Hf. unfold pool_connect, round_trip. by rewrite Hf. Qed.


Arguments client_query : simpl never.
Arguments pool_connect : simpl never.
Arguments for_of : simpl never.
Arguments reinsert_source : simpl never.
Arguments reinsert_target : simpl never.
Arguments drop_prefixed : simpl never.

(** The successful run of [updateFieldValue], statement by statement. *)
Lemma updateFieldValue_run fieldType o n w :
  o <> "" -> n <> "" -> o <> n -> reliable w ->
  let t0 := table w in
  let src := filter (fun r => from_source fieldType o r = true) t0 in
  let tgt := filter (fun r => from_target fieldType o r = true) t0 in
  let t2 := filter (fun r => from_target fieldType o r = false)
              (filter (fun r => from_source fieldType o r = false) t0) in
  exists w' t3 t4,
    updateFieldValue fieldType (JsString o) (JsString n) w =
      (Ok (length src + length tgt)%nat, w') /\
    table w' = t4 /\ txn w' = None /\ clock w' = clock w /\
    ticks w' = (ticks w + length src + length tgt)%nat /\
    (forall K, K ∉ (key_of ∘ renamed_source n 0 <$> src) -> find_row K t3 = find_row K t2) /\
    (forall K r s,
       NoDup (key_of ∘ renamed_source n 0 <$> src) -> r ∈ src ->
       key_of (renamed_source n 0 r) = K -> find_row K t2 = Some s ->
       exists i, (ticks w <= i < ticks w + length src)%nat /\
         find_row K t3 = Some (rename_merge s (renamed_source n (clock w i) r))) /\
    (forall K, K ∉ (key_of ∘ renamed_target n 0 <$> tgt) -> find_row K t4 = find_row K t3) /\
    (forall K r s,
       NoDup (key_of ∘ renamed_target n 0 <$> tgt) -> r ∈ tgt ->
       key_of (renamed_target n 0 r) = K -> find_row K t3 = Some s ->
       exists i, (ticks w + length src <= i < ticks w + length src + length tgt)%nat /\
         find_row K t4 = Some (rename_merge s (renamed_target n (clock w i) r))).
Proof.
  intros Ho Hn Hon Hrel t0 src tgt t2.
  unfold updateFieldValue.
  assert (negb (truthy (JsString o)) || negb (truthy (JsString n))
          || strict_eq (JsString o) (JsString n) = false) as ->.
  { unfold strict_eq. cbn. rewrite !bool_decide_eq_false_2; [done|congruence|done|done]. }
  cbn [sql_text].
  unfold try_catch, try_finally, bind, _invalidateCache, modify, client_release, ret.
  set (w1 := set_cache _ w).
  rewrite (pool_connect_ok w1) by (apply Hrel; cbn; lia).
  set (w2 := set_db_calls _ w1).
  rewrite (client_query_begin w2) by (apply Hrel; cbn; lia).
  set (w3 := set_txn _ (set_db_calls _ w2)).
  rewrite (client_query_select_source w3) with (t := t0) by (first [apply Hrel; cbn; lia | reflexivity]).
  set (w4 := set_txn _ (set_db_calls _ w3)).
  rewrite (client_query_select_target w4) with (t := t0) by (first [apply Hrel; cbn; lia | reflexivity]).
  set (w5 := set_txn _ (set_db_calls _ w4)).
  rewrite (client_query_delete_source w5) with (t := t0) by (first [apply Hrel; cbn; lia | reflexivity]).
  set (w6 := set_txn _ (set_db_calls _ w5)).
  rewrite (client_query_delete_target w6) with (t := filter (fun r => from_source fieldType o r = false) t0)
    by (first [apply Hrel; cbn; lia | reflexivity]).
  set (w7 := set_txn _ (set_db_calls _ w6)).
  cbn [rows rowCount].
  destruct (rename_loop_run (reinsert_source n) (renamed_source n)) with (rows := src) (w := w7) (t := t2)
    as (w8 & t3 & Hrun8 & Ht8 & Hso8 & Hcalls8 & Hticks8 & Hframe8 & Hhit8).
  { intros. by apply reinsert_source_run. }
  { apply renamed_source_key. }
  { eapply reliable_later; [exact Hrel|reflexivity|cbn; lia]. }
  { reflexivity. }
  fold src. rewrite Hrun8.
  destruct (rename_loop_run (reinsert_target n) (renamed_target n)) with (rows := tgt) (w := w8) (t := t3)
    as (w9 & t4 & Hrun9 & Ht9 & Hso9 & Hcalls9 & Hticks9 & Hframe9 & Hhit9).
  { intros. by apply reinsert_target_run. }
  { apply renamed_target_key. }
  { eapply reliable_later; [exact Hrel|exact (so_fault _ _ Hso8)|rewrite Hcalls8; cbn; lia]. }
  { exact Ht8. }
  fold tgt. rewrite Hrun9.
  rewrite (client_query_commit w9) with (t := t4); [| |exact Ht9].
  2:{ rewrite (so_fault _ _ Hso9), (so_fault _ _ Hso8). apply Hrel.
      rewrite Hcalls9, Hcalls8. cbn. lia. }
  exists (set_txn None (set_table t4 (set_db_calls (S (db_calls w9)) w9))), t3, t4.
  split; [reflexivity|].
  split; [reflexivity|]. split; [reflexivity|].
  split. { cbn. rewrite (so_clock _ _ Hso9), (so_clock _ _ Hso8). reflexivity. }
  split. { cbn. rewrite Hticks9, Hticks8. cbn. lia. }
  split; [exact Hframe8|].
  split.
  { intros K r s Hnd Hin HK Hs. destruct (Hhit8 K r s Hnd Hin HK Hs) as (i & Hi & Hf).
    exists i. split; [rewrite Hticks8 in Hi; cbn in Hi; lia|exact Hf]. }
  split; [exact Hframe9|].
  intros K r s Hnd Hin HK Hs. destruct (Hhit9 K r s Hnd Hin HK Hs) as (i & Hi & Hf).
  exists i. split; [rewrite Hticks9, Hticks8 in Hi; cbn in Hi; lia|].
  rewrite Hf, (so_clock _ _ Hso8). reflexivity.
Qed.

Lemma from_source_true ft v r :
  from_source ft v r = true <-> source_type r = ft /\ source_value r = v.
Proof. unfold from_source. rewrite andb_true_iff, !bool_decide_eq_true. done. Qed.

Lemma from_target_true ft v r :
  from_target ft v r = true <-> target_type r = ft /\ target_value r = v.
Proof. unfold from_target. rewrite andb_true_iff, !bool_decide_eq_true. done. Qed.

Lemma renamed_source_NoDup ft o n t :
  NoDup (key_of <$> t) ->
  NoDup (key_of ∘ renamed_source n 0 <$> filter (fun r => from_source ft o r = true) t).
Proof.
  intros Hnd. apply NoDup_fmap_2_strong.
  - intros x y [Hx Hxt]%list_elem_of_filter [Hy Hyt]%list_elem_of_filter E.
    apply from_source_true in Hx as [Hx1 Hx2]. apply from_source_true in Hy as [Hy1 Hy2].
    apply (key_of_inj_on t); try done.
    unfold key_of in *. cbn in E. congruence.
  - apply NoDup_filter. by apply NoDup_fmap_1 in Hnd.
Qed.

Lemma renamed_target_NoDup ft o n t :
  NoDup (key_of <$> t) ->
  NoDup (key_of ∘ renamed_target n 0 <$> filter (fun r => from_target ft o r = true) t).
Proof.
  intros Hnd. apply NoDup_fmap_2_strong.
  - intros x y [Hx Hxt]%list_elem_of_filter [Hy Hyt]%list_elem_of_filter E.
    apply from_target_true in Hx as [Hx1 Hx2]. apply from_target_true in Hy as [Hy1 Hy2].
    apply (key_of_inj_on t); try done.
    unfold key_of in *. cbn in E. congruence.
  - apply NoDup_filter. by apply NoDup_fmap_1 in Hnd.
Qed.

(** A row that neither deletion matches is still there when the
    re-insertions start. *)
Lemma survivor_found ft o t s :
  NoDup (key_of <$> t) -> s ∈ t ->
  from_source ft o s = false -> from_target ft o s = false ->
  find_row (key_of s)
    (filter (fun r => from_target ft o r = false)
       (filter (fun r => from_source ft o r = false) t)) = Some s.
Proof.
  intros Hnd Hin Hs Ht.
  rewrite find_row_filter.
  - rewrite find_row_filter by done. rewrite find_row_elem by done.
    rewrite decide_True by done. by rewrite decide_True.
  - eapply (sublist_NoDup _ (key_of <$> t)); [exact Hnd|apply fmap_sublist, sublist_filter].
Qed.

Lemma truthy_string v : truthy v = true -> exists s, v = JsString s /\ s <> "".
Proof.
  destruct v as [| |s]; cbn; try done. intros H. exists s. split; [done|].
  intros ->. by rewrite bool_decide_eq_true_2 in H.
Qed.

Lemma length_filter_or_and {A} (P Q : A -> Prop)
    `{!forall x, Decision (P x)} `{!forall x, Decision (Q x)} (l : list A) :
  (length (filter P l) + length (filter Q l) =
   length (filter (fun x => P x \/ Q x) l) + length (filter (fun x => P x /\ Q x) l))%nat.
Proof.
  induction l as [|x l IH]; [done|].
  rewrite !filter_cons.
  destruct (decide (P x)), (decide (Q x));
    repeat (first [rewrite decide_True by tauto | rewrite decide_False by tauto]);
    cbn; lia.
Qed.

(** C3.  For distinct truthy [oldValue] and [newValue], a successful
    [updateFieldValue] returns the number of rows matching the source-side
    filter plus the number matching the target-side filter: the rows matching
    either filter, plus once more the rows matching both.  An edge carrying
    [oldValue] under [fieldType] at both ends counts twice. *)
Theorem updateFieldValue_counts_both_sides fieldType oldValue newValue w :
  truthy oldValue = true -> truthy newValue = true -> oldValue <> newValue ->
  reliable w ->
  let on_source r := from_source fieldType (sql_text oldValue) r = true in
  let on_target r := from_target fieldType (sql_text oldValue) r = true in
  exists total w',
    updateFieldValue fieldType oldValue newValue w = (Ok total, w') /\
    total = (length (filter on_source (table w)) + length (filter on_target (table w)))%nat /\
    total = (length (filter (fun r => on_source r \/ on_target r) (table w))
             + length (filter (fun r => on_source r /\ on_target r) (table w)))%nat.
Proof.
  intros [o [-> Ho]]%truthy_string [n [-> Hn]]%truthy_string Hne Hrel on_source on_target.
  destruct (updateFieldValue_run fieldType o n w) as (w' & t3 & t4 & Hrun & _);
    [done|done|congruence|done|].
  eexists _, w'. split; [exact Hrun|]. split; [reflexivity|].
  apply (length_filter_or_and on_source on_target).
Qed.

Lemma merged_into_source s r n now :
  merged_into s r (rename_merge s (renamed_source n now r)) now.
Proof. by repeat split. Qed.

Lemma merged_into_target s r n now :
  merged_into s r (rename_merge s (renamed_target n now r)) now.
Proof. by repeat split. Qed.

(** C4.  Each re-insertion of [updateFieldValue] that finds a row [s] under
    the key of the renamed copy of [r] merges the two: [strength] the larger
    of the two strengths (not their sum), [connection_count] that of [s] plus
    one, [last_seen] the clock reading of the re-insertion, [metadata] that
    of [r].  And in a successful [updateFieldValue] over a table with unique
    keys that merge is what readers see afterwards: for a source-side row
    [r] whose renamed copy lands on the key of a row [s] that both deletions
    spare, when no target-side re-insertion lands on that key; and likewise
    for a target-side row, when no source-side re-insertion lands on it. *)
Theorem rename_collision_merges fieldType oldValue newValue w :
  truthy oldValue = true -> truthy newValue = true -> oldValue <> newValue ->
  reliable w -> NoDup (key_of <$> table w) ->
  let o := sql_text oldValue in
  let n := sql_text newValue in
  let src := filter (fun r => from_source fieldType o r = true) (table w) in
  let tgt := filter (fun r => from_target fieldType o r = true) (table w) in
  (forall w0 t r s,
     txn w0 = Some t -> db_fault w0 (db_calls w0) = false ->
     (find_row (key_of (renamed_source n 0 r)) t = Some s ->
      exists w1 t1 m,
        reinsert_source n tt r w0 = (Ok tt, w1) /\ txn w1 = Some t1 /\
        find_row (key_of (renamed_source n 0 r)) t1 = Some m /\
        merged_into s r m (clock w0 (ticks w0))) /\
     (find_row (key_of (renamed_target n 0 r)) t = Some s ->
      exists w1 t1 m,
        reinsert_target n tt r w0 = (Ok tt, w1) /\ txn w1 = Some t1 /\
        find_row (key_of (renamed_target n 0 r)) t1 = Some m /\
        merged_into s r m (clock w0 (ticks w0)))) /\
  (forall r s,
     r ∈ src -> s ∈ table w ->
     key_of s = key_of (renamed_source n 0 r) ->
     from_target fieldType o s = false ->
     key_of s ∉ (key_of ∘ renamed_target n 0 <$> tgt) ->
     exists total w' m i,
       updateFieldValue fieldType oldValue newValue w = (Ok total, w') /\
       find_row (key_of s) (table w') = Some m /\
       (ticks w <= i < ticks w')%nat /\
       merged_into s r m (clock w i)) /\
  (forall r s,
     r ∈ tgt -> s ∈ table w ->
     key_of s = key_of (renamed_target n 0 r) ->
     from_source fieldType o s = false ->
     key_of s ∉ (key_of ∘ renamed_source n 0 <$> src) ->
     exists total w' m i,
       updateFieldValue fieldType oldValue newValue w = (Ok total, w') /\
       find_row (key_of s) (table w') = Some m /\
       (ticks w <= i < ticks w')%nat /\
       merged_into s r m (clock w i)).
Proof.
  intros [o [-> Ho]]%truthy_string [n [-> Hn]]%truthy_string Hne Hrel Hnd.
  cbv zeta. cbn [sql_text].
  assert (Hon : o <> n) by congruence.
  destruct (updateFieldValue_run fieldType o n w Ho Hn Hon Hrel)
    as (w' & t3 & t4 & Hrun & Htab & _ & _ & Hticks & Hframe8 & Hhit8 & Hframe9 & Hhit9).
  split; [|split].
  - intros w0 t r s Ht Hf. split; intros Hs.
    + rewrite (reinsert_source_run w0 Hf t n r Ht).
      destruct (insert_on_conflict_hit rename_merge rename_merge_key
                  (renamed_source n (clock w0 (ticks w0)) r) s t Hs) as [Hhit _].
      do 3 eexists. split; [reflexivity|]. split; [reflexivity|].
      split; [exact Hhit|]. apply merged_into_source.
    + rewrite (reinsert_target_run w0 Hf t n r Ht).
      destruct (insert_on_conflict_hit rename_merge rename_merge_key
                  (renamed_target n (clock w0 (ticks w0)) r) s t Hs) as [Hhit _].
      do 3 eexists. split; [reflexivity|]. split; [reflexivity|].
      split; [exact Hhit|]. apply merged_into_target.
  - intros r s Hr Hs HK Hsurv Hother.
    assert (Hsrc : from_source fieldType o s = false).
    { apply not_true_is_false. intros [_ E]%from_source_true.
      apply (f_equal (fun k => k.1.1.2)) in HK. cbn in HK. congruence. }
    pose proof (survivor_found fieldType o (table w) s Hnd Hs Hsrc Hsurv) as Hfound.
    destruct (Hhit8 (key_of s) r s) as (i & Hi & Hm); try done.
    { by apply renamed_source_NoDup. }
    eexists _, w', (rename_merge s (renamed_source n (clock w i) r)), i.
    split; [exact Hrun|]. split.
    { rewrite Htab, Hframe9 by exact Hother. exact Hm. }
    split; [lia|]. apply merged_into_source.
  - intros r s Hr Hs HK Hsurv Hother.
    assert (Htgt : from_target fieldType o s = false).
    { apply not_true_is_false. intros [_ E]%from_target_true.
      apply (f_equal (fun k => k.2)) in HK. cbn in HK. congruence. }
    pose proof (survivor_found fieldType o (table w) s Hnd Hs Hsurv Htgt) as Hfound.
    rewrite <- (Hframe8 _ Hother) in Hfound.
    destruct (Hhit9 (key_of s) r s) as (i & Hi & Hm); try done.
    { by apply renamed_target_NoDup. }
    eexists _, w', (rename_merge s (renamed_target n (clock w i) r)), i.
    split; [exact Hrun|]. split.
    { rewrite Htab. exact Hm. }
    split; [lia|]. apply merged_into_target.
Qed.

(** *** Batches *)

Arguments batch_step : simpl never.

Lemma batch_step_run types results relation w t :
  txn w = Some t -> db_fault w (db_calls w) = false ->
  exists first last w',
    let e := proposed (input_key relation) (in_metadata relation) first last in
    batch_step (types, results) relation w =
      (Ok (set_add (in_targetType relation) (set_add (in_sourceType relation) types),
           results ++ [(insert_on_conflict upsert_merge e t).2]), w') /\
    txn w' = Some (insert_on_conflict upsert_merge e t).1 /\
    same_outside w w' /\ db_calls w' = S (db_calls w).
Proof.
  intros Ht Hf. unfold batch_step, proposed, input_key, client_query.
  destruct (default empty_metadata (in_metadata relation)) as [[f|] [l|] a];
    js_unfold; rewrite Hf; cbn; rewrite Ht;
    match goal with |- context [insert_on_conflict upsert_merge ?e ?t] =>
      destruct (insert_on_conflict upsert_merge e t) as [t' out] eqn:E end;
    cbn; do 3 eexists; rewrite E; cbn; (split; [reflexivity|]); by repeat split.
Qed.

Lemma batch_step_fault acc relation w :
  db_fault w (db_calls w) = true ->
  exists e w',
    batch_step acc relation w = (Throw e, w') /\
    table w' = table w /\ txn w' = txn w /\ relationsCache w' = relationsCache w /\
    db_calls w' = S (db_calls w) /\ db_fault w' = db_fault w.
Proof.
  intros Hf. unfold batch_step, client_query. destruct acc as [types results].
  destruct (default empty_metadata (in_metadata relation)) as [[f|] [l|] a];
    js_unfold; rewrite Hf; cbn; do 2 eexists; by repeat split.
Qed.






(** The loop of a batch when the statement of row [j] is the first to fail. *)
Lemma batch_loop_fault relations : forall j acc w t,
  txn w = Some t -> (j < length relations)%nat ->
  (forall i, (i < j)%nat -> db_fault w (db_calls w + i) = false) ->
  db_fault w (db_calls w + j) = true ->
  exists e w', for_of relations batch_step acc w = (Throw e, w').
Proof.
  induction relations as [|relation relations IH]; intros j acc w t Ht Hj Hok Hbad;
    [cbn in Hj; lia|].
  unfold for_of; fold (@for_of World Error RelationInput (list string * list Relation)).
  unfold bind. destruct j as [|j].
  - rewrite Nat.add_0_r in Hbad.
    destruct (batch_step_fault acc relation w Hbad) as (e & w1 & -> & _). eauto.
  - destruct acc as [types results].
    destruct (batch_step_run types results relation w t Ht)
      as (first & last & w1 & Hrun & Ht1 & Hso & Hcalls).
    { rewrite <- (Nat.add_0_r (db_calls w)). apply Hok. lia. }
    cbv zeta in Hrun. rewrite Hrun.
    eapply (IH j); [exact Ht1|cbn in Hj; lia| |].
    + intros i Hi. rewrite (so_fault _ _ Hso), Hcalls.
      replace (S (db_calls w) + i)%nat with (db_calls w + S i)%nat by lia.
      apply Hok. lia.
    + rewrite (so_fault _ _ Hso), Hcalls.
      replace (S (db_calls w) + j)%nat with (db_calls w + S j)%nat by lia. exact Hbad.
Qed.








(** *** The theorems at work *)

Lemma quiet_world_reliable : reliable quiet_world.
Proof. intros i _. reflexivity. Defined.

Lemma world_of_reliable rows : reliable (world_of rows (fun _ => false)).
Proof. intros i _. reflexivity. Defined.

Lemma upsert_same_key_witness :
  exists w' r t0 ts,
    upsert_each ("username", "alice", "command", "ls")
                [seen_at 7; seen_at 9; seen_at 8] quiet_world = (Ok tt, w') /\
    find_row ("username", "alice", "command", "ls") (table w') = Some r /\
    strength r = 3 /\ connection_count r = 3 /\
    Forall2 (observation quiet_world w') [seen_at 7; seen_at 9; seen_at 8] (t0 :: ts) /\
    last_seen r = max_time t0 ts.
Proof.
  apply (proj1 (upsert_same_key_counts_and_last_seen "username" "alice" "command" "ls")
           (seen_at 7) [seen_at 9; seen_at 8] quiet_world).
  - exact quiet_world_reliable.
  - reflexivity.
Defined.

(** Three upserts observed at 7, 9 and 8: counters at 3, last seen at 9. *)
Example upsert_three_times :
  (fun r => (strength r, connection_count r, last_seen r)) <$>
    find_row ("username", "alice", "command", "ls")
      (table (upsert_each ("username", "alice", "command", "ls")
                [seen_at 7; seen_at 9; seen_at 8] quiet_world).2)
  = Some (3, 3, 9).
Proof. vm_compute. reflexivity. Qed.


Example batch_rolled_back :
  let w' := (batchUpsertRelations (Some two_rows) flaky_world).2 in
  table w' = [edge "ip" "1.2.3.4" "command" "ls" 5 1 1] /\
  txn w' = None /\ db_calls w' = 5%nat.
Proof. vm_compute. repeat split; reflexivity. Qed.

Lemma updateFieldValue_counts_witness :
  exists total w',
    updateFieldValue "username" (JsString "alice") (JsString "bob") self_edge_world
      = (Ok total, w') /\
    total = (length (filter (fun r => from_source "username" "alice" r = true)
                       (table self_edge_world))
             + length (filter (fun r => from_target "username" "alice" r = true)
                         (table self_edge_world)))%nat /\
    total = (length (filter (fun r => from_source "username" "alice" r = true \/
                                      from_target "username" "alice" r = true)
                       (table self_edge_world))
             + length (filter (fun r => from_source "username" "alice" r = true /\
                                        from_target "username" "alice" r = true)
                         (table self_edge_world)))%nat.
Proof.
  apply (updateFieldValue_counts_both_sides "username" (JsString "alice") (JsString "bob")
           self_edge_world).
  - reflexivity.
  - reflexivity.
  - discriminate.
  - apply world_of_reliable.
Defined.

(** One edge from alice to alice, and one from alice to a command: two
    rows, a total of three. *)
Example self_edge_counted_twice :
  (updateFieldValue "username" (JsString "alice") (JsString "bob") self_edge_world).1
  = Ok 3%nat.
Proof. vm_compute. reflexivity. Qed.

Lemma rename_collision_witness :
  exists total w' m i,
    updateFieldValue "username" (JsString "alice") (JsString "bob") rename_world
      = (Ok total, w') /\
    find_row (key_of bob_ls) (table w') = Some m /\
    (ticks rename_world <= i < ticks w')%nat /\
    merged_into bob_ls alice_ls m (clock rename_world i).
Proof.
  apply (proj1 (proj2 (rename_collision_merges "username" (JsString "alice") (JsString "bob")
                  rename_world
                  eq_refl eq_refl ltac:(discriminate) (world_of_reliable _)
                  ltac:(apply (bool_decide_unpack _); vm_compute; reflexivity)))
           alice_ls bob_ls).
  - apply (bool_decide_unpack _). vm_compute. reflexivity.
  - apply (bool_decide_unpack _). vm_compute. reflexivity.
  - reflexivity.
  - reflexivity.
  - apply (bool_decide_unpack _). vm_compute. reflexivity.
Defined.

(** alice (strength 4, count 4) renamed to bob, who has the same edge
    (strength 2, count 7): strength 4, count 8, last seen at the clock. *)
Example rename_collision_row :
  (fun m => (strength m, connection_count m, last_seen m)) <$>
    find_row ("username", "bob", "command", "ls")
      (table (updateFieldValue "username" (JsString "alice") (JsString "bob")
                rename_world).2)
  = Some (4, 8, 1000).
Proof. vm_compute. reflexivity. Qed.

Lemma upsert_failure_witness :
  exists e w',
    upsertRelation "username" "alice" "command" "ls" None down_world = (Throw e, w') /\
    table w' = table down_world /\ txn w' = txn down_world /\
    forall key,
      relationsCache w' !! key =
        if String.prefix "username" key || String.prefix "command" key then None
        else relationsCache down_world !! key.
Proof.
  apply (upsert_failure_keeps_invalidation "username" "alice" "command" "ls" None down_world).
  reflexivity.
Defined.

(** With the database down, the upsert fails and the two cached answers
    under its types are gone; the one under another type stays. *)
Example upsert_failure_cache :
  dom (relationsCache (upsertRelation "username" "alice" "command" "ls" None down_world).2)
  = {[ "ip_10" ]}.
Proof. vm_compute. reflexivity. Qed.

Lemma getRelations_cached_witness :
  getRelations "username" (Some 10) (getRelations "username" (Some 10) quiet_world).2
  = (Ok {| ref := 0; elems := [] |},
     set_ticks 2 (getRelations "username" (Some 10) quiet_world).2).
Proof.
  apply (proj1 (proj2 (getRelations_cache_window "username" (Some 10)))
           quiet_world {| ref := 0; elems := [] |}
           (getRelations "username" (Some 10) quiet_world).2
           (getRelations "username" (Some 10) quiet_world).2).
  - vm_compute. reflexivity.
  - reflexivity.
  - intros item Hitem. vm_compute in Hitem. injection Hitem as <-. vm_compute. reflexivity.
Defined.

(** C5 as the specification words it fails.  An upsert from a [user] to a
    [host] is no write on type [username], yet [user] is a prefix of the
    key [username_10]: within the time to live, the second
    [getRelations("username", 10)] asks the database again and returns
    another array. *)
Lemma getRelations_cache_window_counterexample :
  let w1 := (getRelations "username" (Some 10) quiet_world).2 in
  let w2 := (upsertRelation "user" "x" "host" "y" (seen_at 7) w1).2 in
  (getRelations "username" (Some 10) quiet_world).1 = Ok {| ref := 0; elems := [] |} /\
  ce_timestamp <$> relationsCache w1 !! "username_10" = Some 1000 /\
  "user" <> "username" /\ "host" <> "username" /\
  clock w2 (ticks w2) - 1000 < RELATIONS_CACHE_TTL /\
  (getRelations "username" (Some 10) w2).1 = Ok {| ref := 1; elems := [] |} /\
  db_calls (getRelations "username" (Some 10) w2).2 = S (db_calls w2).
Proof. vm_compute. repeat split; try reflexivity; discriminate. Qed.

Lemma deleteOldRelations_witness :
  exists w',
    deleteOldRelations (Some 30) aged_world =
      (Ok (length (filter (fun r => last_seen r < clock aged_world (ticks aged_world)
                                                  - DAY_MS * 30)
                          (table aged_world))), w') /\
    (forall r, r ∈ table w' <->
               r ∈ table aged_world /\
               ~ last_seen r < clock aged_world (ticks aged_world) - DAY_MS * 30) /\
    (length (table aged_world) =
       length (filter (fun r => (last_seen r < clock aged_world (ticks aged_world)
                                                - DAY_MS * 30)%Z)
                      (table aged_world))
       + length (table w'))%nat /\
    relationsCache w' = ∅.
Proof.
  apply (deleteOldRelations_exact (Some 30) aged_world). reflexivity.
Defined.

(** Of an edge last seen 31 days ago and one last seen 29 days ago, the first
    goes. *)
Example deleteOldRelations_one :
  let r := deleteOldRelations (Some 30) aged_world in
  r.1 = Ok 1%nat /\
  table r.2 = [edge "ip" "1.2.3.4" "command" "whoami" (1000 - 29 * DAY_MS) 1 1].
Proof. vm_compute. split; reflexivity. Qed.

Lemma updateFieldValue_noop_witness :
  updateFieldValue "username" (JsString "alice") (JsString "alice") rename_world
  = (Ok 0%nat, rename_world).
Proof.
  apply (updateFieldValue_noop "username" (JsString "alice") (JsString "alice") rename_world).
  right. right. reflexivity.
Defined.

(** A first [getRelations] builds array 0; a second one, three clock
    readings later, returns array 0 again; after an upsert under the type
    the next one asks the database and builds array 1 with the new edge. *)
Example getRelations_then_upsert :
  let w1 := (getRelations "username" (Some 10) quiet_world).2 in
  let w2 := (upsertRelation "username" "alice" "command" "ls" (seen_at 7) w1).2 in
  (getRelations "username" (Some 10) quiet_world).1 = Ok {| ref := 0; elems := [] |} /\
  (getRelations "username" (Some 10) (set_ticks 4 w1)).1 = Ok {| ref := 0; elems := [] |} /\
  db_calls (getRelations "username" (Some 10) (set_ticks 4 w1)).2 = db_calls w1 /\
  (getRelations "username" (Some 10) w2).1 =
    Ok {| ref := 1;
          elems := [{| grp_source := "alice"; grp_type := "username";
                       grp_related :=
                         [{| rel_target := "ls"; rel_type := "command";
                             rel_strength := 1; rel_connectionCount := 1;
                             rel_firstSeen := 1001; rel_lastSeen := 7;
                             rel_metadata := default empty_metadata (seen_at 7) |}] |}] |}.
Proof. vm_compute. repeat split; reflexivity. Qed.

(** Two edges from one address: one group, the later edge first. *)
Example getRelations_groups :
  let w1 := (upsertRelation "ip" "1.2.3.4" "command" "ls" (seen_at 7) quiet_world).2 in
  let w2 := (upsertRelation "ip" "1.2.3.4" "command" "whoami" (seen_at 9) w1).2 in
  (fun a => (fun g => (grp_source g, rel_target <$> grp_related g)) <$> elems a) <$>
    match (getRelations "ip" (Some 10) w2).1 with Ok a => Some a | Throw _ => None end
  = Some [("1.2.3.4", ["whoami"; "ls"])].
Proof. vm_compute. reflexivity. Qed.

End RelationsFacts.

(** ** Properties of the log rotation manager *)

Module LogRotationFacts.
Import Utf8 Json LogRotationManager Statements.

Ltac fs_unfold :=
  repeat (unfold checkLogFile, try_catch, bind, ret, modify, fs_access, fs_readFile,
            fs_writeFile, logSystemEvent, Date_now, set_files, set_events, set_fs_ticks;
          cbn).

(** C10.  [checkLogFile] always returns and never throws.  For a file that
    does not exist, cannot be tested or cannot be read it returns [false] and
    changes nothing.  It returns [true] only for a file that exists and can
    be read, when its text does not parse, is not a list, or is a list that
    has reached [maxLogsPerFile]. *)
Theorem checkLogFile_never_throws JSON_parse path_join this fileName w :
  let filePath := path_join (dataDir this) fileName in
  exists needsRotation w',
    checkLogFile JSON_parse path_join this fileName w = (Ok needsRotation, w') /\
    (files w !! filePath = None \/ access_fault w filePath = true \/
     read_fault w filePath = true ->
     needsRotation = false /\ w' = w) /\
    (needsRotation = true ->
     exists bytes,
       files w !! filePath = Some bytes /\
       access_fault w filePath = false /\ read_fault w filePath = false /\
       asks_rotation JSON_parse (maxLogsPerFile this) (utf8_text bytes)).
Proof.
  intros filePath. unfold asks_rotation. fs_unfold. fold filePath.
  destruct (files w !! filePath) as [bytes|] eqn:Hfile; cbn.
  2:{ exists false, w. split; [done|]. split; [done|]. done. }
  destruct (access_fault w filePath) eqn:Ha; cbn.
  { exists false, w. by repeat split. }
  rewrite Hfile. cbn.
  destruct (read_fault w filePath) eqn:Hr; cbn.
  { exists false, w. by repeat split. }
  destruct (JSON_parse (utf8_text bytes)) as [message|logs] eqn:Hp; cbn.
  - destruct (write_fault w _) eqn:Hw; cbn.
    + eexists false, _. split; [reflexivity|]. split; [|done].
      intros [?|[?|?]]; done.
    + eexists true, _. split; [reflexivity|]. split.
      * intros [?|[?|?]]; done.
      * intros _. exists bytes. by rewrite Hp.
  - destruct logs as [| | | |items|]; cbn;
      try (eexists true, _; split; [reflexivity|]; split;
           [intros [?|[?|?]]; done | intros _; exists bytes; by rewrite Hp]).
    destruct (decide (maxLogsPerFile this <= Z.of_nat (length items))); cbn.
    + eexists true, _. split; [reflexivity|]. split.
      * intros [?|[?|?]]; done.
      * intros _. exists bytes. by rewrite Hp.
    + eexists false, _. split; [reflexivity|]. split; [|done].
      intros [?|[?|?]]; done.
Qed.

(** C8 (amended).  For a managed log file that exists, can be read, is
    well-formed UTF-8 and does not parse, and whose backup can be written,
    [checkLogFile] writes the bytes of the file to the sibling file
    [<path>.corrupted.<time of the failure>], leaves the other files alone,
    emits one [log_file_corrupted] event naming the file, the backup and the
    parse error, and returns [true]. *)
Theorem checkLogFile_backs_up_corrupted JSON_parse path_join this fileName w bytes message :
  let filePath := path_join (dataDir this) fileName in
  let backupPath := backup_path filePath (fs_clock w (fs_ticks w)) in
  files w !! filePath = Some bytes ->
  access_fault w filePath = false -> read_fault w filePath = false ->
  utf8_text bytes = bytes ->
  JSON_parse (utf8_text bytes) = inl message ->
  write_fault w backupPath = false ->
  exists w',
    checkLogFile JSON_parse path_join this fileName w = (Ok true, w') /\
    files w' = <[backupPath := bytes]> (files w) /\
    events w' = events w ++ [{| ev_name := "log_file_corrupted";
                                ev_file := fileName;
                                ev_backupPath := backupPath;
                                ev_error := message;
                                ev_timestamp := fs_clock w (S (fs_ticks w)) |}].
Proof.
  intros filePath backupPath Hfile Ha Hr Hutf Hp Hw.
  fs_unfold. fold filePath. rewrite Hfile. cbn. rewrite Ha. cbn. rewrite Hfile. cbn.
  rewrite Hr. cbn. rewrite Hp. cbn. fold backupPath. rewrite Hw, Hutf. cbn.
  eexists. split; [reflexivity|]. done.
Qed.

(** *** The theorems at work *)

(** The text of a corrupted file goes to the backup as [readFile] decoded
    it. *)
Lemma checkLogFile_backup_text JSON_parse path_join this fileName w bytes message :
  let filePath := path_join (dataDir this) fileName in
  let backupPath := backup_path filePath (fs_clock w (fs_ticks w)) in
  files w !! filePath = Some bytes ->
  access_fault w filePath = false -> read_fault w filePath = false ->
  JSON_parse (utf8_text bytes) = inl message ->
  write_fault w backupPath = false ->
  exists w',
    checkLogFile JSON_parse path_join this fileName w = (Ok true, w') /\
    files w' = <[backupPath := utf8_text bytes]> (files w) /\
    events w' = events w ++ [{| ev_name := "log_file_corrupted";
                                ev_file := fileName;
                                ev_backupPath := backupPath;
                                ev_error := message;
                                ev_timestamp := fs_clock w (S (fs_ticks w)) |}].
Proof.
  intros filePath backupPath Hfile Ha Hr Hp Hw.
  fs_unfold. fold filePath. rewrite Hfile. cbn. rewrite Ha. cbn. rewrite Hfile. cbn.
  rewrite Hr. cbn. rewrite Hp. cbn. fold backupPath. rewrite Hw. cbn.
  eexists. split; [reflexivity|]. done.
Qed.

(** When the backup cannot be written, the outer [catch] answers: no backup,
    no event, no rotation. *)
Lemma checkLogFile_backup_refused JSON_parse path_join this fileName w bytes message :
  let filePath := path_join (dataDir this) fileName in
  let backupPath := backup_path filePath (fs_clock w (fs_ticks w)) in
  files w !! filePath = Some bytes ->
  access_fault w filePath = false -> read_fault w filePath = false ->
  JSON_parse (utf8_text bytes) = inl message ->
  write_fault w backupPath = true ->
  checkLogFile JSON_parse path_join this fileName w
    = (Ok false, set_fs_ticks (S (fs_ticks w)) w).
Proof.
  intros filePath backupPath Hfile Ha Hr Hp Hw.
  fs_unfold. fold filePath. rewrite Hfile. cbn. rewrite Ha. cbn. rewrite Hfile. cbn.
  rewrite Hr. cbn. rewrite Hp. cbn. fold backupPath. rewrite Hw. reflexivity.
Qed.

(** Text without a byte above 127 is well-formed UTF-8. *)
Lemma utf8_text_ascii (s : string) :
  Forall (fun c => byte_in 0 127 c = true) (list_ascii_of_string s) -> utf8_text s = s.
Proof.
  unfold utf8_text. induction s as [|c s IH]; [done|].
  cbn [list_ascii_of_string]. intros [Hc Hs]%Forall_cons.
  cbn [decode_from]. unfold first_byte. rewrite Hc. cbn. by rewrite IH.
Qed.

Lemma checkLogFile_never_throws_witness :
  exists needsRotation w',
    checkLogFile Json.parse posix_join manager "audit_logs.json" broken_world
      = (Ok needsRotation, w') /\
    (files broken_world !! posix_join (dataDir manager) "audit_logs.json" = None \/
     access_fault broken_world (posix_join (dataDir manager) "audit_logs.json") = true \/
     read_fault broken_world (posix_join (dataDir manager) "audit_logs.json") = true ->
     needsRotation = false /\ w' = broken_world) /\
    (needsRotation = true ->
     exists bytes,
       files broken_world !! posix_join (dataDir manager) "audit_logs.json" = Some bytes /\
       access_fault broken_world (posix_join (dataDir manager) "audit_logs.json") = false /\
       read_fault broken_world (posix_join (dataDir manager) "audit_logs.json") = false /\
       asks_rotation Json.parse (maxLogsPerFile manager) (utf8_text bytes)).
Proof.
  exact (checkLogFile_never_throws Json.parse posix_join manager "audit_logs.json" broken_world).
Defined.

(** A file that is not there: no rotation, nothing thrown. *)
Example checkLogFile_missing :
  checkLogFile Json.parse posix_join manager "system_logs.json" broken_world
  = (Ok false, broken_world).
Proof. vm_compute. reflexivity. Qed.

Lemma checkLogFile_backup_witness :
  exists w',
    checkLogFile Json.parse posix_join manager "audit_logs.json" broken_world
      = (Ok true, w') /\
    files w' = <["data/audit_logs.json.corrupted.1700000000000" := "[1,2"]>
                 (files broken_world) /\
    events w' = events broken_world ++
                [{| ev_name := "log_file_corrupted";
                    ev_file := "audit_logs.json";
                    ev_backupPath := "data/audit_logs.json.corrupted.1700000000000";
                    ev_error := "Unexpected token or end of JSON input";
                    ev_timestamp := 1700000000001 |}].
Proof.
  apply (checkLogFile_backs_up_corrupted Json.parse posix_join manager "audit_logs.json"
           broken_world "[1,2" "Unexpected token or end of JSON input");
    vm_compute; reflexivity.
Defined.

(** C8 as the specification words it fails twice.  A log cut in the
    middle of a character is backed up with U+FFFD in place of the cut
    character, not with its own bytes; and when the backup cannot be
    written, an unparsable log is reported as not needing rotation. *)
Lemma checkLogFile_backup_counterexample :
  (Json.parse (utf8_text truncated) = inl "Unexpected token or end of JSON input" /\
   (checkLogFile Json.parse posix_join manager "audit_logs.json" cut_world).1 = Ok true /\
   files (checkLogFile Json.parse posix_join manager "audit_logs.json" cut_world).2
     !! "data/audit_logs.json.corrupted.1700000000000" = Some ("[" +:+ REPLACEMENT) /\
   "[" +:+ REPLACEMENT <> truncated) /\
  (Json.parse (utf8_text "[1,2") = inl "Unexpected token or end of JSON input" /\
   checkLogFile Json.parse posix_join manager "audit_logs.json" readonly_world
     = (Ok false, set_fs_ticks 1 readonly_world)).
Proof.
  split; [split; [|split; [|split]]|split]; try (vm_compute; reflexivity).
  vm_compute. discriminate.
Qed.

End LogRotationFacts.

(** ** Triples *)

Module Triples.
Import MoreStatements.

Section Rules.
Context {W E : Type}.
Implicit Types P : W -> Prop.
Implicit Types R : E -> W -> Prop.

Lemma hoare_ret {A} (a : A) P (Q : A -> W -> Prop) R :
  (forall w, P w -> Q a w) -> hoare P (ret a) Q R.
Proof. intros H w HP. by apply H. Qed.

Lemma hoare_throw {A} (e : E) P (Q : A -> W -> Prop) R :
  (forall w, P w -> R e w) -> hoare P (throw e) Q R.
Proof. intros H w HP. by apply H. Qed.

Lemma hoare_bind {A B} P (m : M W E A) (k : A -> M W E B)
    (Q1 : A -> W -> Prop) (Q : B -> W -> Prop) R :
  hoare P m Q1 R -> (forall a, hoare (Q1 a) (k a) Q R) ->
  hoare P (bind m k) Q R.
Proof.
  intros Hm Hk w HP. specialize (Hm w HP). unfold bind.
  destruct (m w) as [[a|e] w1]; [by apply Hk|done].
Qed.

Lemma hoare_try_catch {A} P (m : M W E A) (h : E -> M W E A)
    (Q : A -> W -> Prop) R1 R :
  hoare P m Q R1 -> (forall e, hoare (R1 e) (h e) Q R) ->
  hoare P (try_catch m h) Q R.
Proof.
  intros Hm Hh w HP. specialize (Hm w HP). unfold try_catch.
  destruct (m w) as [[a|e] w1]; [done|by apply Hh].
Qed.

(** A [finally] block that cannot throw. *)
Lemma hoare_try_finally {A} P (m : M W E A) (f : M W E unit)
    (Q1 Q : A -> W -> Prop) R1 R :
  hoare P m Q1 R1 ->
  (forall a, hoare (Q1 a) f (fun _ => Q a) R) ->
  (forall e, hoare (R1 e) f (fun _ => R e) R) ->
  hoare P (try_finally m f) Q R.
Proof.
  intros Hm Hok Hthrow w HP. specialize (Hm w HP). unfold try_finally.
  destruct (m w) as [[a|e] w1].
  - specialize (Hok a w1 Hm). by destruct (f w1) as [[[]|e'] w2].
  - specialize (Hthrow e w1 Hm). by destruct (f w1) as [[[]|e'] w2].
Qed.

Lemma hoare_for_of {A S} (I : S -> W -> Prop) (xs : list A)
    (body : S -> A -> M W E S) R :
  (forall s x, x ∈ xs -> hoare (I s) (body s x) I R) ->
  forall s, hoare (I s) (for_of xs body s) I R.
Proof.
  induction xs as [|x xs IH]; intros Hbody s.
  - by apply hoare_ret.
  - cbn [for_of]. eapply hoare_bind.
    + apply Hbody. apply elem_of_cons. by left.
    + intros s'. apply IH. intros s'' y Hy. apply Hbody. apply elem_of_cons. by right.
Qed.

Lemma hoare_consequence {A} P P' (m : M W E A) (Q Q' : A -> W -> Prop) R R' :
  hoare P' m Q' R' ->
  (forall w, P w -> P' w) ->
  (forall a w, Q' a w -> Q a w) ->
  (forall e w, R' e w -> R e w) ->
  hoare P m Q R.
Proof.
  intros Hm HP HQ HR w H. specialize (Hm w (HP w H)).
  destruct (m w) as [[a|e] w1]; auto.
Qed.

Lemma hoare_gets {A} (f : W -> A) (Q : A -> W -> Prop) R :
  hoare (fun w => Q (f w) w) (gets f) Q R.
Proof. intros w H. exact H. Qed.

Lemma hoare_modify (f : W -> W) (Q : unit -> W -> Prop) R :
  hoare (fun w => Q tt (f w)) (modify f) Q R.
Proof. intros w H. exact H. Qed.

(** The rules for a property kept on both exits. *)
Lemma keeps_ret {A} (I : W -> Prop) (a : A) : keeps (E := E) I (ret a).
Proof. intros w H. exact H. Qed.

Lemma keeps_throw {A} (I : W -> Prop) (e : E) : keeps (A := A) I (throw e).
Proof. intros w H. exact H. Qed.

Lemma keeps_bind {A B} (I : W -> Prop) (m : M W E A) (k : A -> M W E B) :
  keeps I m -> (forall a, keeps I (k a)) -> keeps I (bind m k).
Proof. intros Hm Hk. eapply hoare_bind; [exact Hm|exact Hk]. Qed.

Lemma keeps_try_catch {A} (I : W -> Prop) (m : M W E A) (h : E -> M W E A) :
  keeps I m -> (forall e, keeps I (h e)) -> keeps I (try_catch m h).
Proof. intros Hm Hh. eapply hoare_try_catch; [exact Hm|exact Hh]. Qed.

Lemma keeps_try_finally {A} (I : W -> Prop) (m : M W E A) (f : M W E unit) :
  keeps I m -> keeps I f -> keeps I (try_finally m f).
Proof.
  intros Hm Hf w HI. specialize (Hm w HI). unfold try_finally.
  destruct (m w) as [[a|e] w1]; specialize (Hf w1 Hm);
    by destruct (f w1) as [[[]|e'] w2].
Qed.

Lemma keeps_for_of {A S} (I : W -> Prop) (xs : list A) (body : S -> A -> M W E S) :
  (forall s x, keeps I (body s x)) -> forall s, keeps I (for_of xs body s).
Proof.
  intros Hbody. induction xs as [|x xs IH]; intros s.
  - apply keeps_ret.
  - cbn [for_of]. apply keeps_bind; [apply Hbody|exact IH].
Qed.
End Rules.

End Triples.

(** ** Further properties of the relations model *)

Module RelationsMoreFacts.
Import RelationsModel RelationsMore Statements MoreStatements RelationsFacts Triples.

(** *** Unique keys *)

Lemma insert_on_conflict_keys merge e t :
  (forall r x, key_of (merge r x) = key_of r) ->
  key_of <$> (insert_on_conflict merge e t).1 =
    if decide (key_of e ∈ key_of <$> t) then key_of <$> t
    else (key_of <$> t) ++ [key_of e].
Proof.
  intros Hkey. induction t as [|r t IH]; cbn.
  - rewrite decide_False; [done|]. apply not_elem_of_nil.
  - destruct (decide (key_of r = key_of e)) as [E|NE]; cbn.
    + rewrite Hkey, decide_True; [done|]. apply elem_of_cons. by left.
    + destruct (insert_on_conflict merge e t) as [t' out]. cbn in *. rewrite IH.
      destruct (decide (key_of e ∈ key_of <$> t)) as [Hin|Hout].
      * rewrite decide_True; [done|]. apply elem_of_cons. by right.
      * rewrite decide_False; [done|]. rewrite elem_of_cons. intros [?|?]; congruence.
Qed.

Lemma insert_on_conflict_NoDup merge e t :
  (forall r x, key_of (merge r x) = key_of r) ->
  NoDup (key_of <$> t) -> NoDup (key_of <$> (insert_on_conflict merge e t).1).
Proof.
  intros Hkey Hnd. rewrite insert_on_conflict_keys by done.
  destruct (decide _) as [|Hout]; [done|].
  apply NoDup_app. split; [done|]. split; [|apply NoDup_singleton].
  intros k Hk Hk'. apply list_elem_of_singleton in Hk'. by subst.
Qed.

Lemma filter_keys_NoDup (P : Relation -> Prop) `{!forall r, Decision (P r)} t :
  NoDup (key_of <$> t) -> NoDup (key_of <$> filter P t).
Proof.
  intros Hnd. eapply sublist_NoDup; [exact Hnd|].
  apply fmap_sublist, sublist_filter.
Qed.

Lemma run_sql_NoDup s now t :
  NoDup (key_of <$> t) -> NoDup (key_of <$> (run_sql s now t).1).
Proof.
  intros Hnd. destruct s; cbn; try done; try (by apply filter_keys_NoDup).
  - match goal with |- context [insert_on_conflict ?m ?e t] =>
      pose proof (insert_on_conflict_NoDup m e t upsert_merge_key Hnd) as H;
      destruct (insert_on_conflict m e t) end. exact H.
  - match goal with |- context [insert_on_conflict ?m ?e t] =>
      pose proof (insert_on_conflict_NoDup m e t rename_merge_key Hnd) as H;
      destruct (insert_on_conflict m e t) end. exact H.
Qed.

(** What does not touch the rows keeps every property of the rows. *)
Lemma keeps_rows {A} (I : World -> Prop) (m : JS A) :
  (forall w, table (m w).2 = table w /\ txn (m w).2 = txn w) ->
  (forall w w', table w' = table w -> txn w' = txn w -> I w -> I w') ->
  keeps I m.
Proof.
  intros Hm HI w Hw. destruct (Hm w) as [H1 H2].
  destruct (m w) as [[a|e] w1]; cbn in *; by apply (HI w).
Qed.

Lemma consistent_rows w w' :
  table w' = table w -> txn w' = txn w -> consistent w -> consistent w'.
Proof. unfold consistent. intros -> ->. done. Qed.

Lemma keeps_round_trip : keeps consistent round_trip.
Proof.
  apply keeps_rows; [|apply consistent_rows].
  intros w. unfold round_trip. by destruct (db_fault w (db_calls w)).
Qed.

Lemma keeps_Date_now : keeps consistent Date_now.
Proof. apply keeps_rows; [|apply consistent_rows]. done. Qed.

Lemma keeps_or_now v : keeps consistent (or_now v).
Proof. destruct v; [apply keeps_ret|apply keeps_Date_now]. Qed.

Lemma keeps_statement_time s : keeps consistent (statement_time s).
Proof. destruct s; first [apply keeps_ret|apply keeps_Date_now]. Qed.

Lemma keeps_invalidateCache ty : keeps consistent (_invalidateCache ty).
Proof. apply keeps_rows; [|apply consistent_rows]. done. Qed.

Lemma keeps_clearAllCaches : keeps consistent _clearAllCaches.
Proof. apply keeps_rows; [|apply consistent_rows]. done. Qed.

Lemma keeps_formatRelations rows : keeps consistent (formatRelations rows).
Proof. apply keeps_rows; [|apply consistent_rows]. done. Qed.

Lemma keeps_cacheData key data : keeps consistent (_cacheData key data).
Proof. apply keeps_rows; [|apply consistent_rows]. done. Qed.

Lemma keeps_getCachedData key : keeps consistent (_getCachedData key).
Proof.
  apply keeps_rows; [|apply consistent_rows]. intros w.
  unfold _getCachedData. js_unfold. destruct (relationsCache w !! key); [|done].
  cbn. by destruct (decide _).
Qed.

Ltac keeps_seq := apply keeps_bind; [|intros ?].

Lemma keeps_db_query s : keeps consistent (db_query s).
Proof.
  unfold db_query. keeps_seq; [apply keeps_round_trip|].
  keeps_seq; [apply keeps_statement_time|].
  intros w [Hnd Htx]. pose proof (run_sql_NoDup s a0 (table w) Hnd) as H.
  destruct (run_sql s a0 (table w)) as [t' res]. by split.
Qed.

Lemma keeps_client_query s : keeps consistent (client_query s).
Proof.
  assert (Hdata : keeps consistent
    (now <- statement_time s ;;
     fun w => match txn w with
              | Some t => let '(t', res) := run_sql s now t in
                          (Ok res, set_txn (Some t') w)
              | None => let '(t', res) := run_sql s now (table w) in
                        (Ok res, set_table t' w)
              end)).
  { keeps_seq; [apply keeps_statement_time|].
    intros w [Hnd Htx]. destruct (txn w) as [t|] eqn:Et.
    - pose proof (run_sql_NoDup s a (t) (Htx t eq_refl)) as H.
      destruct (run_sql s a t) as [t' res]. split; [done|].
      cbn. intros t2 E. assert (t2 = t') as -> by congruence. exact H.
    - pose proof (run_sql_NoDup s a (table w) Hnd) as H.
      destruct (run_sql s a (table w)) as [t' res]. split; [done|]. cbn.
      by rewrite Et. }
  unfold client_query. keeps_seq; [apply keeps_round_trip|].
  destruct s; try exact Hdata.
  - intros w [Hnd Htx]. split; [done|]. cbn. intros t E.
    assert (t = table w) as -> by congruence. exact Hnd.
  - intros w [Hnd Htx]. cbn. destruct (txn w) as [t|] eqn:Et; cbn.
    + split; [by apply Htx|done].
    + split; [done|]. cbn. by rewrite Et.
  - intros w [Hnd Htx]. by split.
Qed.

Lemma keeps_pool_connect : keeps consistent pool_connect.
Proof. apply keeps_round_trip. Qed.

Lemma keeps_client_release : keeps consistent client_release.
Proof. apply keeps_ret. Qed.

Lemma set_username_keys_NoDup n o t :
  username_taken n o t = false -> NoDup (key_of <$> t) ->
  NoDup (key_of <$> (set_username n o <$> t)).
Proof.
  intros Htaken Hnd. rewrite <- list_fmap_compose.
  apply NoDup_fmap_2_strong; [|by apply NoDup_fmap_1 in Hnd].
  intros x y Hx Hy E. apply (key_of_inj_on t x y Hnd Hx Hy).
  cbn in E. unfold set_username in E.
  destruct (from_source "username" o x) eqn:Fx, (from_source "username" o y) eqn:Fy.
  - apply from_source_true in Fx as [X1 X2]. apply from_source_true in Fy as [Y1 Y2].
    unfold key_of in *. cbn in E. congruence.
  - exfalso. unfold username_taken in Htaken.
    apply not_true_iff_false in Htaken. apply Htaken.
    apply existsb_exists. exists x. split; [by apply list_elem_of_In|].
    rewrite Fx. cbn. apply existsb_exists. exists y.
    split; [by apply list_elem_of_In|]. rewrite Fy. cbn.
    apply bool_decide_eq_true. unfold set_username. by rewrite Fx.
  - exfalso. unfold username_taken in Htaken.
    apply not_true_iff_false in Htaken. apply Htaken.
    apply existsb_exists. exists y. split; [by apply list_elem_of_In|].
    rewrite Fy. cbn. apply existsb_exists. exists x.
    split; [by apply list_elem_of_In|]. rewrite Fx. cbn.
    apply bool_decide_eq_true. unfold set_username. by rewrite Fy.
  - done.
Qed.

Lemma keeps_db_update_usernames n o : keeps consistent (db_update_usernames n o).
Proof.
  intros w [Hnd Htx]. unfold db_update_usernames.
  destruct (db_fault w (db_calls w)); cbn [orb]; [by split|].
  destruct (username_taken n o (table w)) eqn:Ht; [by split|].
  split; [|done]. cbn. by apply set_username_keys_NoDup.
Qed.

Create HintDb keeps.
Local Hint Resolve keeps_round_trip keeps_Date_now keeps_or_now keeps_statement_time
  keeps_invalidateCache keeps_clearAllCaches keeps_formatRelations keeps_cacheData
  keeps_getCachedData keeps_db_query keeps_client_query keeps_pool_connect
  keeps_client_release keeps_db_update_usernames : keeps.

Ltac keeps_step :=
  first
    [ apply keeps_ret
    | apply keeps_throw
    | solve [eauto with keeps]
    | apply keeps_try_catch; [|intros ?]
    | apply keeps_try_finally
    | apply keeps_bind; [|intros ?]
    | apply keeps_for_of; intros ? ? ].

Ltac keeps_all := repeat keeps_step.

Lemma keeps_upsertRelation sty sval tty tval md :
  keeps consistent (upsertRelation sty sval tty tval md).
Proof. unfold upsertRelation. keeps_all. Qed.

Lemma keeps_batch_step acc relation : keeps consistent (batch_step acc relation).
Proof.
  unfold batch_step. destruct acc as [types results]. keeps_all.
  destruct (rows _); keeps_all.
Qed.

Lemma keeps_batchUpsertRelations relations :
  keeps consistent (batchUpsertRelations relations).
Proof.
  pose proof keeps_batch_step.
  unfold batchUpsertRelations. destruct relations as [[|r0 rest]|]; keeps_all.
Qed.

Lemma keeps_reinsert_source n u r : keeps consistent (reinsert_source n u r).
Proof. unfold reinsert_source. keeps_all. Qed.

Lemma keeps_reinsert_target n u r : keeps consistent (reinsert_target n u r).
Proof. unfold reinsert_target. keeps_all. Qed.

Lemma keeps_updateFieldValue ft o n : keeps consistent (updateFieldValue ft o n).
Proof.
  pose proof keeps_reinsert_source. pose proof keeps_reinsert_target.
  unfold updateFieldValue. destruct (_ || _); keeps_all.
Qed.

Lemma keeps_deleteOldRelations days : keeps consistent (deleteOldRelations days).
Proof. unfold deleteOldRelations. keeps_all. Qed.

Lemma keeps_getRelations type limit : keeps consistent (getRelations type limit).
Proof.
  unfold getRelations. keeps_all. destruct a; keeps_all.
Qed.

Lemma keeps_getRelationsByValue type value :
  keeps consistent (getRelationsByValue type value).
Proof.
  unfold getRelationsByValue, db_read. keeps_all.
Qed.

Lemma keeps_updateUserCommands o n : keeps consistent (updateUserCommands o n).
Proof. unfold updateUserCommands. keeps_all. Qed.

Lemma keeps_after {A} (I : World -> Prop) (m : JS A) w :
  keeps I m -> I w -> I (m w).2.
Proof. intros Hm Hw. specialize (Hm w Hw). by destruct (m w) as [[?|?] ?]. Qed.

(** X1.  No operation of the model ever leaves two rows under one composite
    key, whether it returns or throws: from a world where the key is unique
    among the committed rows and among the rows of the open transaction,
    every operation ends in such a world. *)
Theorem operations_keep_keys_unique w :
  consistent w ->
  (forall sty sval tty tval md, consistent (upsertRelation sty sval tty tval md w).2) /\
  (forall relations, consistent (batchUpsertRelations relations w).2) /\
  (forall ft o n, consistent (updateFieldValue ft o n w).2) /\
  (forall o n, consistent (updateUserCommands o n w).2) /\
  (forall days, consistent (deleteOldRelations days w).2) /\
  (forall type limit, consistent (getRelations type limit w).2) /\
  (forall type value, consistent (getRelationsByValue type value w).2).
Proof.
  intros Hw. split_and!; intros; (apply keeps_after; [|exact Hw]).
  - apply keeps_upsertRelation.
  - apply keeps_batchUpsertRelations.
  - apply keeps_updateFieldValue.
  - apply keeps_updateUserCommands.
  - apply keeps_deleteOldRelations.
  - apply keeps_getRelations.
  - apply keeps_getRelationsByValue.
Qed.

(** *** One upsert, exactly *)

Lemma insert_on_conflict_append merge e t :
  find_row (key_of e) t = None -> insert_on_conflict merge e t = (t ++ [e], e).
Proof.
  induction t as [|r t IH]; cbn; [done|].
  destruct (decide (key_of r = key_of e)); [done|]. intros H. by rewrite IH.
Qed.

Lemma insert_on_conflict_length merge e t r :
  find_row (key_of e) t = Some r ->
  length (insert_on_conflict merge e t).1 = length t.
Proof.
  induction t as [|x t IH]; cbn; [done|].
  destruct (decide (key_of x = key_of e)); [done|]. intros H.
  specialize (IH H). destruct (insert_on_conflict merge e t). cbn in *. by rewrite IH.
Qed.

Lemma upsertRelation_run sty sval tty tval md w :
  db_fault w (db_calls w) = false ->
  let '(first, last, tick) := upsert_times md (clock w) (ticks w) in
  let e := proposed (sty, sval, tty, tval) md first last in
  exists w',
    upsertRelation sty sval tty tval md w =
      (Ok (Some (insert_on_conflict upsert_merge e (table w)).2), w') /\
    table w' = (insert_on_conflict upsert_merge e (table w)).1 /\
    ticks w' = tick /\ db_calls w' = S (db_calls w) /\
    txn w' = txn w /\ clock w' = clock w /\ db_fault w' = db_fault w /\
    next_ref w' = next_ref w /\
    relationsCache w' =
      drop_prefixed tty
        (map_to_list (drop_prefixed sty (map_to_list (relationsCache w)).*1
                        (relationsCache w))).*1
        (drop_prefixed sty (map_to_list (relationsCache w)).*1 (relationsCache w)).
Proof.
  intros Hf. unfold upsertRelation, proposed, upsert_times.
  destruct (default empty_metadata md) as [[f|] [t|] a] eqn:Emd;
    js_unfold; rewrite Hf; cbn;
    match goal with |- context [insert_on_conflict upsert_merge ?e ?t] =>
      destruct (insert_on_conflict upsert_merge e t) as [t' out] eqn:Eioc end;
    eexists; (split; [reflexivity|]); cbn; repeat split; reflexivity.
Qed.

(** X2.  An upsert under a key that has no row appends one row and returns
    it: counters at 1, the attribute bag as given (the empty one by default),
    [first_seen] the [firstSeen] of the bag or else a clock reading, and
    [last_seen] the [timestamp] of the bag or else a clock reading of its
    own, taken after the first.  The rows that were there stay as they
    were. *)
Theorem upsertRelation_creates sty sval tty tval md w :
  db_fault w (db_calls w) = false ->
  find_row (sty, sval, tty, tval) (table w) = None ->
  let m := default empty_metadata md in
  exists row w',
    upsertRelation sty sval tty tval md w = (Ok (Some row), w') /\
    table w' = table w ++ [row] /\
    key_of row = (sty, sval, tty, tval) /\
    strength row = 1 /\ connection_count row = 1 /\ metadata row = m /\
    first_seen row = default (clock w (ticks w)) (firstSeen m) /\
    last_seen row =
      default (clock w (match firstSeen m with
                        | Some _ => ticks w
                        | None => S (ticks w)
                        end))
              (timestamp m).
Proof.
  intros Hf Hnone m.
  pose proof (upsertRelation_run sty sval tty tval md w Hf) as Hrun.
  unfold upsert_times in Hrun. fold m in Hrun.
  destruct (firstSeen m) as [f|] eqn:Ef, (timestamp m) as [t|] eqn:Et;
    destruct Hrun as (w' & Hrun & Htab & _);
    rewrite insert_on_conflict_append in Hrun, Htab by exact Hnone;
    eexists _, w'; (split; [exact Hrun|]); (split; [exact Htab|]);
    cbn; repeat split; reflexivity.
Qed.

(** X3.  An upsert under a key that has a row rewrites that row in place and
    returns it: [first_seen] stays (a [firstSeen] in the bag is not looked
    at), the attribute bag is replaced by the one given (by the empty one
    when none is given), both counters go up by one, and [last_seen] is the
    later of the stored time and the observation time.  The number of rows
    and the rows under other keys do not change. *)
Theorem upsertRelation_updates sty sval tty tval md w r :
  db_fault w (db_calls w) = false ->
  find_row (sty, sval, tty, tval) (table w) = Some r ->
  let m := default empty_metadata md in
  exists row w',
    upsertRelation sty sval tty tval md w = (Ok (Some row), w') /\
    find_row (sty, sval, tty, tval) (table w') = Some row /\
    first_seen row = first_seen r /\
    metadata row = m /\
    strength row = strength r + 1 /\
    connection_count row = connection_count r + 1 /\
    last_seen row =
      Z.max (last_seen r)
            (default (clock w (match firstSeen m with
                               | Some _ => ticks w
                               | None => S (ticks w)
                               end))
                     (timestamp m)) /\
    length (table w') = length (table w) /\
    (forall K, K <> (sty, sval, tty, tval) ->
               find_row K (table w') = find_row K (table w)).
Proof.
  intros Hf Hsome m.
  pose proof (upsertRelation_run sty sval tty tval md w Hf) as Hrun.
  unfold upsert_times in Hrun. fold m in Hrun.
  assert (Hmax : forall a b, (if decide (b > a) then b else a) = Z.max a b).
  { intros a b. destruct (decide (b > a)); lia. }
  destruct (firstSeen m) as [f|] eqn:Ef, (timestamp m) as [t|] eqn:Et;
    destruct Hrun as (w' & Hrun & Htab & _);
    match type of Hrun with context [insert_on_conflict upsert_merge ?e _] =>
      destruct (insert_on_conflict_hit upsert_merge upsert_merge_key e r (table w) Hsome)
        as [Hfound Hout];
      pose proof (insert_on_conflict_length upsert_merge e (table w) r Hsome) as Hlen;
      pose proof (fun K => insert_on_conflict_other upsert_merge upsert_merge_key e K (table w))
        as Hother
    end;
    rewrite Hout in Hrun; rewrite <- Htab in Hfound, Hlen, Hother;
    eexists _, w'; (split; [exact Hrun|]); (split; [exact Hfound|]);
    cbn; rewrite Hmax; (repeat split; try reflexivity; try exact Hlen);
    intros K HK; apply Hother; intros E; apply HK; rewrite <- E; reflexivity.
Qed.

(** *** Renaming a value: failure *)

Lemma hoare_round_trip (I : World -> Prop) :
  (forall w n, I w -> I (set_db_calls n w)) ->
  hoare I round_trip (fun _ => I) (fun _ => I).
Proof.
  intros HI w Hw. unfold round_trip.
  destruct (db_fault w (db_calls w)); by apply HI.
Qed.

Lemma visible_db_calls T C w n : visible T C w -> visible T C (set_db_calls n w).
Proof. done. Qed.

Lemma in_transaction_db_calls T C w n :
  in_transaction T C w -> in_transaction T C (set_db_calls n w).
Proof. done. Qed.

Lemma hoare_begin T C :
  hoare (visible T C) (client_query SqlBegin)
        (fun _ => in_transaction T C) (fun _ => visible T C).
Proof.
  intros w [H1 H2]. unfold client_query, round_trip. js_unfold.
  destruct (db_fault w (db_calls w)); cbn; [done|].
  split; [done|]. cbn. eauto.
Qed.

Lemma hoare_rollback T C :
  hoare (visible T C) (client_query SqlRollback)
        (fun _ => visible T C) (fun _ => visible T C).
Proof.
  intros w [H1 H2]. unfold client_query, round_trip. js_unfold.
  by destruct (db_fault w (db_calls w)).
Qed.

Lemma hoare_commit T C :
  hoare (in_transaction T C) (client_query SqlCommit)
        (fun _ _ => True) (fun _ => visible T C).
Proof.
  intros w [[H1 H2] H3]. unfold client_query, round_trip. js_unfold.
  by destruct (db_fault w (db_calls w)).
Qed.

Lemma hoare_statement T C s :
  match s with SqlBegin | SqlCommit | SqlRollback => False | _ => True end ->
  hoare (in_transaction T C) (client_query s)
        (fun _ => in_transaction T C) (fun _ => visible T C).
Proof.
  intros Hs.
  assert (Hdata : hoare (in_transaction T C)
    (now <- statement_time s ;;
     fun w => match txn w with
              | Some t => let '(t', res) := run_sql s now t in
                          (Ok res, set_txn (Some t') w)
              | None => let '(t', res) := run_sql s now (table w) in
                        (Ok res, set_table t' w)
              end)
    (fun _ => in_transaction T C) (fun _ => visible T C)).
  { eapply hoare_bind with (Q1 := fun _ => in_transaction T C).
    - destruct s; intros w H; exact H.
    - intros now w [[H1 H2] [t H3]]. rewrite H3.
      destruct (run_sql s now t) as [t2 res]. split; [done|]. cbn. eauto. }
  unfold client_query.
  eapply hoare_bind with (Q1 := fun _ => in_transaction T C).
  { eapply hoare_consequence;
      [apply (hoare_round_trip (in_transaction T C)), in_transaction_db_calls
      |done|done|by intros ? ? []]. }
  intros ?. destruct s; try done; exact Hdata.
Qed.

Lemma hoare_reinsert_source T C n u r :
  hoare (in_transaction T C) (reinsert_source n u r)
        (fun _ => in_transaction T C) (fun _ => visible T C).
Proof.
  unfold reinsert_source. eapply hoare_bind with (Q1 := fun _ => in_transaction T C).
  { intros w H. exact H. }
  intros now. eapply hoare_bind; [by apply hoare_statement|].
  intros ?. by apply hoare_ret.
Qed.

Lemma hoare_reinsert_target T C n u r :
  hoare (in_transaction T C) (reinsert_target n u r)
        (fun _ => in_transaction T C) (fun _ => visible T C).
Proof.
  unfold reinsert_target. eapply hoare_bind with (Q1 := fun _ => in_transaction T C).
  { intros w H. exact H. }
  intros now. eapply hoare_bind; [by apply hoare_statement|].
  intros ?. by apply hoare_ret.
Qed.

Lemma hoare_updateFieldValue ft o n T C :
  hoare (visible T C) (updateFieldValue ft o n)
        (fun _ _ => True)
        (fun _ => visible T (drop_prefixed ft (map_to_list C).*1 C)).
Proof.
  set (C' := drop_prefixed ft (map_to_list C).*1 C).
  unfold updateFieldValue.
  eapply hoare_try_catch with (R1 := fun _ => visible T C');
    [|intros e; by apply hoare_throw].
  destruct (_ || _); [done|].
  eapply hoare_bind with (Q1 := fun _ => visible T C').
  { intros w [H1 H2]. split; [done|]. cbn. by rewrite H2. }
  intros ?. eapply hoare_bind with (Q1 := fun _ => visible T C').
  { apply hoare_round_trip, visible_db_calls. }
  intros ?.
  eapply hoare_try_finally with (Q1 := fun _ _ => True) (R1 := fun _ => visible T C');
    [|done|intros e w H; exact H].
  eapply hoare_try_catch with (R1 := fun _ => visible T C').
  2:{ intros e. eapply hoare_bind; [apply hoare_rollback|].
      intros ?. by apply hoare_throw. }
  eapply hoare_bind; [apply hoare_begin|]. intros ?.
  eapply hoare_bind; [by apply hoare_statement|]. intros sourceResult.
  eapply hoare_bind; [by apply hoare_statement|]. intros targetResult.
  eapply hoare_bind; [by apply hoare_statement|]. intros ?.
  eapply hoare_bind; [by apply hoare_statement|]. intros ?.
  eapply hoare_bind with (Q1 := fun _ => in_transaction T C').
  { apply (hoare_for_of (fun _ => in_transaction T C')). intros. apply hoare_reinsert_source. }
  intros ?.
  eapply hoare_bind with (Q1 := fun _ => in_transaction T C').
  { apply (hoare_for_of (fun _ => in_transaction T C')). intros. apply hoare_reinsert_target. }
  intros ?.
  eapply hoare_bind; [apply hoare_commit|]. intros ?. done.
Qed.

(** X4.  [updateFieldValue] is all or nothing.  Whenever it throws (at the
    connection, at [BEGIN], at any statement, at [COMMIT], or in the
    [ROLLBACK] of its handler) the committed table is the one from before
    the call; the cache entries under the field type are gone all the same,
    and only those. *)
Theorem updateFieldValue_all_or_nothing fieldType oldValue newValue w e w' :
  updateFieldValue fieldType oldValue newValue w = (Throw e, w') ->
  table w' = table w /\
  forall key,
    relationsCache w' !! key =
      if String.prefix fieldType key then None else relationsCache w !! key.
Proof.
  intros Hrun.
  pose proof (hoare_updateFieldValue fieldType oldValue newValue
                (table w) (relationsCache w) w) as H.
  rewrite Hrun in H. destruct H as [H1 H2]; [done|].
  split; [exact H1|]. intros key. rewrite H2. apply lookup_invalidated.
Qed.

(** *** Renaming a value: the committed table *)

Section RenameExact.
Variable body : unit -> Relation -> JS unit.
Variable ren : Z -> Relation -> Relation.
Hypothesis body_run : forall w t r,
  db_fault w (db_calls w) = false -> txn w = Some t ->
  body tt r w =
    (Ok tt,
     set_txn (Some (insert_on_conflict rename_merge (ren (clock w (ticks w)) r) t).1)
             (set_db_calls (S (db_calls w)) (set_ticks (S (ticks w)) w))).

Lemma rename_loop_exact rows : forall w t,
  reliable w -> txn w = Some t ->
  exists w',
    for_of rows body tt w = (Ok tt, w') /\
    txn w' = Some (reinsert_all ren (clock w) (ticks w) rows t) /\
    same_outside w w' /\
    db_calls w' = (db_calls w + length rows)%nat /\
    ticks w' = (ticks w + length rows)%nat.
Proof.
  induction rows as [|r0 rows IH]; intros w t Hrel Ht.
  - exists w. cbn. repeat split; try done; lia.
  - pose proof (body_run w t r0 (reliable_now _ Hrel) Ht) as Hstep.
    set (t1 := (insert_on_conflict rename_merge (ren (clock w (ticks w)) r0) t).1) in *.
    set (w1 := set_txn (Some t1) (set_db_calls (S (db_calls w)) (set_ticks (S (ticks w)) w))) in *.
    destruct (IH w1 t1) as (w' & Hrun & Ht' & Hso & Hcalls & Hticks).
    { eapply reliable_later; [exact Hrel|reflexivity|cbn; lia]. }
    { reflexivity. }
    exists w'. split.
    { unfold for_of; fold (@for_of World Error Relation unit).
      unfold bind. rewrite Hstep. exact Hrun. }
    split; [exact Ht'|].
    split. { destruct Hso. split; try congruence; done. }
    split; [rewrite Hcalls; cbn; lia|rewrite Hticks; cbn; lia].
Qed.

Hypothesis ren_key : forall now now' r, key_of (ren now r) = key_of (ren now' r).

Lemma reinsert_all_keys rows : forall clock tick t K,
  K ∈ key_of <$> reinsert_all ren clock tick rows t <->
  K ∈ key_of <$> t \/ K ∈ key_of ∘ ren 0 <$> rows.
Proof.
  induction rows as [|r rows IH]; intros clock tick t K; cbn [reinsert_all].
  - rewrite fmap_nil, elem_of_nil. tauto.
  - rewrite IH, insert_on_conflict_keys by apply rename_merge_key.
    rewrite fmap_cons, elem_of_cons. cbn [compose].
    rewrite (ren_key 0 (clock tick) r).
    destruct (decide _) as [Hin|Hout].
    + split; [tauto|]. intros [?|[->|?]]; tauto.
    + rewrite elem_of_app, list_elem_of_singleton. tauto.
Qed.

Lemma reinsert_all_keeps rows : forall clock tick t x,
  x ∈ t -> key_of x ∉ key_of ∘ ren 0 <$> rows ->
  x ∈ reinsert_all ren clock tick rows t.
Proof.
  induction rows as [|r rows IH]; intros clock tick t x Hx Hk; cbn [reinsert_all];
    [done|].
  rewrite fmap_cons, not_elem_of_cons in Hk. destruct Hk as [Hne Hk].
  apply IH; [|exact Hk]. cbn [compose] in Hne.
  rewrite (ren_key 0 (clock tick) r) in Hne. clear -Hx Hne.
  induction t as [|y t IHt]; [by apply elem_of_nil in Hx|]. cbn.
  destruct (decide (key_of y = key_of (ren (clock tick) r))) as [E|NE].
  - cbn. apply elem_of_cons in Hx as [->|Hx]; [congruence|].
    apply elem_of_cons. by right.
  - destruct (insert_on_conflict rename_merge (ren (clock tick) r) t) as [t' out].
    cbn in *. apply elem_of_cons in Hx as [->|Hx]; apply elem_of_cons; [by left|].
    right. by apply IHt.
Qed.
End RenameExact.

(** The successful run of [updateFieldValue]: what it commits. *)
Lemma updateFieldValue_exact fieldType o n w :
  o <> "" -> n <> "" -> o <> n -> reliable w ->
  let src := filter (fun r => from_source fieldType o r = true) (table w) in
  let tgt := filter (fun r => from_target fieldType o r = true) (table w) in
  let t2 := filter (fun r => from_target fieldType o r = false)
              (filter (fun r => from_source fieldType o r = false) (table w)) in
  exists w',
    updateFieldValue fieldType (JsString o) (JsString n) w =
      (Ok (length src + length tgt)%nat, w') /\
    table w' =
      reinsert_all (renamed_target n) (clock w) (ticks w + length src) tgt
        (reinsert_all (renamed_source n) (clock w) (ticks w) src t2) /\
    txn w' = None /\
    relationsCache w' =
      drop_prefixed fieldType (map_to_list (relationsCache w)).*1 (relationsCache w).
Proof.
  intros Ho Hn Hon Hrel src tgt t2.
  unfold updateFieldValue.
  assert (negb (truthy (JsString o)) || negb (truthy (JsString n))
          || strict_eq (JsString o) (JsString n) = false) as ->.
  { unfold strict_eq. cbn. rewrite !bool_decide_eq_false_2; [done|congruence|done|done]. }
  cbn [sql_text].
  unfold try_catch, try_finally, bind, _invalidateCache, modify, client_release, ret.
  set (w1 := set_cache _ w).
  rewrite (pool_connect_ok w1) by (apply Hrel; cbn; lia).
  set (w2 := set_db_calls _ w1).
  rewrite (client_query_begin w2) by (apply Hrel; cbn; lia).
  set (w3 := set_txn _ (set_db_calls _ w2)).
  rewrite (client_query_select_source w3) with (t := table w)
    by (first [apply Hrel; cbn; lia | reflexivity]).
  set (w4 := set_txn _ (set_db_calls _ w3)).
  rewrite (client_query_select_target w4) with (t := table w)
    by (first [apply Hrel; cbn; lia | reflexivity]).
  set (w5 := set_txn _ (set_db_calls _ w4)).
  rewrite (client_query_delete_source w5) with (t := table w)
    by (first [apply Hrel; cbn; lia | reflexivity]).
  set (w6 := set_txn _ (set_db_calls _ w5)).
  rewrite (client_query_delete_target w6)
    with (t := filter (fun r => from_source fieldType o r = false) (table w))
    by (first [apply Hrel; cbn; lia | reflexivity]).
  set (w7 := set_txn _ (set_db_calls _ w6)).
  cbn [rows rowCount].
  destruct (rename_loop_exact (reinsert_source n) (renamed_source n))
    with (rows := src) (w := w7) (t := t2)
    as (w8 & Hrun8 & Ht8 & Hso8 & Hcalls8 & Hticks8).
  { intros. by apply reinsert_source_run. }
  { eapply reliable_later; [exact Hrel|reflexivity|cbn; lia]. }
  { reflexivity. }
  fold src. rewrite Hrun8.
  destruct (rename_loop_exact (reinsert_target n) (renamed_target n))
    with (rows := tgt) (w := w8)
         (t := reinsert_all (renamed_source n) (clock w7) (ticks w7) src t2)
    as (w9 & Hrun9 & Ht9 & Hso9 & Hcalls9 & Hticks9).
  { intros. by apply reinsert_target_run. }
  { eapply reliable_later; [exact Hrel|exact (so_fault _ _ Hso8)|rewrite Hcalls8; cbn; lia]. }
  { exact Ht8. }
  fold tgt. rewrite Hrun9.
  rewrite (client_query_commit w9)
    with (t := reinsert_all (renamed_target n) (clock w8) (ticks w8) tgt
                 (reinsert_all (renamed_source n) (clock w7) (ticks w7) src t2));
    [| |exact Ht9].
  2:{ rewrite (so_fault _ _ Hso9), (so_fault _ _ Hso8). apply Hrel.
      rewrite Hcalls9, Hcalls8. cbn. lia. }
  eexists. split; [reflexivity|]. cbn.
  split. { rewrite (so_clock _ _ Hso8), Hticks8. reflexivity. }
  split; [reflexivity|].
  rewrite (so_cache _ _ Hso9), (so_cache _ _ Hso8). reflexivity.
Qed.

Lemma rename_key_source ft o n r :
  from_source ft o r = true -> from_target ft o r = false ->
  rename_key ft o n (key_of r) = key_of (renamed_source n 0 r).
Proof.
  intros Hs Ht. apply from_source_true in Hs.
  assert (~ (target_type r = ft /\ target_value r = o)) as Hn.
  { intros H. apply from_target_true in H. congruence. }
  unfold rename_key, key_of.
  destruct (decide (source_type r = ft /\ source_value r = o));
    destruct (decide (target_type r = ft /\ target_value r = o)); try tauto; reflexivity.
Qed.

Lemma rename_key_target ft o n r :
  from_source ft o r = false -> from_target ft o r = true ->
  rename_key ft o n (key_of r) = key_of (renamed_target n 0 r).
Proof.
  intros Hs Ht. apply from_target_true in Ht.
  assert (~ (source_type r = ft /\ source_value r = o)) as Hn.
  { intros H. apply from_source_true in H. congruence. }
  unfold rename_key, key_of.
  destruct (decide (source_type r = ft /\ source_value r = o));
    destruct (decide (target_type r = ft /\ target_value r = o)); try tauto; reflexivity.
Qed.

Lemma rename_key_other ft o n r :
  from_source ft o r = false -> from_target ft o r = false ->
  rename_key ft o n (key_of r) = key_of r.
Proof.
  intros Hs Ht.
  assert (~ (source_type r = ft /\ source_value r = o)) as Hn1.
  { intros H. apply from_source_true in H. congruence. }
  assert (~ (target_type r = ft /\ target_value r = o)) as Hn2.
  { intros H. apply from_target_true in H. congruence. }
  unfold rename_key, key_of.
  destruct (decide (source_type r = ft /\ source_value r = o));
    destruct (decide (target_type r = ft /\ target_value r = o)); try tauto; reflexivity.
Qed.

Lemma rename_key_forgets ft o n K r :
  o <> n -> key_of r = rename_key ft o n K ->
  from_source ft o r = false /\ from_target ft o r = false.
Proof.
  intros Hon. destruct K as [[[sty sval] tty] tval]. unfold rename_key, key_of.
  intros [= E1 E2 E3 E4]. split; apply not_true_iff_false; intros H.
  - apply from_source_true in H as [H1 H2]. rewrite E1, E2 in *.
    destruct (decide (sty = ft /\ sval = o)); [congruence|tauto].
  - apply from_target_true in H as [H1 H2]. rewrite E3, E4 in *.
    destruct (decide (tty = ft /\ tval = o)); [congruence|tauto].
Qed.

Lemma elem_of_keys K (t : list Relation) :
  K ∈ key_of <$> t <-> exists r, r ∈ t /\ key_of r = K.
Proof.
  rewrite list_elem_of_fmap. split; intros (r & H1 & H2); exists r; by split.
Qed.

(** X5.  A rename renames everywhere, provided no row carries the old value
    at both ends: after a successful [updateFieldValue] the keys in the
    table are the keys from before with the new value in the place of the
    old one, and no row carries the old value under the field type any
    more, at either end. *)
Theorem updateFieldValue_renames_keys fieldType oldValue newValue w :
  truthy oldValue = true -> truthy newValue = true -> oldValue <> newValue ->
  reliable w ->
  (forall r, r ∈ table w -> ~ self_edge fieldType (sql_text oldValue) r) ->
  exists total w',
    updateFieldValue fieldType oldValue newValue w = (Ok total, w') /\
    (forall K,
       K ∈ key_of <$> table w' <->
       K ∈ rename_key fieldType (sql_text oldValue) (sql_text newValue)
             <$> (key_of <$> table w)) /\
    (forall r, r ∈ table w' ->
       from_source fieldType (sql_text oldValue) r = false /\
       from_target fieldType (sql_text oldValue) r = false).
Proof.
  intros Ho Hn Hon Hrel Hself.
  destruct (truthy_string _ Ho) as (o & -> & Ho').
  destruct (truthy_string _ Hn) as (n & -> & Hn').
  assert (Hon' : o <> n) by congruence. cbn [sql_text] in *.
  destruct (updateFieldValue_exact fieldType o n w Ho' Hn' Hon' Hrel)
    as (w' & Hrun & Htab & _).
  assert (Hkeys : forall K,
    K ∈ key_of <$> table w' <->
    K ∈ rename_key fieldType o n <$> (key_of <$> table w)).
  { intros K. rewrite Htab.
    rewrite (reinsert_all_keys (renamed_target n)) by apply renamed_target_key.
    rewrite (reinsert_all_keys (renamed_source n)) by apply renamed_source_key.
    rewrite <- list_fmap_compose.
    rewrite !list_elem_of_fmap. setoid_rewrite list_elem_of_filter.
    setoid_rewrite list_elem_of_filter. split.
    - intros [[(r & -> & Ht & Hs & Hin)|(r & -> & Hs & Hin)]|(r & -> & Ht & Hin)].
      + exists r. split; [|done]. unfold compose. symmetry.
        by apply rename_key_other.
      + exists r. split; [|done]. unfold compose. symmetry.
        apply rename_key_source; [done|].
        apply not_true_iff_false. intros Ht. by apply (Hself r Hin).
      + exists r. split; [|done]. unfold compose. symmetry.
        apply rename_key_target; [|done].
        apply not_true_iff_false. intros Hs. by apply (Hself r Hin).
    - intros (r & -> & Hin). unfold compose.
      destruct (from_source fieldType o r) eqn:Hs, (from_target fieldType o r) eqn:Ht.
      + by destruct (Hself r Hin).
      + left. right. exists r. split; [by apply rename_key_source|done].
      + right. exists r. split; [by apply rename_key_target|done].
      + left. left. exists r. split; [by apply rename_key_other|done]. }
  eexists _, w'. split; [exact Hrun|]. split; [exact Hkeys|].
  intros r Hr. assert (key_of r ∈ key_of <$> table w') as HK.
  { by apply list_elem_of_fmap_2. }
  apply Hkeys in HK. apply list_elem_of_fmap in HK as (K & HK & _).
  by apply (rename_key_forgets fieldType o n K).
Qed.

(** X6.  A row that carries the old value at both ends is renamed one end at
    a time: after a successful [updateFieldValue] the table holds a row from
    the new value to the old one and a row from the old value to the new
    one, so the old value is still there. *)
Theorem updateFieldValue_self_edge_survives fieldType oldValue newValue w s :
  truthy oldValue = true -> truthy newValue = true -> oldValue <> newValue ->
  reliable w ->
  s ∈ table w -> self_edge fieldType (sql_text oldValue) s ->
  exists total w' a b,
    updateFieldValue fieldType oldValue newValue w = (Ok total, w') /\
    a ∈ table w' /\
    key_of a = (fieldType, sql_text newValue, fieldType, sql_text oldValue) /\
    b ∈ table w' /\
    key_of b = (fieldType, sql_text oldValue, fieldType, sql_text newValue).
Proof.
  intros Ho Hn Hon Hrel Hin [Hs Ht].
  destruct (truthy_string _ Ho) as (o & -> & Ho').
  destruct (truthy_string _ Hn) as (n & -> & Hn').
  assert (Hon' : o <> n) by congruence. cbn [sql_text] in *.
  destruct (updateFieldValue_exact fieldType o n w Ho' Hn' Hon' Hrel)
    as (w' & Hrun & Htab & _).
  assert (Ha : (fieldType, n, fieldType, o) ∈ key_of <$> table w').
  { rewrite Htab.
    rewrite (reinsert_all_keys (renamed_target n)) by apply renamed_target_key.
    rewrite (reinsert_all_keys (renamed_source n)) by apply renamed_source_key.
    left. right. apply list_elem_of_fmap. exists s. split.
    - apply from_source_true in Hs as [<- _]. apply from_target_true in Ht as [E1 E2].
      cbn. unfold key_of. cbn. by rewrite E2, E1.
    - by apply list_elem_of_filter. }
  assert (Hb : (fieldType, o, fieldType, n) ∈ key_of <$> table w').
  { rewrite Htab.
    rewrite (reinsert_all_keys (renamed_target n)) by apply renamed_target_key.
    right. apply list_elem_of_fmap. exists s. split.
    - apply from_source_true in Hs as [E1 E2]. apply from_target_true in Ht as [<- _].
      cbn. unfold key_of. cbn. by rewrite E2, E1.
    - by apply list_elem_of_filter. }
  apply elem_of_keys in Ha as (a & Ha & Ka). apply elem_of_keys in Hb as (b & Hb & Kb).
  by eexists _, w', a, b.
Qed.

(** X7.  A rename leaves the other rows alone: a row that does not carry the
    old value at either end, and on whose key no renamed row lands, is in
    the table after a successful [updateFieldValue] as it was before. *)
Theorem updateFieldValue_keeps_other_rows fieldType oldValue newValue w r :
  truthy oldValue = true -> truthy newValue = true -> oldValue <> newValue ->
  reliable w ->
  r ∈ table w ->
  from_source fieldType (sql_text oldValue) r = false ->
  from_target fieldType (sql_text oldValue) r = false ->
  (forall s, s ∈ table w -> from_source fieldType (sql_text oldValue) s = true ->
             key_of (renamed_source (sql_text newValue) 0 s) <> key_of r) ->
  (forall s, s ∈ table w -> from_target fieldType (sql_text oldValue) s = true ->
             key_of (renamed_target (sql_text newValue) 0 s) <> key_of r) ->
  exists total w',
    updateFieldValue fieldType oldValue newValue w = (Ok total, w') /\ r ∈ table w'.
Proof.
  intros Ho Hn Hon Hrel.
  destruct (truthy_string _ Ho) as (o & -> & Ho').
  destruct (truthy_string _ Hn) as (n & -> & Hn').
  assert (Hon' : o <> n) by congruence. cbn [sql_text] in *.
  intros Hin Hs Ht Hsrc Htgt.
  destruct (updateFieldValue_exact fieldType o n w Ho' Hn' Hon' Hrel)
    as (w' & Hrun & Htab & _).
  eexists _, w'. split; [exact Hrun|]. rewrite Htab.
  apply reinsert_all_keeps; [apply renamed_target_key| |].
  - apply reinsert_all_keeps; [apply renamed_source_key| |].
    + apply list_elem_of_filter. split; [done|]. by apply list_elem_of_filter.
    + intros H. apply list_elem_of_fmap in H as (s & E & Hs').
      apply list_elem_of_filter in Hs' as [Hs1 Hs2]. by apply (Hsrc s Hs2 Hs1).
  - intros H. apply list_elem_of_fmap in H as (s & E & Hs').
    apply list_elem_of_filter in Hs' as [Hs1 Hs2]. by apply (Htgt s Hs2 Hs1).
Qed.

(** *** The cache *)

Lemma prefix_trans a : forall b c,
  String.prefix a b = true -> String.prefix b c = true -> String.prefix a c = true.
Proof.
  induction a as [|x a IH]; intros b c Hab Hbc; [by destruct c|].
  destruct b as [|y b]; [done|]. destruct c as [|z c]; [done|].
  unfold String.prefix in *; fold String.prefix in *.
  destruct (Ascii.ascii_dec x y) as [->|]; [|done].
  destruct (Ascii.ascii_dec y z) as [->|]; [|done].
  destruct (Ascii.ascii_dec z z); [|done]. by apply (IH b c).
Qed.

Lemma prefix_empty s : String.prefix "" s = true.
Proof. by destruct s. Qed.

(** X8.  [_invalidateCache(relationType)] goes by the text of the keys: it
    removes every entry whose key starts with [relationType] and no other,
    and changes nothing else.  So it also removes the answers cached for
    every type that [relationType] is a prefix of, and with the empty text
    it empties the cache.  Doing it twice is doing it once. *)
Theorem invalidateCache_by_prefix relationType w :
  exists w',
    _invalidateCache relationType w = (Ok tt, w') /\
    (forall key,
       relationsCache w' !! key =
         if String.prefix relationType key then None else relationsCache w !! key) /\
    (forall type limit,
       String.prefix relationType type = true ->
       relationsCache w' !! cache_key type limit = None) /\
    (relationType = "" -> relationsCache w' = ∅) /\
    _invalidateCache relationType w' = (Ok tt, w') /\
    table w' = table w /\ txn w' = txn w /\ next_ref w' = next_ref w /\
    ticks w' = ticks w /\ db_calls w' = db_calls w.
Proof.
  eexists. split; [reflexivity|]. cbn.
  split; [intros key; apply lookup_invalidated|].
  split.
  { intros type limit Hp. rewrite lookup_invalidated.
    by rewrite (prefix_trans _ _ _ Hp (prefix_cache_key type limit)). }
  split.
  { intros ->. apply map_eq. intros key.
    by rewrite lookup_invalidated, prefix_empty, lookup_empty. }
  split; [|done].
  unfold _invalidateCache, modify, set_cache. cbn. do 2 f_equal.
  apply map_eq. intros key. rewrite !lookup_invalidated.
  by destruct (String.prefix relationType key).
Qed.

(** X9.  What [_cacheData] stores under a key, [_getCachedData] gives back
    for as long as the entry is there and the clock it reads is less than
    the time to live past the clock reading of the store; from then on it
    gives [null].  Reading never changes the cache: an entry past its time
    stays where it is. *)
Theorem cache_round_trip key data w w2 :
  relationsCache w2 !! key = relationsCache (_cacheData key data w).2 !! key ->
  (_getCachedData key w2).1 =
    Ok (if decide (clock w2 (ticks w2) - clock w (ticks w) < RELATIONS_CACHE_TTL)
        then Some data else None) /\
  relationsCache (_getCachedData key w2).2 = relationsCache w2.
Proof.
  unfold _cacheData, _getCachedData. js_unfold. rewrite lookup_insert_eq.
  intros ->. cbn. by destruct (decide _).
Qed.

(** X10.  [getRelations] does not serve an entry past its time.  With such an
    entry under its key it asks the database; when that works it returns a
    new array and replaces the entry, stamped with a clock reading taken
    after the query; when that fails the error reaches the caller and the
    old entry is still in the cache. *)
Theorem getRelations_refreshes_expired type limit w item :
  relationsCache w !! cache_key type (default 100 limit) = Some item ->
  RELATIONS_CACHE_TTL <= clock w (ticks w) - ce_timestamp item ->
  let fresh := {| ref := next_ref w;
                  elems := groups_of (select_ranked type (default 100 limit) (table w)) |} in
  (db_fault w (db_calls w) = false ->
   exists w',
     getRelations type limit w = (Ok fresh, w') /\
     relationsCache w' =
       <[cache_key type (default 100 limit) :=
           {| ce_data := fresh; ce_timestamp := clock w (S (ticks w)) |}]>
         (relationsCache w) /\
     table w' = table w /\ next_ref w' = S (next_ref w)) /\
  (db_fault w (db_calls w) = true ->
   exists e w',
     getRelations type limit w = (Throw e, w') /\
     relationsCache w' = relationsCache w /\
     table w' = table w /\ next_ref w' = next_ref w).
Proof.
  intros Hc Hold fresh. split; intros Hf; js_run; rewrite Hc; cbn;
    rewrite decide_False by lia; cbn; rewrite Hf; cbn.
  - eexists. split; [reflexivity|]. done.
  - eexists _, _. split; [reflexivity|]. done.
Qed.

(** *** Grouping rows *)

Lemma push_related_sources s ty x m :
  grp_source <$> push_related s ty x m =
    if decide (s ∈ grp_source <$> m) then grp_source <$> m
    else (grp_source <$> m) ++ [s].
Proof.
  induction m as [|g m IH]; cbn.
  - rewrite decide_False; [done|]. apply not_elem_of_nil.
  - destruct (decide (grp_source g = s)) as [E|NE]; cbn.
    + rewrite decide_True; [done|]. apply elem_of_cons. by left.
    + rewrite IH. destruct (decide (s ∈ grp_source <$> m)) as [Hin|Hout].
      * rewrite decide_True; [done|]. apply elem_of_cons. by right.
      * rewrite decide_False; [done|]. rewrite elem_of_cons. intros [?|?]; congruence.
Qed.

Lemma push_related_fresh s ty x m :
  s ∉ grp_source <$> m ->
  push_related s ty x m =
    m ++ [{| grp_source := s; grp_type := ty; grp_related := [x] |}].
Proof.
  induction m as [|g m IH]; [done|]. rewrite fmap_cons, not_elem_of_cons.
  intros [NE Hout]. cbn. rewrite decide_False by done. by rewrite IH.
Qed.

Lemma elem_of_push_related s ty x m g' :
  s ∈ grp_source <$> m -> NoDup (grp_source <$> m) ->
  g' ∈ push_related s ty x m <->
  (g' ∈ m /\ grp_source g' <> s) \/
  (exists g, g ∈ m /\ grp_source g = s /\
             g' = {| grp_source := grp_source g; grp_type := grp_type g;
                     grp_related := grp_related g ++ [x] |}).
Proof.
  induction m as [|g m IH]; intros Hin Hnd; [by apply elem_of_nil in Hin|].
  rewrite fmap_cons in Hin, Hnd. apply NoDup_cons in Hnd as [Hnot Hnd]. cbn.
  destruct (decide (grp_source g = s)) as [E|NE].
  - rewrite !elem_of_cons. setoid_rewrite elem_of_cons. split.
    + intros [->|H]; [right; exists g; by auto|].
      left. split; [by right|]. intros E'. apply Hnot. rewrite E, <- E'.
      by apply list_elem_of_fmap_2.
    + intros [[[->|H] Hne]|(g0 & [->|H] & E0 & ->)]; [done|by right|by left|].
      exfalso. apply Hnot. rewrite E, <- E0. by apply list_elem_of_fmap_2.
  - apply elem_of_cons in Hin as [?|Hin]; [congruence|].
    rewrite elem_of_cons, (IH Hin Hnd). setoid_rewrite elem_of_cons. split.
    + intros [->|[[H1 H2]|(g0 & H1 & H2 & ->)]].
      * left. split; [by left|done].
      * left. split; [by right|done].
      * right. exists g0. split; [by right|done].
    + intros [[[->|H] Hne]|(g0 & [->|H] & E0 & ->)]; [by left|by right; left|done|].
      right. right. by exists g0.
Qed.

Lemma push_related_total s ty x m :
  sum_list (length ∘ grp_related <$> push_related s ty x m) =
  S (sum_list (length ∘ grp_related <$> m)).
Proof.
  induction m as [|g m IH]; [done|]. cbn.
  destruct (decide (grp_source g = s)); cbn.
  - rewrite length_app. cbn. lia.
  - rewrite IH. lia.
Qed.

Lemma push_related_entries s ty x m :
  mjoin (grp_related <$> push_related s ty x m) ≡ₚ mjoin (grp_related <$> m) ++ [x].
Proof.
  induction m as [|g m IH]; [done|]. cbn.
  destruct (decide (grp_source g = s)); cbn.
  - rewrite <- !app_assoc. apply Permutation_app_head, Permutation_app_comm.
  - rewrite IH. by rewrite app_assoc.
Qed.

Lemma groups_of_snoc rows r :
  groups_of (rows ++ [r]) =
  push_related (source_value r) (source_type r) (related_of r) (groups_of rows).
Proof. unfold groups_of. by rewrite fold_left_app. Qed.

Lemma groups_of_total rows :
  sum_list (length ∘ grp_related <$> groups_of rows) = length rows.
Proof.
  induction rows as [|r rows IH] using rev_ind; [done|].
  rewrite groups_of_snoc, push_related_total, IH, length_app. cbn. lia.
Qed.

Lemma groups_of_entries rows :
  mjoin (grp_related <$> groups_of rows) ≡ₚ related_of <$> rows.
Proof.
  induction rows as [|r rows IH] using rev_ind; [done|].
  by rewrite groups_of_snoc, push_related_entries, IH, fmap_app.
Qed.

Lemma groups_of_sources rows :
  NoDup (grp_source <$> groups_of rows) /\
  forall s, s ∈ grp_source <$> groups_of rows <-> s ∈ source_value <$> rows.
Proof.
  induction rows as [|r rows [IH1 IH2]] using rev_ind.
  - split; [constructor|]. intros s. cbn. by rewrite !elem_of_nil.
  - rewrite groups_of_snoc, push_related_sources.
    destruct (decide _) as [Hin|Hout].
    + split; [done|]. intros s. rewrite IH2, fmap_app, elem_of_app.
      cbn. rewrite list_elem_of_singleton. split; [tauto|].
      intros [?| ->]; [done|]. by apply IH2.
    + split.
      * apply NoDup_app. split; [done|]. split; [|apply NoDup_singleton].
        intros s Hs Hs'. apply list_elem_of_singleton in Hs'. by subst.
      * intros s. rewrite elem_of_app, IH2, fmap_app, elem_of_app. done.
Qed.

Lemma filter_none {A} (P : A -> Prop) `{!forall x, Decision (P x)} (l : list A) :
  (forall x, x ∈ l -> ~ P x) -> filter P l = [].
Proof.
  induction l as [|x l IH]; intros Hl; [done|]. rewrite filter_cons.
  rewrite decide_False by (apply Hl, elem_of_cons; by left).
  apply IH. intros y Hy. apply Hl, elem_of_cons. by right.
Qed.

Lemma groups_of_related rows g :
  g ∈ groups_of rows ->
  grp_related g =
    related_of <$> filter (fun r => source_value r = grp_source g) rows /\
  exists r rest,
    filter (fun r => source_value r = grp_source g) rows = r :: rest /\
    grp_type g = source_type r.
Proof.
  revert g. induction rows as [|r rows IH] using rev_ind; intros g.
  { intros H. by apply elem_of_nil in H. }
  destruct (groups_of_sources rows) as [Hnd Hsrc].
  rewrite groups_of_snoc, filter_app, fmap_app, filter_cons, filter_nil.
  destruct (decide (source_value r ∈ grp_source <$> groups_of rows)) as [Hin|Hout].
  - rewrite (elem_of_push_related _ _ _ _ _ Hin Hnd).
    intros [[Hg Hne]|(g0 & Hg & E & ->)].
    + rewrite decide_False by done. rewrite !app_nil_r. by apply IH.
    + cbn. rewrite decide_True by done. destruct (IH g0 Hg) as (-> & r0 & rest & -> & Hty).
      split; [done|]. by exists r0, (rest ++ [r]).
  - rewrite push_related_fresh by done. rewrite elem_of_app, list_elem_of_singleton.
    intros [Hg| ->].
    + rewrite decide_False.
      * rewrite !app_nil_r. by apply IH.
      * intros E. apply Hout. rewrite E. by apply list_elem_of_fmap_2.
    + cbn. rewrite decide_True by done.
      assert (filter (fun r0 => source_value r0 = source_value r) rows = []) as ->.
      { apply filter_none. intros r0 Hr0 E. apply Hout, Hsrc.
        rewrite <- E. by apply list_elem_of_fmap_2. }
      split; [done|]. by exists r, [].
Qed.

(** X11.  [formatRelations] groups the rows by their source value alone.  It
    returns a new array with one group for each source value that occurs;
    the group holds one entry for each row with that source value, in the
    order of the rows, and carries the source type of the first of them
    (rows with the same source value under another type fall into the same
    group).  Every row is in exactly one group. *)
Theorem formatRelations_groups rows w :
  exists arr,
    formatRelations rows w = (Ok arr, set_next_ref (S (next_ref w)) w) /\
    ref arr = next_ref w /\
    NoDup (grp_source <$> elems arr) /\
    (forall s, s ∈ grp_source <$> elems arr <-> s ∈ source_value <$> rows) /\
    (forall g, g ∈ elems arr ->
       grp_related g =
         related_of <$> filter (fun r => source_value r = grp_source g) rows /\
       exists r rest,
         filter (fun r => source_value r = grp_source g) rows = r :: rest /\
         grp_type g = source_type r) /\
    sum_list (length ∘ grp_related <$> elems arr) = length rows.
Proof.
  eexists. split; [reflexivity|]. cbn. split; [done|].
  destruct (groups_of_sources rows) as [H1 H2].
  split; [done|]. split; [done|]. split; [apply groups_of_related|].
  apply groups_of_total.
Qed.

(** *** The ranked query *)

Lemma insert_desc_perm r l : insert_desc r l ≡ₚ r :: l.
Proof.
  induction l as [|x l IH]; [done|]. cbn.
  destruct (decide (last_seen x <= last_seen r)); [done|].
  rewrite IH. apply Permutation_swap.
Qed.

Lemma order_by_last_seen_desc_perm l : order_by_last_seen_desc l ≡ₚ l.
Proof.
  induction l as [|x l IH]; [done|]. unfold order_by_last_seen_desc in *. cbn.
  by rewrite insert_desc_perm, IH.
Qed.

Lemma insert_desc_sorted r l :
  StronglySorted (fun a b => last_seen b <= last_seen a) l ->
  StronglySorted (fun a b => last_seen b <= last_seen a) (insert_desc r l).
Proof.
  induction l as [|x l IH]; intros Hs; cbn.
  - repeat constructor.
  - apply StronglySorted_inv in Hs as [Hs Hx].
    destruct (decide (last_seen x <= last_seen r)).
    + constructor; [by constructor|]. constructor; [done|].
      eapply Forall_impl; [exact Hx|]. cbn. intros y Hy. lia.
    + constructor; [by apply IH|].
      rewrite insert_desc_perm. constructor; [lia|done].
Qed.

Lemma order_by_last_seen_desc_sorted l :
  StronglySorted (fun a b => last_seen b <= last_seen a) (order_by_last_seen_desc l).
Proof.
  induction l as [|x l IH]; [constructor|].
  unfold order_by_last_seen_desc in *. cbn. by apply insert_desc_sorted.
Qed.

Lemma row_numbers_fst ty l : forall seen, fst <$> row_numbers ty seen l = l.
Proof. induction l as [|r l IH]; intros seen; cbn; [done|]. by rewrite IH. Qed.

(** The rows of one partition that the limit keeps. *)
Lemma row_numbers_cap ty limit p l : forall seen,
  Z.of_nat (length (filter (fun r => partition_value ty r = p)
                      (fst <$> filter (fun rn => snd rn <= limit)
                                 (row_numbers ty seen l)))) =
  Z.min (Z.max 0 (limit - Z.of_nat (length (filter (fun q => q = p) seen))))
        (Z.of_nat (length (filter (fun r => partition_value ty r = p) l))).
Proof.
  induction l as [|r l IH]; intros seen; cbn [row_numbers].
  - cbn. lia.
  - rewrite filter_cons. cbn [snd]. rewrite (filter_cons _ r l).
    specialize (IH (partition_value ty r :: seen)). rewrite filter_cons in IH.
    destruct (decide (partition_value ty r = p)) as [E|NE].
    + rewrite E in *. cbn [length] in IH.
      destruct (decide (1 + Z.of_nat (length (filter (fun q => q = p) seen)) <= limit)).
      * rewrite fmap_cons, filter_cons. cbn [fst]. rewrite decide_True by done.
        cbn [length]. lia.
      * cbn [length]. lia.
    + destruct (decide (_ <= limit)).
      * rewrite fmap_cons, filter_cons. cbn [fst]. rewrite decide_False by done. lia.
      * lia.
Qed.

(** The number a row gets counts the rows of its partition before it. *)
Lemma row_numbers_split ty l1 x l2 : forall seen,
  row_numbers ty seen (l1 ++ x :: l2) =
  row_numbers ty seen l1 ++
  (x, 1 + Z.of_nat (length (filter (fun q => q = partition_value ty x)
                              (rev (partition_value ty <$> l1) ++ seen))))
  :: row_numbers ty (partition_value ty x :: rev (partition_value ty <$> l1) ++ seen) l2.
Proof.
  induction l1 as [|r l1 IH]; intros seen; cbn; [done|].
  rewrite IH. by rewrite <- !app_assoc.
Qed.

Lemma row_numbers_elem ty x k l : forall seen,
  (x, k) ∈ row_numbers ty seen l ->
  exists l1 l2,
    l = l1 ++ x :: l2 /\
    k = 1 + Z.of_nat (length (filter (fun q => q = partition_value ty x)
                                (rev (partition_value ty <$> l1) ++ seen))).
Proof.
  induction l as [|r l IH]; intros seen Hx; [by apply elem_of_nil in Hx|].
  cbn in Hx. apply elem_of_cons in Hx as [E|Hx].
  - injection E as -> ->. exists [], l. split; reflexivity.
  - destruct (IH _ Hx) as (l1 & l2 & -> & ->). exists (r :: l1), l2.
    split; [done|]. cbn. by rewrite <- app_assoc.
Qed.

Lemma sorted_suffix {A} (R : A -> A -> Prop) (l1 l2 : list A) :
  StronglySorted R (l1 ++ l2) -> StronglySorted R l2.
Proof.
  induction l1 as [|x l1 IH]; [done|]. cbn. intros Hs.
  apply StronglySorted_inv in Hs as [Hs _]. by apply IH.
Qed.

Lemma length_filter_prefix {A} (P : A -> Prop) `{!forall x, Decision (P x)} (l1 l2 : list A) :
  (length (filter P l1) <= length (filter P (l1 ++ l2)))%nat.
Proof. rewrite filter_app, length_app. lia. Qed.

(** X12.  The query of [getRelations] returns rows of the table that carry
    the type at one end, latest [last_seen] first; of the rows of one
    partition value (the source value when the source has the type, else the
    target value) it returns as many as there are, up to the limit, and it
    drops a row only when it returns none of that partition that was seen
    strictly earlier. *)
Theorem select_ranked_most_recent ty limit t :
  (forall r, r ∈ select_ranked ty limit t -> r ∈ t /\ touches ty r = true) /\
  StronglySorted (fun a b => last_seen b <= last_seen a) (select_ranked ty limit t) /\
  (forall p,
     Z.of_nat (length (filter (fun r => partition_value ty r = p)
                         (select_ranked ty limit t))) =
     Z.min (Z.max 0 limit)
           (Z.of_nat (length (filter (fun r => partition_value ty r = p)
                                (filter (fun r => touches ty r = true) t))))) /\
  (forall a b,
     a ∈ select_ranked ty limit t ->
     b ∈ t -> touches ty b = true ->
     partition_value ty b = partition_value ty a ->
     last_seen a < last_seen b ->
     b ∈ select_ranked ty limit t).
Proof.
  unfold select_ranked, ranked_relations.
  set (l := order_by_last_seen_desc (filter (fun r => touches ty r = true) t)).
  assert (Hl : l ≡ₚ filter (fun r => touches ty r = true) t)
    by apply order_by_last_seen_desc_perm.
  assert (Hsorted : StronglySorted (fun a b => last_seen b <= last_seen a) l)
    by apply order_by_last_seen_desc_sorted.
  split.
  { intros r. rewrite order_by_last_seen_desc_perm. intros Hr.
    apply list_elem_of_fmap in Hr as ([r' k] & -> & Hr).
    apply list_elem_of_filter in Hr as [_ Hr].
    assert (r' ∈ fst <$> row_numbers ty [] l) as Hr'
      by (by apply (list_elem_of_fmap_2 fst) in Hr).
    rewrite row_numbers_fst, Hl in Hr'. by apply list_elem_of_filter in Hr' as [? ?]. }
  split; [apply order_by_last_seen_desc_sorted|].
  split.
  { intros p. rewrite order_by_last_seen_desc_perm, row_numbers_cap. cbn.
    rewrite Z.sub_0_r. by rewrite Hl. }
  intros a b. rewrite !order_by_last_seen_desc_perm. intros Ha Hb Htb Hp Hlt.
  apply list_elem_of_fmap in Ha as ([a' k] & -> & Ha). cbn in *.
  apply list_elem_of_filter in Ha as [Hk Ha]. cbn in Hk.
  assert (Hbl : b ∈ l) by (rewrite Hl; by apply list_elem_of_filter).
  assert (Hal : a' ∈ l).
  { apply (list_elem_of_fmap_2 fst) in Ha. by rewrite row_numbers_fst in Ha. }
  destruct (row_numbers_elem ty a' k l [] Ha) as (l1 & l2 & El & Ek).
  rewrite app_nil_r in Ek.
  (* [b] comes before [a'] *)
  assert (Hb1 : b ∈ l1).
  { rewrite El in Hbl, Hsorted. apply elem_of_app in Hbl as [?|Hbl]; [done|].
    apply sorted_suffix in Hsorted.
    apply StronglySorted_inv in Hsorted as [_ Hall].
    apply elem_of_cons in Hbl as [->|Hbl]; [lia|].
    rewrite Forall_forall in Hall. specialize (Hall b Hbl). cbn in Hall. lia. }
  apply list_elem_of_split in Hb1 as (l1a & l1b & ->).
  apply list_elem_of_fmap.
  exists (b, 1 + Z.of_nat (length (filter (fun q => q = partition_value ty b)
                                      (rev (partition_value ty <$> l1a) ++ [])))).
  split; [done|]. apply list_elem_of_filter. split.
  - cbn. rewrite app_nil_r, Hp.
    assert (length (filter (fun q => q = partition_value ty a')
                      (rev (partition_value ty <$> l1a))) <=
            length (filter (fun q => q = partition_value ty a')
                      (rev (partition_value ty <$> l1a ++ b :: l1b))))%nat; [|lia].
    rewrite fmap_app, rev_app_distr, filter_app, length_app. lia.
  - rewrite El, <- app_assoc. cbn. rewrite row_numbers_split.
    apply elem_of_app. right. apply elem_of_cons. by left.
Qed.

(** *** Relations of one value *)

Lemma db_read_run q w :
  db_fault w (db_calls w) = false ->
  db_read q w =
    (Ok {| rows := q (table w); rowCount := length (q (table w)) |},
     set_db_calls (S (db_calls w)) w).
Proof. intros Hf. unfold db_read. js_unfold. by rewrite Hf. Qed.

(** X13.  [getRelationsByValue] reads the table and nothing else: it neither
    looks at the cache nor writes to it.  It works on the rows that carry
    the value under the type at either end, latest [last_seen] first, and
    lists each of them exactly once: the entries of all groups together are
    the entries of those rows, no more and no fewer; there is one group for
    each source value among the rows, and it holds the entries of the rows
    with that source value, in their order.  So an entry is in the group of
    the value itself or it points to the value. *)
Theorem getRelationsByValue_reads_the_table type value w :
  db_fault w (db_calls w) = false ->
  let matching :=
    filter (fun r => from_source type value r = true \/ from_target type value r = true)
           (table w) in
  exists arr w' rows,
    getRelationsByValue type value w = (Ok arr, w') /\
    ref arr = next_ref w /\
    rows ≡ₚ matching /\
    StronglySorted (fun a b => last_seen b <= last_seen a) rows /\
    mjoin (grp_related <$> elems arr) ≡ₚ related_of <$> matching /\
    NoDup (grp_source <$> elems arr) /\
    (forall s, s ∈ grp_source <$> elems arr <-> s ∈ source_value <$> rows) /\
    (forall g, g ∈ elems arr ->
       grp_related g =
         related_of <$> filter (fun r => source_value r = grp_source g) rows) /\
    sum_list (length ∘ grp_related <$> elems arr) = length matching /\
    (forall g x, g ∈ elems arr -> x ∈ grp_related g ->
       grp_source g = value \/ (rel_type x = type /\ rel_target x = value)) /\
    table w' = table w /\ relationsCache w' = relationsCache w /\
    ticks w' = ticks w /\ txn w' = txn w.
Proof.
  intros Hf matching. unfold getRelationsByValue, try_catch, bind.
  rewrite db_read_run by done. unfold formatRelations.
  set (rows := select_by_value type value (table w)).
  assert (Hrows : rows ≡ₚ matching).
  { unfold rows, select_by_value. rewrite order_by_last_seen_desc_perm.
    unfold matching. erewrite list_filter_iff; [reflexivity|].
    intros r. by rewrite orb_true_iff. }
  eexists _, _, rows. split; [reflexivity|].
  cbn [ref elems rows table relationsCache ticks txn set_next_ref set_db_calls
       RelationsModel.rows].
  destruct (groups_of_sources rows) as [Hnd Hsrc].
  split; [done|]. split; [exact Hrows|].
  split; [apply order_by_last_seen_desc_sorted|].
  split; [by rewrite groups_of_entries, Hrows|].
  split; [exact Hnd|]. split; [exact Hsrc|].
  split; [intros g Hg; by apply groups_of_related|].
  split; [by rewrite groups_of_total, Hrows|].
  split; [|done].
  intros g x Hg Hx. apply groups_of_related in Hg as [Hrel _].
  rewrite Hrel in Hx. apply list_elem_of_fmap in Hx as (r & -> & Hr).
  apply list_elem_of_filter in Hr as [Hsrc' Hr]. rewrite Hrows in Hr.
  apply list_elem_of_filter in Hr as [[Hm|Hm] _].
  - left. apply from_source_true in Hm as [_ Hm]. congruence.
  - right. by apply from_target_true in Hm.
Qed.

(** *** Renaming a user *)


(** *** Deleting old rows: failure *)

(** X15.  When the [DELETE] of [deleteOldRelations] fails, the error reaches
    the caller and nothing has changed but the count of round trips: no row
    is gone, no clock was read, and the cache, which is cleared after the
    statement, still holds every entry. *)
Theorem deleteOldRelations_failure_keeps_cache days w :
  db_fault w (db_calls w) = true ->
  deleteOldRelations days w =
    (Throw (DbError (db_calls w)), set_db_calls (S (db_calls w)) w).
Proof.
  intros Hf. unfold deleteOldRelations. js_unfold. by rewrite Hf.
Qed.

(** *** A batch and its upserts *)

Lemma batch_step_exact types results relation w t :
  txn w = Some t -> db_fault w (db_calls w) = false ->
  let '(first, last, tick) := upsert_times (in_metadata relation) (clock w) (ticks w) in
  let e := proposed (input_key relation) (in_metadata relation) first last in
  exists w',
    batch_step (types, results) relation w =
      (Ok (set_add (in_targetType relation) (set_add (in_sourceType relation) types),
           results ++ [(insert_on_conflict upsert_merge e t).2]), w') /\
    txn w' = Some (insert_on_conflict upsert_merge e t).1 /\
    same_outside w w' /\ db_calls w' = S (db_calls w) /\ ticks w' = tick.
Proof.
  intros Ht Hf. unfold batch_step, proposed, input_key, client_query, upsert_times.
  destruct (default empty_metadata (in_metadata relation)) as [[f|] [l|] a];
    js_unfold; rewrite Hf; cbn; rewrite Ht;
    match goal with |- context [insert_on_conflict upsert_merge ?e ?t] =>
      destruct (insert_on_conflict upsert_merge e t) as [t' out] eqn:E end;
    cbn; eexists; (split; [reflexivity|]); by repeat split.
Qed.

Lemma elem_of_set_add ty ty' s : ty ∈ set_add ty' s <-> ty ∈ s \/ ty = ty'.
Proof.
  unfold set_add. destruct (decide (ty' ∈ s)).
  - split; [tauto|]. intros [?| ->]; done.
  - by rewrite elem_of_app, list_elem_of_singleton.
Qed.

Lemma prefixed_by_true types key :
  prefixed_by types key = true <-> exists ty, ty ∈ types /\ String.prefix ty key = true.
Proof.
  unfold prefixed_by. rewrite existsb_exists. by setoid_rewrite list_elem_of_In.
Qed.

Lemma prefixed_by_ext types types' key :
  (forall ty, ty ∈ types <-> ty ∈ types') ->
  prefixed_by types key = prefixed_by types' key.
Proof.
  intros H. apply eq_true_iff_eq. rewrite !prefixed_by_true. by setoid_rewrite H.
Qed.

Lemma invalidate_each_cache types : forall w,
  exists w',
    for_of types (fun _ type => _invalidateCache type) tt w = (Ok tt, w') /\
    table w' = table w /\ txn w' = txn w /\ ticks w' = ticks w /\
    forall key,
      relationsCache w' !! key =
        if prefixed_by types key then None else relationsCache w !! key.
Proof.
  induction types as [|ty types IH]; intros w.
  - by exists w.
  - unfold for_of; fold (@for_of World Error string unit).
    unfold bind, _invalidateCache, modify.
    destruct (IH (set_cache
                    (drop_prefixed ty (map_to_list (relationsCache w)).*1 (relationsCache w))
                    w)) as (w' & Hrun & H1 & H2 & H3 & H4).
    exists w'. split; [exact Hrun|]. split; [done|]. split; [done|]. split; [done|].
    intros key. rewrite H4.
    change (prefixed_by (ty :: types) key)
      with (String.prefix ty key || prefixed_by types key).
    cbn [relationsCache set_cache]. rewrite lookup_invalidated.
    by destruct (String.prefix ty key), (prefixed_by types key).
Qed.

(** The loop of a batch and the upserts one by one, side by side. *)
Lemma batch_loop_simulates relations : forall types results wb ws,
  txn wb = Some (table ws) -> ticks ws = ticks wb -> clock ws = clock wb ->
  reliable wb -> reliable ws ->
  exists types' results' wb' ws',
    for_of relations batch_step (types, results) wb = (Ok (types', results'), wb') /\
    for_of relations
      (fun results relation =>
         row <- upsertRelation (in_sourceType relation) (in_sourceValue relation)
                               (in_targetType relation) (in_targetValue relation)
                               (in_metadata relation) ;;
         ret (results ++ option_list row))
      results ws = (Ok results', ws') /\
    txn wb' = Some (table ws') /\ ticks ws' = ticks wb' /\
    same_outside wb wb' /\
    db_calls wb' = (db_calls wb + length relations)%nat /\
    (forall ty, ty ∈ types' <-> ty ∈ types \/ ty ∈ types_of relations) /\
    (forall key,
       relationsCache ws' !! key =
         if prefixed_by (types_of relations) key then None
         else relationsCache ws !! key).
Proof.
  induction relations as [|relation relations IH];
    intros types results wb ws Htx Hticks Hclock Hrb Hrs.
  - exists types, results, wb, ws. cbn.
    split; [done|]. split; [done|]. split; [done|]. split; [done|].
    split; [apply same_outside_refl|]. split; [lia|]. split; [|done].
    intros ty. rewrite elem_of_nil. tauto.
  - pose proof (batch_step_exact types results relation wb (table ws) Htx
                  (reliable_now _ Hrb)) as Hb.
    pose proof (upsertRelation_run (in_sourceType relation) (in_sourceValue relation)
                  (in_targetType relation) (in_targetValue relation)
                  (in_metadata relation) ws (reliable_now _ Hrs)) as Hs.
    rewrite Hticks, Hclock in Hs. fold (input_key relation) in Hs.
    destruct (upsert_times (in_metadata relation) (clock wb) (ticks wb))
      as [[first last] tick].
    destruct Hb as (wb1 & Hb & Htx1 & Hso1 & Hcalls1 & Hticks1).
    destruct Hs as (ws1 & Hs & Htab1 & Hticks1' & Hcalls1' & _ & Hclock1 & Hfault1 & _ & Hcache1).
    set (e := proposed (input_key relation) (in_metadata relation) first last) in *.
    destruct (IH (set_add (in_targetType relation) (set_add (in_sourceType relation) types))
                 (results ++ [(insert_on_conflict upsert_merge e (table ws)).2]) wb1 ws1)
      as (types' & results' & wb' & ws' & Hrb' & Hrs' & Htx' & Hticks' & Hso' & Hcalls' & Hty & Hcache).
    { by rewrite Htx1, Htab1. }
    { by rewrite Hticks1, Hticks1'. }
    { by rewrite Hclock1, (so_clock _ _ Hso1). }
    { eapply reliable_later; [exact Hrb|exact (so_fault _ _ Hso1)|lia]. }
    { eapply reliable_later; [exact Hrs|exact Hfault1|lia]. }
    exists types', results', wb', ws'.
    split.
    { unfold for_of; fold (@for_of World Error RelationInput (list string * list Relation)).
      unfold bind. by rewrite Hb. }
    split.
    { unfold for_of; fold (@for_of World Error RelationInput (list Relation)).
      unfold bind at 1. unfold bind at 1. rewrite Hs. exact Hrs'. }
    split; [done|]. split; [done|].
    split; [by eapply same_outside_trans|].
    split; [rewrite Hcalls', Hcalls1; cbn; lia|].
    split.
    { intros ty. rewrite Hty, !elem_of_set_add. cbn. rewrite !elem_of_cons. tauto. }
    intros key. rewrite Hcache, Hcache1, !lookup_invalidated.
    change (prefixed_by (types_of (relation :: relations)) key)
      with (String.prefix (in_sourceType relation) key ||
            (String.prefix (in_targetType relation) key ||
             prefixed_by (types_of relations) key)).
    by destruct (String.prefix (in_sourceType relation) key),
               (String.prefix (in_targetType relation) key),
               (prefixed_by (types_of relations) key).
Qed.

(** X16.  A batch that meets no failure does what its upserts would do one
    after the other: [batchUpsertRelations] returns the rows that
    [upsertRelation], called for each element in order, would return, and
    leaves the same table and the same cache, after the same readings of
    the clock. *)
Theorem batch_is_upserts_in_order relations w :
  reliable w ->
  exists results wb ws,
    batchUpsertRelations (Some relations) w = (Ok results, wb) /\
    upsert_one_by_one relations w = (Ok results, ws) /\
    table wb = table ws /\
    relationsCache wb = relationsCache ws /\
    ticks wb = ticks ws.
Proof.
  intros Hrel. destruct relations as [|r0 rest].
  { by exists [], w, w. }
  cbn [batchUpsertRelations]. unfold try_catch at 1. unfold bind at 1.
  rewrite pool_connect_ok by (by apply reliable_now).
  unfold bind at 1, try_finally, try_catch at 1, bind at 1.
  rewrite client_query_begin by (apply Hrel; cbn; lia).
  set (w2 := set_txn _ _). unfold bind at 1.
  destruct (batch_loop_simulates (r0 :: rest) [] [] w2 w)
    as (types' & results' & wb' & ws' & Hb & Hs & Htx & Hticks & Hso & Hcalls & Hty & Hcache);
    try done.
  { eapply reliable_later; [exact Hrel|reflexivity|cbn; lia]. }
  rewrite Hb. unfold bind at 1.
  rewrite (client_query_commit wb') with (t := table ws'); [| |exact Htx].
  2:{ rewrite (so_fault _ _ Hso). apply Hrel. rewrite Hcalls. cbn. lia. }
  unfold ret at 1, client_release, ret at 1. unfold bind at 1.
  set (w4 := set_txn None _).
  destruct (invalidate_each_cache (types', results').1 w4)
    as (w5 & Hinv & Htab & _ & Hticks5 & Hcache5).
  rewrite Hinv. unfold ret.
  exists results', w5, ws'. split; [reflexivity|]. split; [exact Hs|].
  split; [by rewrite Htab|]. split; [|by rewrite Hticks5, Hticks].
  apply map_eq. intros key. rewrite Hcache5, Hcache. subst w4.
  cbn [fst relationsCache set_txn set_table set_db_calls].
  rewrite (so_cache _ _ Hso). subst w2.
  cbn [relationsCache set_txn set_table set_db_calls].
  rewrite (prefixed_by_ext types' (types_of (r0 :: rest))); [done|].
  intros ty. rewrite Hty, elem_of_nil. tauto.
Qed.

(** *** A renamed row *)

Section ReinsertFresh.
Variable ren : Z -> Relation -> Relation.
Hypothesis ren_key : forall now now' r, key_of (ren now r) = key_of (ren now' r).

Lemma reinsert_all_frame rows : forall clock tick t K,
  K ∉ key_of ∘ ren 0 <$> rows ->
  find_row K (reinsert_all ren clock tick rows t) = find_row K t.
Proof.
  induction rows as [|r rows IH]; intros clock tick t K HK; [done|].
  rewrite fmap_cons, not_elem_of_cons in HK. destruct HK as [NE HK].
  cbn [reinsert_all]. rewrite IH by done.
  apply insert_on_conflict_other; [apply rename_merge_key|].
  intros E. apply NE. cbn. rewrite <- E. apply ren_key.
Qed.

Lemma reinsert_all_fresh rows : forall clock tick t K r,
  NoDup (key_of ∘ ren 0 <$> rows) -> r ∈ rows -> key_of (ren 0 r) = K ->
  find_row K t = None ->
  exists i, (tick <= i < tick + length rows)%nat /\
            find_row K (reinsert_all ren clock tick rows t) = Some (ren (clock i) r).
Proof.
  induction rows as [|r0 rows IH]; intros clock tick t K r Hnd Hin HK Hnone;
    [by apply elem_of_nil in Hin|].
  rewrite fmap_cons in Hnd. apply NoDup_cons in Hnd as [Hnot Hnd].
  cbn [reinsert_all]. apply elem_of_cons in Hin as [->|Hin].
  - exists tick. split; [cbn; lia|]. rewrite reinsert_all_frame.
    + assert (HK' : key_of (ren (clock tick) r0) = K) by (rewrite <- HK; apply ren_key).
      rewrite <- HK'. apply insert_on_conflict_fresh. by rewrite HK'.
    + by rewrite <- HK.
  - destruct (IH clock (S tick)
                (insert_on_conflict rename_merge (ren (clock tick) r0) t).1 K r Hnd Hin HK)
      as (i & Hi & Hfound).
    + rewrite insert_on_conflict_other; [done|apply rename_merge_key|].
      intros E. apply Hnot. cbn.
      replace (key_of (ren 0 r0)) with K by (rewrite <- E; apply ren_key).
      rewrite <- HK. by apply (list_elem_of_fmap_2 (key_of ∘ ren 0)).
    + exists i. split; [cbn; lia|done].
Qed.
End ReinsertFresh.

Lemma find_row_None_iff K t : find_row K t = None <-> K ∉ key_of <$> t.
Proof.
  split; [|apply find_row_None].
  induction t as [|x t IH]; cbn; [intros _; apply not_elem_of_nil|].
  destruct (decide (key_of x = K)); [done|]. intros H.
  apply not_elem_of_cons. split; [done|by apply IH].
Qed.

Lemma find_row_None_filter (P : Relation -> Prop) `{!forall r, Decision (P r)} K t :
  find_row K t = None -> find_row K (filter P t) = None.
Proof.
  rewrite !find_row_None_iff. intros Hout Hin. apply Hout.
  apply list_elem_of_fmap in Hin as (r & -> & Hr).
  apply list_elem_of_filter in Hr as [_ Hr]. by apply list_elem_of_fmap_2.
Qed.

(** X17.  A row that a rename moves to a key that is free keeps its
    counters, its attribute bag and its [first_seen], and is stamped as seen
    at the time of the rename: after a successful [updateFieldValue] the row
    under the new key is the old row with the new value at the renamed end
    and a clock reading of the call as [last_seen]. *)
Theorem updateFieldValue_moves_row fieldType oldValue newValue w r :
  truthy oldValue = true -> truthy newValue = true -> oldValue <> newValue ->
  reliable w -> NoDup (key_of <$> table w) -> r ∈ table w ->
  let o := sql_text oldValue in
  let n := sql_text newValue in
  let src := filter (fun r => from_source fieldType o r = true) (table w) in
  let tgt := filter (fun r => from_target fieldType o r = true) (table w) in
  (from_source fieldType o r = true ->
   find_row (key_of (renamed_source n 0 r)) (table w) = None ->
   key_of (renamed_source n 0 r) ∉ key_of ∘ renamed_target n 0 <$> tgt ->
   exists total w' i,
     updateFieldValue fieldType oldValue newValue w = (Ok total, w') /\
     (ticks w <= i < ticks w + length src)%nat /\
     find_row (key_of (renamed_source n 0 r)) (table w') =
       Some (renamed_source n (clock w i) r)) /\
  (from_target fieldType o r = true ->
   find_row (key_of (renamed_target n 0 r)) (table w) = None ->
   key_of (renamed_target n 0 r) ∉ key_of ∘ renamed_source n 0 <$> src ->
   exists total w' i,
     updateFieldValue fieldType oldValue newValue w = (Ok total, w') /\
     (ticks w + length src <= i < ticks w + length src + length tgt)%nat /\
     find_row (key_of (renamed_target n 0 r)) (table w') =
       Some (renamed_target n (clock w i) r)).
Proof.
  intros Ho Hn Hon Hrel Hnd Hin o' n' src tgt.
  destruct (truthy_string _ Ho) as (o & -> & Ho').
  destruct (truthy_string _ Hn) as (n & -> & Hn').
  assert (Hon' : o <> n) by congruence.
  change o' with o in *. change n' with n in *. clear o' n'.
  destruct (updateFieldValue_exact fieldType o n w Ho' Hn' Hon' Hrel)
    as (w' & Hrun & Htab & _).
  fold src tgt in Hrun, Htab. split.
  - intros Hs Hfree Hother.
    destruct (reinsert_all_fresh (renamed_source n) (renamed_source_key n) src
                (clock w) (ticks w)
                (filter (fun r => from_target fieldType o r = false)
                   (filter (fun r => from_source fieldType o r = false) (table w)))
                (key_of (renamed_source n 0 r)) r)
      as (i & Hi & Hfound).
    + by apply renamed_source_NoDup.
    + by apply list_elem_of_filter.
    + done.
    + by do 2 apply find_row_None_filter.
    + eexists _, w', i. split; [exact Hrun|]. split; [exact Hi|].
      rewrite Htab, reinsert_all_frame; [exact Hfound|apply renamed_target_key|exact Hother].
  - intros Ht Hfree Hother.
    destruct (reinsert_all_fresh (renamed_target n) (renamed_target_key n) tgt
                (clock w) (ticks w + length src)
                (reinsert_all (renamed_source n) (clock w) (ticks w) src
                   (filter (fun r => from_target fieldType o r = false)
                      (filter (fun r => from_source fieldType o r = false) (table w))))
                (key_of (renamed_target n 0 r)) r)
      as (i & Hi & Hfound).
    + by apply renamed_target_NoDup.
    + by apply list_elem_of_filter.
    + done.
    + rewrite reinsert_all_frame; [|apply renamed_source_key|exact Hother].
      by do 2 apply find_row_None_filter.
    + eexists _, w', i. split; [exact Hrun|]. split; [lia|].
      rewrite Htab. exact Hfound.
Qed.

(** *** Upsert, then look up *)

Lemma groups_of_holds rows r :
  r ∈ rows ->
  exists g, g ∈ groups_of rows /\ grp_source g = source_value r /\
            related_of r ∈ grp_related g.
Proof.
  intros Hr. destruct (groups_of_sources rows) as [_ Hsrc].
  assert (source_value r ∈ grp_source <$> groups_of rows) as Hin.
  { apply Hsrc. by apply list_elem_of_fmap_2. }
  apply list_elem_of_fmap in Hin as (g & Eg & Hg).
  exists g. split; [done|]. split; [done|].
  destruct (groups_of_related rows g Hg) as [-> _].
  apply list_elem_of_fmap_2. apply list_elem_of_filter. by split.
Qed.

Lemma find_row_Some_elem K t r : find_row K t = Some r -> r ∈ t /\ key_of r = K.
Proof.
  induction t as [|x t IH]; cbn; [done|].
  destruct (decide (key_of x = K)).
  - intros [= ->]. split; [apply elem_of_cons; by left|done].
  - intros H. destruct (IH H). split; [apply elem_of_cons; by right|done].
Qed.

(** X18.  What is upserted is found from both ends: after a successful
    [upsertRelation], [getRelationsByValue] for the source end and for the
    target end both list the row that the upsert returned, in the group of
    its source value. *)
Theorem upsert_then_lookup sty sval tty tval md w :
  db_fault w (db_calls w) = false -> db_fault w (S (db_calls w)) = false ->
  exists row w1,
    upsertRelation sty sval tty tval md w = (Ok (Some row), w1) /\
    (exists arr w2 g,
       getRelationsByValue sty sval w1 = (Ok arr, w2) /\
       g ∈ elems arr /\ grp_source g = sval /\ related_of row ∈ grp_related g) /\
    (exists arr w2 g,
       getRelationsByValue tty tval w1 = (Ok arr, w2) /\
       g ∈ elems arr /\ grp_source g = sval /\ related_of row ∈ grp_related g).
Proof.
  intros Hf Hf'.
  pose proof (upsertRelation_run sty sval tty tval md w Hf) as Hrun.
  destruct (upsert_times md (clock w) (ticks w)) as [[first last] tick].
  destruct Hrun as (w1 & Hrun & Htab & _ & Hcalls & _ & _ & Hfault & _).
  set (e := proposed (sty, sval, tty, tval) md first last) in *.
  assert (Hrow : (insert_on_conflict upsert_merge e (table w)).2 ∈ table w1 /\
                 key_of (insert_on_conflict upsert_merge e (table w)).2 = (sty, sval, tty, tval)).
  { rewrite Htab. destruct (find_row (key_of e) (table w)) as [r|] eqn:E.
    - destruct (insert_on_conflict_hit upsert_merge upsert_merge_key e r _ E) as [H1 H2].
      rewrite H2. by apply find_row_Some_elem in H1.
    - destruct (insert_on_conflict_fresh upsert_merge e _ E) as [H1 H2].
      rewrite H2. by apply find_row_Some_elem in H1. }
  set (row := (insert_on_conflict upsert_merge e (table w)).2) in *.
  destruct Hrow as [Hin Hkey]. injection Hkey as K1 K2 K3 K4.
  eexists _, w1. split; [exact Hrun|].
  assert (Hf1 : db_fault w1 (db_calls w1) = false) by (by rewrite Hfault, Hcalls).
  split.
  - unfold getRelationsByValue, try_catch, bind. rewrite db_read_run by done.
    unfold formatRelations. eexists _, _.
    destruct (groups_of_holds (select_by_value sty sval (table w1)) row) as (g & Hg & Hs & Hr);
      [|exists g; split; [reflexivity|]; split; [exact Hg|]; split;
         [by rewrite Hs, K2|exact Hr]].
    unfold select_by_value. rewrite order_by_last_seen_desc_perm.
    apply list_elem_of_filter. split; [|exact Hin].
    apply orb_true_iff. left. by apply from_source_true.
  - unfold getRelationsByValue, try_catch, bind. rewrite db_read_run by done.
    unfold formatRelations. eexists _, _.
    destruct (groups_of_holds (select_by_value tty tval (table w1)) row) as (g & Hg & Hs & Hr);
      [|exists g; split; [reflexivity|]; split; [exact Hg|]; split;
         [by rewrite Hs, K2|exact Hr]].
    unfold select_by_value. rewrite order_by_last_seen_desc_perm.
    apply list_elem_of_filter. split; [|exact Hin].
    apply orb_true_iff. right. by apply from_target_true.
Qed.

(** *** The theorems at work *)

Lemma rename_world_consistent : consistent rename_world.
Proof.
  split; [apply (bool_decide_unpack _); vm_compute; reflexivity|].
  intros t Ht. discriminate Ht.
Defined.

Lemma operations_keep_keys_unique_witness :
  (forall sty sval tty tval md,
     consistent (upsertRelation sty sval tty tval md rename_world).2) /\
  (forall relations, consistent (batchUpsertRelations relations rename_world).2) /\
  (forall ft o n, consistent (updateFieldValue ft o n rename_world).2) /\
  (forall o n, consistent (updateUserCommands o n rename_world).2) /\
  (forall days, consistent (deleteOldRelations days rename_world).2) /\
  (forall type limit, consistent (getRelations type limit rename_world).2) /\
  (forall type value, consistent (getRelationsByValue type value rename_world).2).
Proof.
  apply (operations_keep_keys_unique rename_world). exact rename_world_consistent.
Defined.

Lemma upsertRelation_creates_witness :
  exists row w',
    upsertRelation "username" "alice" "command" "ls" None quiet_world
      = (Ok (Some row), w') /\
    table w' = table quiet_world ++ [row] /\
    key_of row = ("username", "alice", "command", "ls") /\
    strength row = 1 /\ connection_count row = 1 /\ metadata row = empty_metadata /\
    first_seen row = 1000 /\ last_seen row = 1001.
Proof.
  apply (upsertRelation_creates "username" "alice" "command" "ls" None quiet_world);
    reflexivity.
Defined.

Lemma upsertRelation_updates_witness :
  exists row w',
    upsertRelation "username" "alice" "command" "ls" (seen_at 9) rename_world
      = (Ok (Some row), w') /\
    find_row ("username", "alice", "command", "ls") (table w') = Some row /\
    first_seen row = 5 /\
    metadata row = default empty_metadata (seen_at 9) /\
    strength row = 5 /\ connection_count row = 5 /\ last_seen row = 9 /\
    length (table w') = 2%nat /\
    (forall K, K <> ("username", "alice", "command", "ls") ->
               find_row K (table w') = find_row K (table rename_world)).
Proof.
  apply (upsertRelation_updates "username" "alice" "command" "ls" (seen_at 9)
           rename_world alice_ls); reflexivity.
Defined.

(** The rename of alice fails at its second statement: the table is as it
    was, the answer cached for user names is gone, the other one is not. *)
Lemma updateFieldValue_all_or_nothing_witness :
  table (updateFieldValue "username" (JsString "alice") (JsString "carol")
           flaky_rename_world).2 = table flaky_rename_world /\
  forall key,
    relationsCache (updateFieldValue "username" (JsString "alice") (JsString "carol")
                      flaky_rename_world).2 !! key =
      if String.prefix "username" key then None
      else relationsCache flaky_rename_world !! key.
Proof.
  apply (updateFieldValue_all_or_nothing "username" (JsString "alice") (JsString "carol")
           flaky_rename_world (DbError 3)).
  vm_compute. reflexivity.
Defined.

Example updateFieldValue_rolled_back :
  let r := updateFieldValue "username" (JsString "alice") (JsString "carol")
             flaky_rename_world in
  r.1 = Throw (DbError 3) /\ table r.2 = [alice_ls; bob_ls] /\
  (fun key => ce_timestamp <$> relationsCache r.2 !! key) <$> ["username_10"; "command_100"]
    = [None; Some 995].
Proof. vm_compute. repeat split; reflexivity. Qed.

Lemma updateFieldValue_renames_keys_witness :
  exists total w',
    updateFieldValue "username" (JsString "alice") (JsString "carol") rename_world
      = (Ok total, w') /\
    (forall K,
       K ∈ key_of <$> table w' <->
       K ∈ rename_key "username" "alice" "carol" <$> (key_of <$> table rename_world)) /\
    (forall r, r ∈ table w' ->
       from_source "username" "alice" r = false /\
       from_target "username" "alice" r = false).
Proof.
  apply (updateFieldValue_renames_keys "username" (JsString "alice") (JsString "carol")
           rename_world); try reflexivity.
  - discriminate.
  - apply world_of_reliable.
  - intros r Hr [Hs Ht]. apply list_elem_of_In in Hr.
    destruct Hr as [<-|[<-|[]]]; vm_compute in Ht; discriminate Ht.
Defined.

Example updateFieldValue_renamed :
  key_of <$> table (updateFieldValue "username" (JsString "alice") (JsString "carol")
                      rename_world).2
  = [("username", "bob", "command", "ls"); ("username", "carol", "command", "ls")].
Proof. vm_compute. reflexivity. Qed.

Lemma updateFieldValue_self_edge_witness :
  exists total w' a b,
    updateFieldValue "username" (JsString "alice") (JsString "bob") self_edge_world
      = (Ok total, w') /\
    a ∈ table w' /\ key_of a = ("username", "bob", "username", "alice") /\
    b ∈ table w' /\ key_of b = ("username", "alice", "username", "bob").
Proof.
  apply (updateFieldValue_self_edge_survives "username" (JsString "alice") (JsString "bob")
           self_edge_world (edge "username" "alice" "username" "alice" 5 1 1));
    try reflexivity.
  - discriminate.
  - apply world_of_reliable.
  - apply elem_of_cons. left. reflexivity.
  - split; reflexivity.
Defined.

(** alice, who points to herself, is renamed to bob: no row from bob to bob
    comes of it. *)
Example updateFieldValue_self_edge_keys :
  key_of <$> table (updateFieldValue "username" (JsString "alice") (JsString "bob")
                      self_edge_world).2
  = [("username", "bob", "username", "alice"); ("username", "bob", "command", "ls");
     ("username", "alice", "username", "bob")].
Proof. vm_compute. reflexivity. Qed.

Lemma updateFieldValue_keeps_other_rows_witness :
  exists total w',
    updateFieldValue "username" (JsString "alice") (JsString "carol") rename_world
      = (Ok total, w') /\
    bob_ls ∈ table w'.
Proof.
  apply (updateFieldValue_keeps_other_rows "username" (JsString "alice") (JsString "carol")
           rename_world bob_ls); try reflexivity.
  - discriminate.
  - apply world_of_reliable.
  - apply elem_of_cons. right. apply elem_of_cons. left. reflexivity.
  - intros s Hs Hfrom. apply list_elem_of_In in Hs.
    destruct Hs as [<-|[<-|[]]]; [vm_compute; discriminate|discriminate Hfrom].
  - intros s Hs Hfrom. apply list_elem_of_In in Hs.
    destruct Hs as [<-|[<-|[]]]; discriminate Hfrom.
Defined.

(** Invalidating [user] takes the answers cached for [username] with it. *)
Example invalidateCache_reaches_longer_types :
  (fun key => ce_timestamp <$> relationsCache (_invalidateCache "user" down_world).2 !! key)
    <$> ["username_10"; "command_100"; "ip_10"]
  = [None; Some 995; Some 999].
Proof. vm_compute. reflexivity. Qed.

Lemma cache_round_trip_witness :
  (_getCachedData "ip_10" (_cacheData "ip_10" {| ref := 7; elems := [] |} quiet_world).2).1 =
    Ok (if decide (clock quiet_world 1 - clock quiet_world 0 < RELATIONS_CACHE_TTL)
        then Some {| ref := 7; elems := [] |} else None) /\
  relationsCache
    (_getCachedData "ip_10" (_cacheData "ip_10" {| ref := 7; elems := [] |} quiet_world).2).2
  = relationsCache (_cacheData "ip_10" {| ref := 7; elems := [] |} quiet_world).2.
Proof.
  apply (cache_round_trip "ip_10" {| ref := 7; elems := [] |} quiet_world
           (_cacheData "ip_10" {| ref := 7; elems := [] |} quiet_world).2).
  reflexivity.
Defined.

Lemma getRelations_refreshes_expired_witness :
  (db_fault stale_world (db_calls stale_world) = false ->
   exists w',
     getRelations "username" (Some 10) stale_world =
       (Ok {| ref := 1;
              elems := groups_of (select_ranked "username" 10 (table stale_world)) |}, w') /\
     relationsCache w' =
       <["username_10" :=
           {| ce_data := {| ref := 1;
                            elems := groups_of (select_ranked "username" 10
                                                  (table stale_world)) |};
              ce_timestamp := 1001 |}]>
         (relationsCache stale_world) /\
     table w' = table stale_world /\ next_ref w' = 2%nat) /\
  (db_fault stale_world (db_calls stale_world) = true ->
   exists e w',
     getRelations "username" (Some 10) stale_world = (Throw e, w') /\
     relationsCache w' = relationsCache stale_world /\
     table w' = table stale_world /\ next_ref w' = next_ref stale_world).
Proof.
  apply (getRelations_refreshes_expired "username" (Some 10) stale_world (cached (-30000))).
  - vm_compute. reflexivity.
  - vm_compute. discriminate.
Defined.

(** Rows under two source values, the later one first. *)
Example formatRelations_two_groups :
  (fun g => (grp_source g, grp_type g, rel_target <$> grp_related g)) <$>
    groups_of [bob_ls; alice_ls; edge "username" "bob" "command" "whoami" 3 1 1]
  = [("bob", "username", ["ls"; "whoami"]); ("alice", "username", ["ls"])].
Proof. vm_compute. reflexivity. Qed.

(** With limit 1, of the two commands of one address the later one stays. *)
Example select_ranked_limit_one :
  target_value <$>
    select_ranked "ip" 1 [edge "ip" "1.2.3.4" "command" "ls" 5 1 1;
                          edge "ip" "1.2.3.4" "command" "whoami" 9 1 1;
                          edge "ip" "5.6.7.8" "command" "ls" 7 1 1]
  = ["whoami"; "ls"].
Proof. vm_compute. reflexivity. Qed.

Lemma getRelationsByValue_witness :
  exists arr w' rows,
    getRelationsByValue "command" "ls" rename_world = (Ok arr, w') /\
    ref arr = next_ref rename_world /\
    rows ≡ₚ [alice_ls; bob_ls] /\
    StronglySorted (fun a b => last_seen b <= last_seen a) rows /\
    mjoin (grp_related <$> elems arr) ≡ₚ related_of <$> [alice_ls; bob_ls] /\
    NoDup (grp_source <$> elems arr) /\
    (forall s, s ∈ grp_source <$> elems arr <-> s ∈ source_value <$> rows) /\
    (forall g, g ∈ elems arr ->
       grp_related g =
         related_of <$> filter (fun r => source_value r = grp_source g) rows) /\
    sum_list (length ∘ grp_related <$> elems arr) = 2%nat /\
    (forall g x, g ∈ elems arr -> x ∈ grp_related g ->
       grp_source g = "ls" \/ (rel_type x = "command" /\ rel_target x = "ls")) /\
    table w' = table rename_world /\
    relationsCache w' = relationsCache rename_world /\
    ticks w' = ticks rename_world /\ txn w' = txn rename_world.
Proof.
  apply (getRelationsByValue_reads_the_table "command" "ls" rename_world). reflexivity.
Defined.

(** The command of alice and bob, looked up by value: two groups, bob's
    first. *)
Example getRelationsByValue_groups :
  (fun a => grp_source <$> elems a) <$>
    match (getRelationsByValue "command" "ls" rename_world).1 with
    | Ok a => Some a
    | Throw _ => None
    end
  = Some ["bob"; "alice"].
Proof. vm_compute. reflexivity. Qed.


(** bob has run the command of alice: alice cannot take his name, but she
    can take another. *)
Example updateUserCommands_collision :
  (updateUserCommands "alice" "bob" rename_world).1 = Throw (DbError 0) /\
  (updateUserCommands "alice" "carol" rename_world).1 = Ok 1%nat /\
  key_of <$> table (updateUserCommands "alice" "carol" rename_world).2
    = [("username", "carol", "command", "ls"); ("username", "bob", "command", "ls")].
Proof. vm_compute. repeat split; reflexivity. Qed.

Lemma deleteOldRelations_failure_witness :
  deleteOldRelations None down_world =
    (Throw (DbError (db_calls down_world)),
     set_db_calls (S (db_calls down_world)) down_world).
Proof.
  apply (deleteOldRelations_failure_keeps_cache None down_world). reflexivity.
Defined.

Lemma batch_is_upserts_witness :
  exists results wb ws,
    batchUpsertRelations (Some two_rows) quiet_world = (Ok results, wb) /\
    upsert_one_by_one two_rows quiet_world = (Ok results, ws) /\
    table wb = table ws /\
    relationsCache wb = relationsCache ws /\
    ticks wb = ticks ws.
Proof.
  apply (batch_is_upserts_in_order two_rows quiet_world). exact quiet_world_reliable.
Defined.

Lemma updateFieldValue_moves_row_witness :
  (from_source "username" "alice" alice_ls = true ->
   find_row (key_of (renamed_source "carol" 0 alice_ls)) (table rename_world) = None ->
   key_of (renamed_source "carol" 0 alice_ls) ∉
     key_of ∘ renamed_target "carol" 0 <$>
       filter (fun r => from_target "username" "alice" r = true) (table rename_world) ->
   exists total w' i,
     updateFieldValue "username" (JsString "alice") (JsString "carol") rename_world
       = (Ok total, w') /\
     (ticks rename_world <= i <
      ticks rename_world +
      length (filter (fun r => from_source "username" "alice" r = true)
                     (table rename_world)))%nat /\
     find_row (key_of (renamed_source "carol" 0 alice_ls)) (table w') =
       Some (renamed_source "carol" (clock rename_world i) alice_ls)) /\
  (from_target "username" "alice" alice_ls = true ->
   find_row (key_of (renamed_target "carol" 0 alice_ls)) (table rename_world) = None ->
   key_of (renamed_target "carol" 0 alice_ls) ∉
     key_of ∘ renamed_source "carol" 0 <$>
       filter (fun r => from_source "username" "alice" r = true) (table rename_world) ->
   exists total w' i,
     updateFieldValue "username" (JsString "alice") (JsString "carol") rename_world
       = (Ok total, w') /\
     (ticks rename_world +
      length (filter (fun r => from_source "username" "alice" r = true)
                     (table rename_world)) <= i <
      ticks rename_world +
      length (filter (fun r => from_source "username" "alice" r = true)
                     (table rename_world)) +
      length (filter (fun r => from_target "username" "alice" r = true)
                     (table rename_world)))%nat /\
     find_row (key_of (renamed_target "carol" 0 alice_ls)) (table w') =
       Some (renamed_target "carol" (clock rename_world i) alice_ls)).
Proof.
  apply (updateFieldValue_moves_row "username" (JsString "alice") (JsString "carol")
           rename_world alice_ls); try reflexivity.
  - discriminate.
  - apply world_of_reliable.
  - apply (bool_decide_unpack _). vm_compute. reflexivity.
  - apply elem_of_cons. left. reflexivity.
Defined.

(** alice becomes carol: her row keeps its counters and its first time, and
    is last seen at the time of the rename. *)
Example updateFieldValue_moved_row :
  find_row ("username", "carol", "command", "ls")
    (table (updateFieldValue "username" (JsString "alice") (JsString "carol")
              rename_world).2)
  = Some {| source_type := "username"; source_value := "carol";
            target_type := "command"; target_value := "ls";
            metadata := empty_metadata; first_seen := 5; last_seen := 1000;
            strength := 4; connection_count := 4 |}.
Proof. vm_compute. reflexivity. Qed.

Lemma upsert_then_lookup_witness :
  exists row w1,
    upsertRelation "username" "alice" "command" "ls" None quiet_world
      = (Ok (Some row), w1) /\
    (exists arr w2 g,
       getRelationsByValue "username" "alice" w1 = (Ok arr, w2) /\
       g ∈ elems arr /\ grp_source g = "alice" /\ related_of row ∈ grp_related g) /\
    (exists arr w2 g,
       getRelationsByValue "command" "ls" w1 = (Ok arr, w2) /\
       g ∈ elems arr /\ grp_source g = "alice" /\ related_of row ∈ grp_related g).
Proof.
  apply (upsert_then_lookup "username" "alice" "command" "ls" None quiet_world);
    reflexivity.
Defined.

End RelationsMoreFacts.

(** ** Further properties of the log rotation manager *)

Module LogRotationMoreFacts.
Import Utf8 Json LogRotationManager LogRotationMore Statements MoreStatements LogRotationFacts.

Section CheckLogFile.
Variable JSON_parse : string -> string + Json.
Variable path_join : string -> string -> string.
Variable this : Manager.

Lemma checkLogFile_total fileName w :
  exists needsRotation w',
    checkLogFile JSON_parse path_join this fileName w = (Ok needsRotation, w').
Proof.
  fs_unfold. destruct (files w !! _) as [bytes|] eqn:Hfile; cbn; [|eauto].
  destruct (access_fault w _); cbn; [eauto|]. rewrite Hfile. cbn.
  destruct (read_fault w _); cbn; [eauto|].
  destruct (JSON_parse (utf8_text bytes)) as [message|logs]; cbn.
  - destruct (write_fault w _); cbn; eauto.
  - destruct logs; cbn; eauto. destruct (decide _); cbn; eauto.
Qed.

Lemma checkLogFile_absent fileName w :
  files w !! path_join (dataDir this) fileName = None ->
  checkLogFile JSON_parse path_join this fileName w = (Ok false, w).
Proof. intros Hfile. fs_unfold. by rewrite Hfile. Qed.

Lemma append_longer (s suffix : string) : suffix <> "" -> s +:+ suffix <> s.
Proof.
  intros Hne. induction s as [|c s IH]; [done|].
  cbn. intros [= E]. by apply IH.
Qed.

Lemma backup_path_other filePath now : backup_path filePath now <> filePath.
Proof. unfold backup_path. apply append_longer. done. Qed.

(** The check of a log that can be read and parses. *)
Lemma checkLogFile_parsed fileName w bytes logs :
  let filePath := path_join (dataDir this) fileName in
  files w !! filePath = Some bytes ->
  access_fault w filePath = false -> read_fault w filePath = false ->
  JSON_parse (utf8_text bytes) = inr logs ->
  checkLogFile JSON_parse path_join this fileName w =
    (Ok match logs with
        | JArray items => bool_decide (maxLogsPerFile this <= Z.of_nat (length items))
        | _ => true
        end, w).
Proof.
  intros filePath Hfile Ha Hr Hp. fs_unfold. fold filePath.
  rewrite Hfile. cbn. rewrite Ha. cbn. rewrite Hfile. cbn. rewrite Hr. cbn.
  rewrite Hp. destruct logs; cbn; try reflexivity.
  destruct (decide _); cbn.
  - by rewrite bool_decide_eq_true_2.
  - by rewrite bool_decide_eq_false_2.
Qed.

(** X19.  A log that can be read and parses is only looked at:
    [checkLogFile] leaves the files, the events and the clock as they are.
    It asks for a rotation when the text is a list that has reached
    [maxLogsPerFile] entries (a list of exactly that length counts), and
    when the text is any other JSON value; of such a file it makes no
    backup. *)
Theorem checkLogFile_reads_only fileName w bytes logs :
  let filePath := path_join (dataDir this) fileName in
  files w !! filePath = Some bytes ->
  access_fault w filePath = false -> read_fault w filePath = false ->
  JSON_parse (utf8_text bytes) = inr logs ->
  checkLogFile JSON_parse path_join this fileName w =
    (Ok match logs with
        | JArray items => bool_decide (maxLogsPerFile this <= Z.of_nat (length items))
        | _ => true
        end, w).
Proof. apply checkLogFile_parsed. Qed.

(** X20.  Whatever [checkLogFile] finds, the only file it may write is the
    backup [<path>.corrupted.<clock reading>]: every other path, the log
    itself among them, holds what it held; and it emits at most one event,
    a [log_file_corrupted] one. *)
Theorem checkLogFile_writes_only_the_backup fileName w :
  let filePath := path_join (dataDir this) fileName in
  let w' := (checkLogFile JSON_parse path_join this fileName w).2 in
  (forall path,
     path <> backup_path filePath (fs_clock w (fs_ticks w)) ->
     files w' !! path = files w !! path) /\
  files w' !! filePath = files w !! filePath /\
  (events w' = events w \/
   exists e, events w' = events w ++ [e] /\ ev_name e = "log_file_corrupted" /\
             ev_file e = fileName).
Proof.
  intros filePath w'.
  assert (H : (forall path,
             path <> backup_path filePath (fs_clock w (fs_ticks w)) ->
             files w' !! path = files w !! path) /\
          (events w' = events w \/
           exists e, events w' = events w ++ [e] /\ ev_name e = "log_file_corrupted" /\
                     ev_file e = fileName)).
  { subst w'. fs_unfold. fold filePath.
    destruct (files w !! filePath) as [bytes|] eqn:Hfile; cbn; [|by split; [|left]].
    destruct (access_fault w filePath); cbn; [by split; [|left]|]. rewrite Hfile. cbn.
    destruct (read_fault w filePath); cbn; [by split; [|left]|].
    destruct (JSON_parse (utf8_text bytes)) as [message|logs]; cbn.
    - destruct (write_fault w _); cbn; [by split; [|left]|]. split.
      + intros path Hpath. by rewrite lookup_insert_ne.
      + right. eexists. by split.
    - destruct logs; cbn; try (by split; [|left]).
      destruct (decide _); cbn; by split; [|left]. }
  destruct H as [H1 H2]. split; [exact H1|]. split; [|exact H2].
  apply H1. intros E. symmetry in E. by apply backup_path_other in E.
Qed.

(** X21.  A log that was reset is an empty list: after [resetLogFile] the
    file holds the text of the empty list, and [checkLogFile] reads it back
    and asks for a rotation only if [maxLogsPerFile] is not positive. *)
Theorem resetLogFile_then_check fileName w :
  let filePath := path_join (dataDir this) fileName in
  JSON_parse "[]" = inr (JArray []) ->
  write_fault w filePath = false ->
  access_fault w filePath = false -> read_fault w filePath = false ->
  exists w1,
    resetLogFile path_join this fileName w = (Ok tt, w1) /\
    files w1 = <[filePath := "[]"]> (files w) /\
    checkLogFile JSON_parse path_join this fileName w1 =
      (Ok (bool_decide (maxLogsPerFile this <= 0)), w1).
Proof.
  intros filePath Hp Hw Ha Hr. unfold resetLogFile, fs_writeFile. fold filePath.
  rewrite Hw. eexists. split; [reflexivity|]. split; [reflexivity|].
  apply (checkLogFile_parsed fileName _ "[]" (JArray [])); try done.
  cbn. by rewrite lookup_insert_eq.
Qed.

Lemma rotation_loop files0 : forall rotations w,
  exists selected w',
    for_of files0
      (fun rotations logFile =>
         needsRotation <- checkLogFile JSON_parse path_join this logFile ;;
         if (needsRotation : bool) then ret (rotations ++ [logFile]) else ret rotations)
      rotations w = (Ok (rotations ++ selected), w') /\
    sublist selected files0 /\
    ((forall logFile, logFile ∈ files0 ->
        files w !! path_join (dataDir this) logFile = None) ->
     selected = [] /\ w' = w).
Proof.
  induction files0 as [|logFile files0 IH]; intros rotations w.
  - exists [], w. rewrite app_nil_r. by repeat split.
  - unfold for_of; fold (@for_of FsWorld FsError string (list string)).
    unfold bind at 1. unfold bind at 1.
    destruct (checkLogFile_total logFile w) as (needs & w1 & Hcheck). rewrite Hcheck.
    destruct needs; unfold ret at 1.
    + destruct (IH (rotations ++ [logFile]) w1) as (selected & w' & Hrun & Hsub & _).
      exists (logFile :: selected), w'. rewrite Hrun, <- app_assoc.
      split; [done|]. split; [by constructor|].
      intros Habsent. rewrite checkLogFile_absent in Hcheck; [done|].
      apply Habsent, elem_of_cons. by left.
    + destruct (IH rotations w1) as (selected & w' & Hrun & Hsub & Hnone).
      exists selected, w'. split; [exact Hrun|]. split; [by constructor|].
      intros Habsent. rewrite checkLogFile_absent in Hcheck
        by (apply Habsent, elem_of_cons; by left).
      injection Hcheck as <-. apply Hnone. intros f Hf.
      apply Habsent, elem_of_cons. by right.
Qed.

(** X22.  The selection loop of [checkAndRotate] never throws, and what it
    selects is a part of the managed files, in their order.  When none of
    the managed files exists, it selects nothing and changes nothing. *)
Theorem rotation_candidates_selects w :
  exists selected w',
    rotation_candidates JSON_parse path_join this w = (Ok selected, w') /\
    sublist selected (logFiles this) /\
    ((forall logFile, logFile ∈ logFiles this ->
        files w !! path_join (dataDir this) logFile = None) ->
     selected = [] /\ w' = w).
Proof.
  destruct (rotation_loop (logFiles this) [] w) as (selected & w' & Hrun & H).
  by exists selected, w'.
Qed.
End CheckLogFile.

(** *** The theorems at work *)

Lemma checkLogFile_reads_only_witness :
  checkLogFile Json.parse posix_join small_manager "audit_logs.json" sound_world =
    (Ok (bool_decide (maxLogsPerFile small_manager <= Z.of_nat (length [JNumber "1"; JNumber "2"]))),
     sound_world).
Proof.
  apply (checkLogFile_reads_only Json.parse posix_join small_manager "audit_logs.json"
           sound_world "[1,2]" (JArray [JNumber "1"; JNumber "2"]));
    vm_compute; reflexivity.
Defined.

(** A log of two entries: the manager that rotates at two asks for a
    rotation, the one that rotates at ten thousand does not. *)
Example checkLogFile_threshold :
  (checkLogFile Json.parse posix_join small_manager "audit_logs.json" sound_world).1 = Ok true /\
  (checkLogFile Json.parse posix_join manager "audit_logs.json" sound_world).1 = Ok false.
Proof. vm_compute. split; reflexivity. Qed.

(** The log that does not parse is still there after the check. *)
Example checkLogFile_keeps_the_log :
  files (checkLogFile Json.parse posix_join manager "audit_logs.json" broken_world).2
    !! "data/audit_logs.json" = Some "[1,2".
Proof. vm_compute. reflexivity. Qed.

Lemma resetLogFile_then_check_witness :
  exists w1,
    resetLogFile posix_join manager "audit_logs.json" broken_world = (Ok tt, w1) /\
    files w1 = <["data/audit_logs.json" := "[]"]> (files broken_world) /\
    checkLogFile Json.parse posix_join manager "audit_logs.json" w1 =
      (Ok (bool_decide (maxLogsPerFile manager <= 0)), w1).
Proof.
  apply (resetLogFile_then_check Json.parse posix_join manager "audit_logs.json" broken_world);
    vm_compute; reflexivity.
Defined.

(** Of the two managed files one is there, and it does not parse: it is
    selected, and backed up on the way. *)
Example rotation_candidates_broken :
  (rotation_candidates Json.parse posix_join small_manager broken_world).1
    = Ok ["audit_logs.json"] /\
  files (rotation_candidates Json.parse posix_join small_manager broken_world).2
    !! "data/audit_logs.json.corrupted.1700000000000" = Some "[1,2".
Proof. vm_compute. split; reflexivity. Qed.

End LogRotationMoreFacts.

(** ** Properties of the export status table *)

Module S3UploadsFacts.
Import S3Uploads.

Lemma map_get_set key value m :
  map_get key (map_set key value m) = Some value.
Proof.
  induction m as [|[k v] m IH]; cbn.
  - by rewrite decide_True.
  - destruct (decide (k = key)) as [->|NE]; cbn.
    + by rewrite decide_True.
    + by rewrite decide_False.
Qed.

Lemma map_get_set_ne key key' value m :
  key' <> key -> map_get key' (map_set key value m) = map_get key' m.
Proof.
  intros NE. induction m as [|[k v] m IH]; cbn.
  - by rewrite decide_False.
  - destruct (decide (k = key)) as [->|NE']; cbn.
    + by rewrite !decide_False.
    + destruct (decide (k = key')); [done|exact IH].
Qed.

Lemma map_set_keys key value m :
  (map_set key value m).*1 =
    if decide (key ∈ m.*1) then m.*1 else m.*1 ++ [key].
Proof.
  induction m as [|[k v] m IH]; cbn.
  - rewrite decide_False; [done|]. apply not_elem_of_nil.
  - destruct (decide (k = key)) as [->|NE]; cbn.
    + rewrite decide_True; [done|]. apply elem_of_cons. by left.
    + rewrite IH. destruct (decide (key ∈ m.*1)) as [Hin|Hout].
      * rewrite decide_True; [done|]. apply elem_of_cons. by right.
      * rewrite decide_False; [done|]. rewrite elem_of_cons. intros [?|?]; congruence.
Qed.

Lemma updateS3UploadStatus_run archiveFileName status details w :
  updateS3UploadStatus archiveFileName status details w =
    (Ok tt,
     {| s3Uploads :=
          map_set archiveFileName
            (<["updatedAt" := VTime (s3_clock w (s3_ticks w))]>
               (default ∅ details ∪ {[ "status" := VText status ]}))
            (s3Uploads w);
        s3_ticks := S (s3_ticks w); s3_clock := s3_clock w |}).
Proof. reflexivity. Qed.

(** X23.  What [updateS3UploadStatus] records is what [getS3UploadStatus]
    reports, and it is made of the call alone: [updatedAt] is the clock
    reading of the update (an [updatedAt] among the details is overwritten),
    [status] is the one given unless the details carry a [status] of their
    own, every other property is that of the details; nothing of an earlier
    record of the archive is kept.  The records of the other archives are
    not touched. *)
Theorem s3_status_round_trip archiveFileName status details w :
  exists w1 record,
    updateS3UploadStatus archiveFileName status details w = (Ok tt, w1) /\
    getS3UploadStatus archiveFileName w1 = (Ok (Some record), w1) /\
    record !! "updatedAt" = Some (VTime (s3_clock w (s3_ticks w))) /\
    record !! "status" = Some (default (VText status) (default ∅ details !! "status")) /\
    (forall property, property <> "updatedAt" -> property <> "status" ->
       record !! property = default ∅ details !! property) /\
    (forall other, other <> archiveFileName ->
       (getS3UploadStatus other w1).1 = (getS3UploadStatus other w).1).
Proof.
  rewrite updateS3UploadStatus_run. unfold getS3UploadStatus, gets.
  eexists _, _. split; [reflexivity|]. cbv beta. cbn [s3Uploads fst].
  rewrite map_get_set.
  split; [reflexivity|]. split; [by rewrite lookup_insert_eq|]. split.
  { rewrite lookup_insert_ne by done. rewrite lookup_union.
    destruct (default ∅ details !! "status") as [v|] eqn:E; cbn.
    - by rewrite lookup_singleton_eq.
    - by rewrite lookup_singleton_eq. }
  split.
  { intros property H1 H2. rewrite lookup_insert_ne by done.
    rewrite lookup_union, lookup_singleton_ne by done.
    by destruct (default ∅ details !! property). }
  intros other NE. by rewrite map_get_set_ne.
Qed.

(** X24.  [getAllS3UploadStatuses] lists one record for each archive in the
    table, in the order in which the archives were first recorded: an update
    keeps the place of an archive that is known and puts a new one last.
    Each record is the stored one with the name of the archive added as
    [archiveFileName], unless it has a property of that name already. *)
Theorem s3_statuses_listed archiveFileName status details w :
  exists w1 statuses,
    updateS3UploadStatus archiveFileName status details w = (Ok tt, w1) /\
    getAllS3UploadStatuses w1 = (Ok statuses, w1) /\
    (s3Uploads w1).*1 =
      (if decide (archiveFileName ∈ (s3Uploads w).*1) then (s3Uploads w).*1
       else (s3Uploads w).*1 ++ [archiveFileName]) /\
    Forall2 (fun entry listed =>
               listed !! "archiveFileName" =
                 Some (default (VText entry.1) (entry.2 !! "archiveFileName")) /\
               forall property, property <> "archiveFileName" ->
                 listed !! property = entry.2 !! property)
            (s3Uploads w1) statuses.
Proof.
  rewrite updateS3UploadStatus_run. unfold getAllS3UploadStatuses, gets.
  eexists _, _. split; [reflexivity|]. cbv beta. cbn [s3Uploads].
  split; [reflexivity|]. split; [apply map_set_keys|].
  apply Forall2_fmap_r, Forall_Forall2_diag, Forall_forall.
  intros [name record] _. cbn. split.
  - rewrite lookup_union. destruct (record !! "archiveFileName"); cbn.
    + by rewrite lookup_singleton_eq.
    + by rewrite lookup_singleton_eq.
  - intros property NE. rewrite lookup_union, lookup_singleton_ne by done.
    by destruct (record !! property).
Qed.

(** *** The theorems at work *)

(** An archive recorded as pending, then reported as uploaded with a
    location; a second archive recorded after it. *)
Example s3_statuses_example :
  let w0 := {| s3Uploads := [("logs_a.zip", {[ "status" := VText "pending";
                                                "createdAt" := VTime 5 ]})];
               s3_ticks := 0; s3_clock := fun n => Z.of_nat n + 1000 |} in
  let w1 := (updateS3UploadStatus "logs_a.zip" "success"
               (Some {[ "location" := VText "bucket/logs_a.zip" ]}) w0).2 in
  let w2 := (updateS3UploadStatus "logs_b.zip" "pending" None w1).2 in
  match (getS3UploadStatus "logs_a.zip" w2).1 with
  | Ok (Some record) =>
      Some (record !! "status", record !! "createdAt", record !! "updatedAt")
  | _ => None
  end = Some (Some (VText "success"), None, Some (VTime 1000)) /\
  (getS3UploadStatus "logs_c.zip" w2).1 = Ok None /\
  match (getAllS3UploadStatuses w2).1 with
  | Ok statuses => (fun listed : gmap string Value => listed !! "archiveFileName") <$> statuses
  | Throw _ => []
  end = [Some (VText "logs_a.zip"); Some (VText "logs_b.zip")].
Proof. vm_compute. repeat split; reflexivity. Qed.

End S3UploadsFacts.
